(** * ga.h: a generic genetic-algorithm engine

    A shallow embedding of [src/ga.h] (the [Nucl] contract, [Genom] and
    [GenePool]) and of the nucleotide, scorer and simulator of
    [src/tests/max_integer.cpp], with the properties of the engine.

    Conventions.
    - A [std::vector] is a [list]; [v[i]] is the lookup [v !! i], and an
      index outside the vector (undefined behaviour in C++) makes the
      operation that performs it return [None].
    - A [size_t] that counts or indexes elements of a vector is a [nat]
      (the [int] loop counters of ga.h are compared with such sizes and
      stay below them); the generation counter, which is only ever
      incremented, is a [Z] with its 64-bit wrap-around written out.
    - A [float] or [double] is a [spec_float] of the Standard Library, with
      precision 24 or 53; comparisons with NaN are false.
    - The random engine [R&] is threaded explicitly: a function that draws
      takes the engine state and returns the new one.
    - The template parameters [N], [S] and [R] are type classes; the
      instances of the test are at the end of the definitions.
    - The library algorithms [std::sort] and [std::rotate] are given by
      reference implementations; the properties below use only what the
      library guarantees of them (a sorted reordering, a rotation).
    - What the library does with the engine is part of the type class of
      the engine: [std::uniform_int_distribution] gives a number in its
      range and [std::shuffle] makes swaps inside its range.  For the
      engine of the test, [std::default_random_engine], both are the
      algorithms of libstdc++ (bits/uniform_int_dist.h, bits/stl_algo.h),
      so that a computation on the pool of the test gives the numbers the
      program gives. *)

From Stdlib Require Import ZArith Lia.
From Stdlib Require Import Floats.SpecFloat.
From stdpp Require Import base option list.

Local Open Scope nat_scope.

(* ================================================================== *)
(** * Floating point: comparison and the conversions of the constructor *)
(* ================================================================== *)

Module Float.

(** [float] is IEEE binary32, [double] is IEEE binary64. *)
Definition prec32 : Z := 24.
Definition emax32 : Z := 128.
Definition prec64 : Z := 53.
Definition emax64 : Z := 1024.

Definition is_nan (x : spec_float) : bool :=
  match x with S754_nan => true | _ => false end.

(** C++ [x < y] and [x >= y] on floating-point values. *)
Definition lt (x y : spec_float) : bool := SFltb x y.
Definition ge (x y : spec_float) : bool := SFleb y x.

(** Integer to floating point, round to nearest even. *)
Definition of_Z (prec emax : Z) (z : Z) : spec_float :=
  binary_normalize prec emax z 0 false.

(** [float] to [double]: exact. *)
Definition to_double (x : spec_float) : spec_float :=
  match x with
  | S754_finite s m e => binary_round prec64 emax64 s m e
  | _ => x
  end.

(** Floating point to [size_t]: the value is truncated toward zero; the
    conversion is undefined when the truncated value is not a [size_t]. *)
Definition size_max : Z := 2 ^ 64.

Definition to_size (x : spec_float) : option nat :=
  match x with
  | S754_zero _ => Some 0
  | S754_finite s m e =>
      let mag := Z.shiftl (Zpos m) e in
      if s then (if (mag =? 0)%Z then Some 0 else None)
      else if (mag <? size_max)%Z then Some (Z.to_nat mag) else None
  | _ => None
  end.

(** The literal [0.5] (a [double]). *)
Definition half64 : spec_float := S754_finite false (2 ^ 52) (-53).

End Float.

(* ================================================================== *)
(** * Template parameters: random engine, nucleotide, scorer *)
(* ================================================================== *)

(** The random engine [R]: [rng_seed s] is the construction [R(s)], and
    [uniform_int a b g] is the library's
    [std::uniform_int_distribution<T>(a, b)] run on the engine [g].  The
    distribution's algorithm is implementation-defined; its contract is
    that the result lies in the closed range [[a, b]].
    [shuffle_swaps n g] is what [std::shuffle] does with a range of [n]
    elements and the engine [g]: the calls
    [std::iter_swap(first + i, first + j)] it makes, in their order.
    Which swaps it makes is implementation-defined as well. *)
Class RandomEngine (R : Type) := {
  rng_seed : Z → R;
  uniform_int : Z → Z → R → Z * R;
  uniform_int_range : ∀ a b g, (a ≤ b)%Z → (a ≤ (uniform_int a b g).1 ≤ b)%Z;
  shuffle_swaps : nat → R → list (nat * nat) * R;
}.

(** The [Nucl<Derived>] contract (ga.h:23-50 and the calls of [Genom]):
    what a nucleotide type provides.  [nucl_crossover_inplace a b c]
    receives the slot [*c] it writes to and returns its new content;
    [nucl_default] is the value [std::vector::resize] fills with. *)
Class Nucl (N : Type) := {
  nucl_default : N;
  nucl_random : ∀ R `{RandomEngine R}, R → N * R;
  nucl_crossover_inplace : N → N → N → N;
  nucl_mutate : ∀ R `{RandomEngine R}, N → R → N * R;
}.
Arguments nucl_random {N _ R _} g.
Arguments nucl_mutate {N _ R _} x g.

(** The scorer [S]: default-constructible, with a public [float] field
    [score]. *)
Class Scorer (S : Type) := {
  scorer_default : S;
  score_of : S → spec_float;
}.

(** [std::uniform_int_distribution<size_t>]: its two parameters. *)
Record uniform_int_distribution := Distribution { dist_a : nat; dist_b : nat }.

(** [d(rng)] *)
Definition draw `{RandomEngine R} (d : uniform_int_distribution) (g : R) : nat * R :=
  let '(z, g') := uniform_int (Z.of_nat (dist_a d)) (Z.of_nat (dist_b d)) g in
  (Z.to_nat z, g').

(** A loop [for (i : ixs) s = body(i, s)] whose body may be undefined. *)
Fixpoint for_each {St : Type} (body : nat → St → option St) (ixs : list nat) (s : St)
  : option St :=
  match ixs with
  | [] => Some s
  | i :: ixs' => s' ← body i s; for_each body ixs' s'
  end.

(* ================================================================== *)
(** * Genom *)
(* ================================================================== *)

Module Genom.
Section Genom.
Context {N S : Type} `{!Nucl N} `{!Scorer S}.

Record t := Make { nucleotides : list N; scorer : S }.

(** [Genom g;]: no nucleotide, a default scorer. *)
Definition default : t := {| nucleotides := []; scorer := scorer_default |}.

(** [random] (ga.h:72-82); its loop pushes [n] times
    [Nucl<N>::random(rng)]. *)
Fixpoint push_random `{RandomEngine R} (n : nat) (ns : list N) (g : R) : list N * R :=
  match n with
  | 0 => (ns, g)
  | Datatypes.S k => let '(x, g') := nucl_random g in push_random k (ns ++ [x]) g'
  end.

Definition random `{RandomEngine R} (n : nat) (g : R) : t * R :=
  let '(ns, g') := push_random n (nucleotides default) g in
  ({| nucleotides := ns; scorer := scorer default |}, g').

(** [crossover_inplace] (ga.h:97-108), called with a slot [c] that is
    neither of the parents, as [select] calls it.  One iteration of its
    loops is [Nucl<N>::crossover_inplace(a[i], b[i], &c[i])]; the first
    loop runs over [0, n), the second over [n, a.size()) with the parents
    swapped. *)
Definition cross_at (a b : list N) (i : nat) (c : list N) : option (list N) :=
  x ← a !! i; y ← b !! i; z ← c !! i;
  Some (<[i := nucl_crossover_inplace x y z]> c).

Definition crossover_inplace (a b c : t) (n : nat) : option t :=
  let len := length (nucleotides a) in
  let c0 := resize len nucl_default (nucleotides c) in
  c1 ← for_each (cross_at (nucleotides a) (nucleotides b)) (seq 0 n) c0;
  c2 ← for_each (cross_at (nucleotides b) (nucleotides a)) (seq n (len - n)) c1;
  Some {| nucleotides := c2; scorer := scorer c |}.

(** The call [crossover_inplace(a, b, &b, n)], whose slot is the second
    parent: the resize acts on [b] before [b] is read.  Position [i] is
    read and written by iteration [i] only, so that the nucleotide
    crossover gets the old [b[i]] both as parent and as slot. *)
Definition crossover_inplace_onto_b (a b : t) (n : nat) : option t :=
  let b' := {| nucleotides := resize (length (nucleotides a)) nucl_default (nucleotides b);
               scorer := scorer b |} in
  crossover_inplace a b' b' n.

(** [mutate] (ga.h:118-122): [nucleotides[n].mutate(rng)] *)
Definition mutate `{RandomEngine R} (n : nat) (g : R) (x : t) : option (t * R) :=
  y ← nucleotides x !! n;
  let '(y', g') := nucl_mutate y g in
  Some ({| nucleotides := <[n := y']> (nucleotides x); scorer := scorer x |}, g').

(** [shift] (ga.h:132-135).  [std::rotate(first, middle, last)] makes
    [middle] the first element; [middle] must lie in [[first, last]]. *)
Definition std_rotate {A} (n : nat) (l : list A) : option (list A) :=
  if decide (n ≤ length l) then Some (drop n l ++ take n l) else None.

Definition shift (n : nat) (x : t) : option t :=
  ns ← std_rotate n (nucleotides x);
  Some {| nucleotides := ns; scorer := scorer x |}.

Definition size (x : t) : nat := length (nucleotides x).
Definition get_nucleotides (x : t) : list N := nucleotides x.
Definition set_scorer (s : S) (x : t) : t :=
  {| nucleotides := nucleotides x; scorer := s |}.
Definition get_scorer (x : t) : S := scorer x.
Definition score (x : t) : spec_float := score_of (scorer x).

(** [operator<] *)
Definition lt (x y : t) : bool := Float.lt (score x) (score y).

(** [shift(n)] called [k] times in a row. *)
Fixpoint shift_times (k n : nat) (x : t) : option t :=
  match k with
  | 0 => Some x
  | Datatypes.S k' => x' ← shift n x; shift_times k' n x'
  end.

End Genom.
Arguments t : clear implicits.
End Genom.

(* ================================================================== *)
(** * The library algorithms the engine calls *)
(* ================================================================== *)

Module Std.
Section Algorithms.
Context {A : Type}.

(** [std::sort(first, last)] with the comparison [lt]: an insertion sort.
    The library leaves the order of equivalent elements open; nothing
    below depends on it. *)
Fixpoint insert_sorted (lt : A → A → bool) (x : A) (l : list A) : list A :=
  match l with
  | [] => [x]
  | y :: l' => if lt x y then x :: l else y :: insert_sorted lt x l'
  end.

Definition sort (lt : A → A → bool) (l : list A) : list A :=
  foldr (insert_sorted lt) [] l.

(** [std::sort(v.rbegin(), v.rend())]: the reversed view is sorted. *)
Definition sort_reversed (lt : A → A → bool) (l : list A) : list A :=
  reverse (sort lt (reverse l)).

(** [std::swap(v[i], v[j])] *)
Definition swap (i j : nat) (l : list A) : list A :=
  match l !! i, l !! j with
  | Some x, Some y => <[i := y]> (<[j := x]> l)
  | _, _ => l
  end.

(** [std::shuffle(first, last, g)]: the swaps the library makes, applied
    one after the other. *)
Definition shuffle `{RandomEngine R} (l : list A) (g : R) : list A * R :=
  let '(swaps, g') := shuffle_swaps (length l) g in
  (foldl (λ l' ij, swap ij.1 ij.2 l') l swaps, g').

(** [std::shuffle(v.begin() + k, v.end(), g)]; [begin() + k] must not pass
    [end()]. *)
Definition shuffle_from `{RandomEngine R} (k : nat) (l : list A) (g : R)
  : option (list A * R) :=
  if decide (k ≤ length l) then
    let '(tl, g') := shuffle (drop k l) g in Some (take k l ++ tl, g')
  else None.

End Algorithms.

(** [std::minstd_rand0], the [std::default_random_engine] of libstdc++:
    the linear congruential engine [x <- 16807 * x mod (2^31 - 1)]. *)
Module minstd_rand0.
Definition multiplier : Z := 16807.
Definition modulus : Z := 2147483647.
Definition default_seed : Z := 1.

Record t := Engine { state : Z }.

Definition seed (s : Z) : t :=
  let x := (s mod modulus)%Z in
  Engine (if (x =? 0)%Z then 1%Z else x).

(** [operator()] *)
Definition next (g : t) : Z * t :=
  let x := ((multiplier * state g) mod modulus)%Z in (x, Engine x).

Definition min : Z := 1.
Definition max : Z := (modulus - 1)%Z.
End minstd_rand0.

(** [std::default_random_engine{}()]: the first output of a
    default-constructed engine. *)
Definition default_random_engine_first_output : Z :=
  (minstd_rand0.next (minstd_rand0.seed minstd_rand0.default_seed)).1.

(** [size_t] arithmetic wraps modulo [2^64]. *)
Definition size_t_wrap (z : Z) : Z := (z mod 2 ^ 64)%Z.

End Std.

(* ================================================================== *)
(** * Calls observed during [select] *)
(* ================================================================== *)

(** [Crossover ia ib out n]: a call
    [Genom::crossover_inplace(genoms[ia], genoms[ib], &next_generation[out], n)].
    [Mutate slot n]: a call [next_generation[slot].mutate(n, rng)]. *)
Inductive event :=
  | Crossover (ia ib out n : nat)
  | Mutate (slot n : nat).

(** A computation that records the calls it makes; [result] is [None] when
    it ran into undefined behaviour, and [trace] holds the calls made up to
    then. *)
Record run (A : Type) := Run { trace : list event; result : option A }.
Arguments Run {A} _ _.
Arguments trace {A} _.
Arguments result {A} _.

Global Instance run_ret : MRet run := λ A a, Run [] (Some a).
Global Instance run_bind : MBind run := λ A B k m,
  match result m with
  | None => Run (trace m) None
  | Some a => let r := k a in Run (trace m ++ trace r) (result r)
  end.

Definition emit (e : event) : run unit := Run [e] (Some tt).
Definition lift {A} (o : option A) : run A := Run [] o.

(** [for_each] for bodies that record calls. *)
Fixpoint run_each {St : Type} (body : nat → St → run St) (ixs : list nat) (s : St)
  : run St :=
  match ixs with
  | [] => mret s
  | i :: ixs' => s' ← body i s; run_each body ixs' s'
  end.

(* ================================================================== *)
(** * GenePool *)
(* ================================================================== *)

Module GenePool.
Section GenePool.
Context {N S R : Type} `{!Nucl N} `{!Scorer S} `{!RandomEngine R}.

Local Abbreviation Genom := (Genom.t N S).

Record t := Make {
  n_genoms : nat;
  take : nat;
  retain : nat;
  genoms : list Genom;
  rng : R;
  distr : uniform_int_distribution;
  generation : Z;
  shuffle_indices : list nat;
  next_generation : list Genom;
}.

(** [take(genoms_count * take_value)]: the product is a [float]. *)
Definition take_of (genoms_count : nat) (take_value : spec_float) : option nat :=
  Float.to_size
    (SFmul Float.prec32 Float.emax32
       (Float.of_Z Float.prec32 Float.emax32 (Z.of_nat genoms_count)) take_value).

(** [retain(genoms_count * (0.5 - take_value))]: computed in [double]. *)
Definition retain_of (genoms_count : nat) (take_value : spec_float) : option nat :=
  Float.to_size
    (SFmul Float.prec64 Float.emax64
       (Float.of_Z Float.prec64 Float.emax64 (Z.of_nat genoms_count))
       (SFsub Float.prec64 Float.emax64 Float.half64 (Float.to_double take_value))).

(** The first loop of the constructor. *)
Fixpoint push_genoms (n genom_len : nat) (gs : list Genom) (g : R) : list Genom * R :=
  match n with
  | 0 => (gs, g)
  | Datatypes.S k =>
      let '(x, g') := Genom.random genom_len g in
      push_genoms k genom_len (gs ++ [x]) g'
  end.

(** [GenePool(genoms_count, genom_len, take_value)] (ga.h:208-222); the
    members are initialised in the order of their declaration. *)
Definition new (genoms_count genom_len : nat) (take_value : spec_float) : option t :=
  tk ← take_of genoms_count take_value;
  rt ← retain_of genoms_count take_value;
  let '(gs, g) :=
    push_genoms genoms_count genom_len []
      (rng_seed Std.default_random_engine_first_output) in
  Some {| n_genoms := genoms_count; take := tk; retain := rt;
          genoms := gs; rng := g;
          distr := Distribution 0 genom_len;
          generation := 0;
          shuffle_indices := seq 0 genoms_count;
          next_generation := [] |}.

(** [simulate] (ga.h:224-233); [simulator g] is the Genom that
    [simulator.simulate(genom)] leaves in place of [g]. *)
Definition simulate (simulator : Genom → Genom) (p : t) : t :=
  {| n_genoms := n_genoms p; take := take p; retain := retain p;
     genoms := Std.sort_reversed Genom.lt (simulator <$> genoms p);
     rng := rng p; distr := distr p;
     generation := Std.size_t_wrap (generation p + 1);
     shuffle_indices := shuffle_indices p;
     next_generation := next_generation p |}.

(** [shift] (ga.h:235-239) *)
Definition shift (n : nat) (p : t) : option t :=
  gs ← mapM (Genom.shift n) (genoms p);
  Some {| n_genoms := n_genoms p; take := take p; retain := retain p;
          genoms := gs;
          rng := rng p; distr := distr p; generation := generation p;
          shuffle_indices := shuffle_indices p;
          next_generation := next_generation p |}.

(** [reset] (ga.h:241-244) *)
Definition reset (p : t) : t :=
  {| n_genoms := n_genoms p; take := take p; retain := retain p;
     genoms := genoms p; rng := rng p; distr := distr p;
     generation := 0;
     shuffle_indices := shuffle_indices p;
     next_generation := next_generation p |}.

(** The loop [shuffle_indices[i + half] = shuffle_indices[i]]. *)
Definition copy_slot (half i : nat) (idx : list nat) : option (list nat) :=
  x ← idx !! i;
  if decide (i + half < length idx) then Some (<[i + half := x]> idx) else None.

(** The first three statements of [select] (ga.h:248-251): the index
    array once its second half is a copy of its first. *)
Definition mating_pool (p : t) : option (list nat * R) :=
  '(idx, g) ← Std.shuffle_from (take p) (shuffle_indices p) (rng p);
  let half := n_genoms p / 2 in
  idx' ← for_each (copy_slot half) (seq 0 half) idx;
  Some (idx', g).

(** One iteration of a crossover loop of [select] (ga.h:256-260 and
    266-270); [off] is [0] in the first loop and [half] in the second. *)
Definition crossover_step (gs : list Genom) (idx : list nat) (half off : nat)
    (d : uniform_int_distribution) (i : nat) (st : list Genom * R)
  : run (list Genom * R) :=
  let '(next, g) := st in
  ia ← lift (idx !! i);
  ib ← lift (idx !! (i + half));
  a ← lift (gs !! ia);
  b ← lift (gs !! ib);
  c ← lift (next !! (i + off));
  let '(n, g') := draw d g in
  _ ← emit (Crossover ia ib (i + off) n);
  c' ← lift (Genom.crossover_inplace a b c n);
  mret (<[i + off := c']> next, g').

Definition crossover_round (gs : list Genom) (idx : list nat) (half off : nat)
    (d : uniform_int_distribution) (st : list Genom * R) : run (list Genom * R) :=
  run_each (crossover_step gs idx half off d) (seq 0 half) st.

(** [for (auto& genom : next_generation) genom.mutate(distr(rng), rng);] *)
Fixpoint mutate_each (d : uniform_int_distribution) (slot : nat)
    (next : list Genom) (g : R) : run (list Genom * R) :=
  match next with
  | [] => mret ([], g)
  | c :: rest =>
      let '(n, g1) := draw d g in
      _ ← emit (Mutate slot n);
      '(c', g2) ← lift (Genom.mutate n g1 c);
      '(rest', g3) ← mutate_each d (Datatypes.S slot) rest g2;
      mret (c' :: rest', g3)
  end.

(** [select] (ga.h:246-278), with the calls it makes. *)
Definition select_run (p : t) : run t :=
  '(idx, g) ← lift (mating_pool p);
  let half := n_genoms p / 2 in
  let next := resize (n_genoms p) Genom.default (next_generation p) in
  '(idx, g) ← lift (Std.shuffle_from half idx g);
  '(next, g) ← crossover_round (genoms p) idx half 0 (distr p) (next, g);
  '(idx, g) ← lift (Std.shuffle_from half idx g);
  '(next, g) ← crossover_round (genoms p) idx half half (distr p) (next, g);
  '(next, g) ← mutate_each (distr p) 0 next g;
  mret {| n_genoms := n_genoms p; take := take p; retain := retain p;
          genoms := next;
          rng := g; distr := distr p; generation := generation p;
          shuffle_indices := idx;
          next_generation := genoms p |}.

Definition select (p : t) : option t := result (select_run p).

Definition generations (p : t) : Z := generation p.

(** [genoms[0]] *)
Definition best (p : t) : option Genom := genoms p !! 0.

End GenePool.
Arguments t : clear implicits.
End GenePool.

(* ================================================================== *)
(** * libstdc++: [uniform_int_distribution] and [shuffle] *)
(* ================================================================== *)

Module Libstdcxx.
Section Urbg.

(** A uniform random bit generator [G]: [G::min()], [G::max()] and
    [g()]. *)
Context {G : Type} (urng_min urng_max : Z) (urng : G → Z * G).

Local Open Scope Z_scope.

(** [__uctype] is [unsigned long]: its arithmetic is modulo [2^64]. *)
Definition uctype (z : Z) : Z := z mod 2 ^ 64.

Definition urngrange : Z := urng_max - urng_min.

(** A [do ... while] loop: [body g] is [inl] when the loop ends with a
    result and [inr] when it goes round again; at most [fuel] rounds. *)
Fixpoint do_while {X : Type} (fuel : positive) (body : G → X * G + G) (g : G)
  : X * G + G :=
  match fuel with
  | xH => body g
  | xO p =>
      match do_while p body g with
      | inl r => inl r
      | inr g' => do_while p body g'
      end
  | xI p =>
      match body g with
      | inl r => inl r
      | inr g' =>
          match do_while p body g' with
          | inl r => inl r
          | inr g'' => do_while p body g''
          end
      end
  end.

(** The rejection loops of the library have no bound of their own; here
    a loop is run for at most [2^62] rounds, after which the result is 0.
    A round ends the loop with a probability of more than a half, and
    with [minstd_rand0], whose outputs run through all of [1 .. 2^31 - 2],
    the loop of the first branch ends within one period of the engine. *)
Definition rounds : positive := 2 ^ 62.

(** [__uctype(__urng()) - __urngmin] *)
Definition raw (g : G) : Z * G :=
  let '(x, g') := urng g in (uctype (x - urng_min), g').

(** The branch [__urngrange > __urange]:
    [do __ret = __uctype(__urng()) - __urngmin; while (__ret >= __past);
     __ret /= __scaling;] *)
Definition downscale (urange : Z) (g : G) : Z * G :=
  let uerange := urange + 1 in
  let scaling := urngrange / uerange in
  let past := uerange * scaling in
  match do_while rounds
          (λ g, let '(ret, g') := raw g in
                if ret <? past then inl (ret, g') else inr g') g with
  | inl (ret, g') => (ret / scaling, g')
  | inr g' => (0, g')
  end.

(** [__ret] of [uniform_int_distribution::operator()] for the range
    [[0, urange]].  The branch [__urngrange < __urange] calls itself with
    the range [urange / (urngrange + 1)]; [depth] bounds these calls.  In
    the last branch the output of an engine is not above [max()]. *)
Fixpoint generate (depth : nat) (urange : Z) (g : G) : Z * G :=
  if urange <? urngrange then downscale urange g
  else if urngrange <? urange then
    match depth with
    | O => (0, g)
    | S d =>
        let uerngrange := urngrange + 1 in
        match do_while rounds
                (λ g, let '(high, g1) := generate d (urange / uerngrange) g in
                      let tmp := uctype (uerngrange * high) in
                      let '(low, g2) := raw g1 in
                      let ret := uctype (tmp + low) in
                      if (urange <? ret) || (ret <? tmp) then inr g2
                      else inl (ret, g2)) g with
        | inl r => r
        | inr g' => (0, g')
        end
    end
  else
    let '(ret, g') := raw g in ((if ret <=? urange then ret else 0), g').

(** [uniform_int_distribution<T>{a, b}(g)]: [return __ret + __param.a()] *)
Definition uniform_int (a b : Z) (g : G) : Z * G :=
  let '(ret, g') := generate 64 (b - a) g in (ret + a, g').

(** [__gen_two_uniform_ints(__b0, __b1, __g)] *)
Definition gen_two_uniform_ints (b0 b1 : Z) (g : G) : Z * Z * G :=
  let '(x, g') := uniform_int 0 (b0 * b1 - 1) g in (x / b1, x mod b1, g').

(** The loop of [std::shuffle] that draws the positions for two
    successive elements [i], [i + 1] at a time; [k] pairs are left. *)
Fixpoint swap_pairs (k i : nat) (g : G) : list (nat * nat) * G :=
  match k with
  | O => ([], g)
  | S k' =>
      let swap_range := Z.of_nat i + 1 in
      let '(p1, p2, g1) := gen_two_uniform_ints swap_range (swap_range + 1) g in
      let '(sw, g2) := swap_pairs k' (i + 2)%nat g1 in
      ((i, Z.to_nat p1) :: (i + 1, Z.to_nat p2)%nat :: sw, g2)
  end.

(** The loop of [std::shuffle] for a range too long for pairs:
    [iter_swap(i, first + d(g, {0, i - first}))]. *)
Fixpoint swap_singles (k i : nat) (g : G) : list (nat * nat) * G :=
  match k with
  | O => ([], g)
  | S k' =>
      let '(j, g1) := uniform_int 0 (Z.of_nat i) g in
      let '(sw, g2) := swap_singles k' (i + 1)%nat g1 in
      ((i, Z.to_nat j) :: sw, g2)
  end.

(** [std::shuffle(first, last, g)] on [n = last - first] elements. *)
Definition shuffle_swaps (n : nat) (g : G) : list (nat * nat) * G :=
  match n with
  | O => ([], g)
  | _ =>
      let urange := Z.of_nat n in
      if urange <=? urngrange / urange then
        if Z.even urange then
          let '(j, g1) := uniform_int 0 1 g in
          let '(sw, g2) := swap_pairs ((n - 2) / 2) 2 g1 in
          ((1%nat, Z.to_nat j) :: sw, g2)
        else swap_pairs ((n - 1) / 2) 1 g
      else swap_singles (n - 1) 1 g
  end.

End Urbg.
End Libstdcxx.

(* ================================================================== *)
(** * The instances of tests/max_integer.cpp *)
(* ================================================================== *)

(** [std::default_random_engine] with the distribution and the shuffle of
    libstdc++. *)
Global Instance minstd_engine : RandomEngine Std.minstd_rand0.t.
Proof.
  refine {| rng_seed := Std.minstd_rand0.seed;
            uniform_int :=
              Libstdcxx.uniform_int Std.minstd_rand0.min Std.minstd_rand0.max
                Std.minstd_rand0.next;
            uniform_int_range := _;
            shuffle_swaps :=
              Libstdcxx.shuffle_swaps Std.minstd_rand0.min Std.minstd_rand0.max
                Std.minstd_rand0.next |}.
  (* a loop ends with a result its body gave *)
  assert (∀ (X : Type) (P : X → Prop) (body : Std.minstd_rand0.t → X * Std.minstd_rand0.t + Std.minstd_rand0.t),
            (∀ g r g', body g = inl (r, g') → P r) →
            ∀ fuel g r g', Libstdcxx.do_while fuel body g = inl (r, g') → P r) as Hloop.
  { intros X P body Hbody.
    induction fuel as [p IH|p IH|]; intros g r g' Hrun; simpl in Hrun.
    - destruct (body g) as [[r1 g1]|g1] eqn:E1; [simplify_eq; by eapply Hbody|].
      destruct (Libstdcxx.do_while p body g1) as [[r2 g2]|g2] eqn:E2;
        [simplify_eq; by eapply IH|by eapply IH].
    - destruct (Libstdcxx.do_while p body g) as [[r2 g2]|g2] eqn:E2;
        [simplify_eq; by eapply IH|by eapply IH].
    - by eapply Hbody. }
  assert (∀ z, (0 ≤ Libstdcxx.uctype z)%Z) as Hwrap.
  { intros z. unfold Libstdcxx.uctype. apply Z.mod_pos_bound. lia. }
  set (lo := Std.minstd_rand0.min). set (hi := Std.minstd_rand0.max).
  assert (∀ urange g, (0 ≤ urange < Libstdcxx.urngrange lo hi)%Z →
            (0 ≤ (Libstdcxx.downscale lo hi Std.minstd_rand0.next urange g).1 ≤ urange)%Z)
    as Hdown.
  { intros urange g Hur. unfold Libstdcxx.downscale.
    set (scaling := (Libstdcxx.urngrange lo hi / (urange + 1))%Z).
    assert (0 < scaling)%Z as Hsc by (apply Z.div_str_pos; lia).
    match goal with |- context [Libstdcxx.do_while ?f ?b ?g0] =>
      pose proof (Hloop Z (λ ret, 0 ≤ ret < (urange + 1) * scaling)%Z b) as Hdw;
      destruct (Libstdcxx.do_while f b g0) as [[ret g1]|g1] eqn:Erun
    end; [|cbn; lia].
    assert (0 ≤ ret < (urange + 1) * scaling)%Z as Hret.
    { eapply Hdw; [|exact Erun]. intros g2 r g3 Hb.
      unfold Libstdcxx.raw in Hb. destruct (Std.minstd_rand0.next g2) as [x g4].
      destruct (Libstdcxx.uctype (x - lo) <? _)%Z eqn:Eacc; [|done].
      apply Z.ltb_lt in Eacc. simplify_eq. split; [apply Hwrap|done]. }
    cbn [fst]. split; [apply Z.div_pos; lia|].
    assert (ret / scaling < urange + 1)%Z by (apply Z.div_lt_upper_bound; lia).
    lia. }
  assert (∀ depth urange g, (0 ≤ urange)%Z →
            (0 ≤ (Libstdcxx.generate lo hi Std.minstd_rand0.next depth urange g).1 ≤ urange)%Z)
    as Hgen.
  { induction depth as [|depth IH]; intros urange g Hur; cbn [Libstdcxx.generate].
    - destruct (urange <? Libstdcxx.urngrange lo hi)%Z eqn:Elt.
      { apply Z.ltb_lt in Elt. apply Hdown. lia. }
      destruct (Libstdcxx.urngrange lo hi <? urange)%Z eqn:Egt; [cbn; lia|].
      unfold Libstdcxx.raw. destruct (Std.minstd_rand0.next g) as [x g1]. cbn [fst].
      destruct (Libstdcxx.uctype (x - lo) <=? urange)%Z eqn:Ele; [|lia].
      apply Z.leb_le in Ele. split; [apply Hwrap|done].
    - destruct (urange <? Libstdcxx.urngrange lo hi)%Z eqn:Elt.
      { apply Z.ltb_lt in Elt. apply Hdown. lia. }
      destruct (Libstdcxx.urngrange lo hi <? urange)%Z eqn:Egt.
      + match goal with |- context [Libstdcxx.do_while ?f ?b ?g0] =>
          pose proof (Hloop Z (λ ret, 0 ≤ ret ≤ urange)%Z b) as Hdw;
          destruct (Libstdcxx.do_while f b g0) as [[ret g1]|g1] eqn:Erun
        end; [|cbn; lia].
        cbn [fst]. eapply Hdw; [|exact Erun]. intros g2 r g3 Hb.
        destruct (Libstdcxx.generate _ _ _ depth _ g2) as [high g4].
        unfold Libstdcxx.raw in Hb. destruct (Std.minstd_rand0.next g4) as [x g5].
        destruct (_ || _) eqn:Erej; [done|]. simplify_eq.
        apply orb_false_iff in Erej as [Hle _]. apply Z.ltb_ge in Hle.
        split; [apply Hwrap|done].
      + unfold Libstdcxx.raw. destruct (Std.minstd_rand0.next g) as [x g1]. cbn [fst].
        destruct (Libstdcxx.uctype (x - lo) <=? urange)%Z eqn:Ele; [|lia].
        apply Z.leb_le in Ele. split; [apply Hwrap|done]. }
  intros a b g Hab. unfold Libstdcxx.uniform_int.
  pose proof (Hgen 64 (b - a)%Z g ltac:(lia)) as Hr.
  destruct (Libstdcxx.generate lo hi Std.minstd_rand0.next 64 (b - a) g) as [ret g'].
  cbn [fst] in *. lia.
Defined.

Module IntNucl.

Record t := Make { value_ : Z }.

(** [int32_t] arithmetic, two's complement. *)
Definition wrap32 (z : Z) : Z := ((z + 2 ^ 31) mod 2 ^ 32 - 2 ^ 31)%Z.

(** [std::uniform_int_distribution<int32_t> dist(-5, 5)] *)
Definition dist `{RandomEngine R} (g : R) : Z * R := uniform_int (-5) 5 g.

Definition default : t := Make 0.

Definition random `{RandomEngine R} (g : R) : t * R :=
  let '(v, g') := dist g in (Make v, g').

Definition mutate `{RandomEngine R} (x : t) (g : R) : t * R :=
  let '(v, g') := dist g in (Make (wrap32 (value_ x + v)), g').

(** [c->value_ = (a.value_ + b.value_)/2]; the slot's old value is not read. *)
Definition crossover_inplace (a b c : t) : t :=
  Make (wrap32 (value_ a + value_ b) ÷ 2).

Definition value (x : t) : Z := value_ x.

End IntNucl.

Global Instance IntNucl_nucl : Nucl IntNucl.t := {|
  nucl_default := IntNucl.default;
  nucl_random := @IntNucl.random;
  nucl_crossover_inplace := IntNucl.crossover_inplace;
  nucl_mutate := @IntNucl.mutate;
|}.

Module TestScorer.

Record t := Make { score : spec_float }.

(** [Scorer() : score(0) {}] *)
Definition default : t := Make (S754_zero false).

End TestScorer.

Global Instance TestScorer_scorer : Scorer TestScorer.t := {|
  scorer_default := TestScorer.default;
  score_of := TestScorer.score;
|}.

Module Simulator.

Record t := Make { integers_ : list Z; max_ : Z }.

(** The constructor: [max_ = *std::max_element(...)]; an empty vector has
    no element to dereference. *)
Definition new (integers : list Z) : option t :=
  match integers with
  | [] => None
  | x :: xs => Some (Make integers (foldl Z.max x xs))
  end.

Definition get_value (genom : Genom.t IntNucl.t TestScorer.t) : Z :=
  foldl (λ sum nucl, IntNucl.wrap32 (sum + IntNucl.value nucl)) 0%Z
        (Genom.get_nucleotides genom).

(** The literals [10.0f] and [1.0f]. *)
Definition ten : spec_float := S754_finite false 10485760 (-20).
Definition one : spec_float := S754_finite false 8388608 (-23).

(** [std::abs] on [int], an [int] as the other operations on [int]: of
    [INT_MIN] it is [INT_MIN]. *)
Definition int_abs (z : Z) : Z := IntNucl.wrap32 (Z.abs z).

(** [1.0f / std::abs(m - max_)]: the [int] is converted to [float]. *)
Definition simulate (sim : t) (genom : Genom.t IntNucl.t TestScorer.t)
  : Genom.t IntNucl.t TestScorer.t :=
  let m := get_value genom in
  Genom.set_scorer
    (if (m =? max_ sim)%Z then TestScorer.Make ten
     else TestScorer.Make
            (SFdiv Float.prec32 Float.emax32 one
               (Float.of_Z Float.prec32 Float.emax32
                  (int_abs (IntNucl.wrap32 (m - max_ sim))))))
    genom.

End Simulator.

(** [GenePool<IntNucl, Scorer, std::default_random_engine>] *)
Abbreviation TestPool := (GenePool.t IntNucl.t TestScorer.t Std.minstd_rand0.t).

(** The elite fractions used below: [0.3f], [0.25f] and [0.5f]. *)
Definition f0_3 : spec_float := S754_finite false 10066330 (-25).
Definition f0_25 : spec_float := S754_finite false 8388608 (-25).
Definition f0_5 : spec_float := S754_finite false 8388608 (-24).

(** The loop of [TEST(GetMaxInteger, BasicTest)], without its printing:
    [pool.select(); pool.simulate(sim);
     if (pool.best().get_scorer().score == 10.0f) break;] *)
Module MaxIntegerTest.
Section Loop.
Context `{RandomEngine R}.

Local Abbreviation Pool := (GenePool.t IntNucl.t TestScorer.t R).

(** [pool.best().get_scorer().score == 10.0f] *)
Definition found (pool : Pool) : option bool :=
  b ← GenePool.best pool;
  Some (SFeqb (TestScorer.score (Genom.get_scorer b)) Simulator.ten).

(** The [for] loop with [n] iterations left. *)
Fixpoint loop (sim : Simulator.t) (n : nat) (pool : Pool) : option Pool :=
  match n with
  | 0 => Some pool
  | Datatypes.S k =>
      pool1 ← GenePool.select pool;
      let pool2 := GenePool.simulate (Simulator.simulate sim) pool1 in
      stop ← found pool2;
      if stop : bool then Some pool2 else loop sim k pool2
  end.

End Loop.
End MaxIntegerTest.

(* ================================================================== *)
(** * The vocabulary of the properties *)
(* ================================================================== *)

(** Ascending for [lt]: no element is smaller than its predecessor. *)
Inductive ascending {A} (lt : A → A → bool) : list A → Prop :=
  | ascending_nil : ascending lt []
  | ascending_one x : ascending lt [x]
  | ascending_cons x y l :
      lt y x = false → ascending lt (y :: l) → ascending lt (x :: y :: l).

(** The first and the second parents of the crossover calls of a trace. *)
Definition first_parents (tr : list event) : list nat :=
  omap (λ e, match e with Crossover ia _ _ _ => Some ia | Mutate _ _ => None end) tr.
Definition second_parents (tr : list event) : list nat :=
  omap (λ e, match e with Crossover _ ib _ _ => Some ib | Mutate _ _ => None end) tr.

(** The number of distinct values of an index array. *)
Definition distinct_count (idx : list nat) : nat := length (remove_dups idx).

Section Vocabulary.
Context {N S R : Type} `{!Nucl N} `{!Scorer S} `{!RandomEngine R}.

Local Abbreviation Genom := (Genom.t N S).
Local Abbreviation GenePool := (GenePool.t N S R).

(** Descending order of score: [score(gs[i]) >= score(gs[i+1])] for all
    adjacent positions. *)
Definition sorted_descending (gs : list Genom) : Prop :=
  ∀ i x y, gs !! i = Some x → gs !! Datatypes.S i = Some y →
    Float.ge (Genom.score x) (Genom.score y) = true.

(** [reachable k p]: the pool [p] results from the constructor followed by
    calls of [simulate], [shift], [reset] and [select], none of which ran
    into undefined behaviour, [k] of them calls of [select].  A simulator
    assigns scores; it does not change the length of a Genom. *)
Inductive reachable : nat → GenePool → Prop :=
  | reach_new n len f p :
      GenePool.new n len f = Some p → reachable 0 p
  | reach_simulate k simulator p :
      reachable k p →
      (∀ g, Genom.size (simulator g) = Genom.size g) →
      reachable k (GenePool.simulate simulator p)
  | reach_shift k n p p' :
      reachable k p → GenePool.shift n p = Some p' → reachable k p'
  | reach_reset k p :
      reachable k p → reachable k (GenePool.reset p)
  | reach_select k p p' :
      reachable k p → GenePool.select p = Some p' → reachable (Datatypes.S k) p'.

(** What holds of the members between calls. *)
Record wf (p : GenePool) : Prop := {
  wf_genoms_length : length (GenePool.genoms p) = GenePool.n_genoms p;
  wf_genoms_size :
    Forall (λ g, Genom.size g = dist_b (GenePool.distr p)) (GenePool.genoms p);
  wf_distr : dist_a (GenePool.distr p) = 0;
  wf_idx_length : length (GenePool.shuffle_indices p) = GenePool.n_genoms p;
  wf_idx_range :
    Forall (λ i, i < GenePool.n_genoms p) (GenePool.shuffle_indices p);
  wf_elite :
    take (GenePool.take p) (GenePool.shuffle_indices p) = seq 0 (GenePool.take p);
}.

(** Two pools that agree on every member but [retain]. *)
Definition agree_but_retain (p1 p2 : GenePool) : Prop :=
  GenePool.n_genoms p1 = GenePool.n_genoms p2
  ∧ GenePool.take p1 = GenePool.take p2
  ∧ GenePool.genoms p1 = GenePool.genoms p2
  ∧ GenePool.rng p1 = GenePool.rng p2
  ∧ GenePool.distr p1 = GenePool.distr p2
  ∧ GenePool.generation p1 = GenePool.generation p2
  ∧ GenePool.shuffle_indices p1 = GenePool.shuffle_indices p2
  ∧ GenePool.next_generation p1 = GenePool.next_generation p2.

(** Two runs with the same calls and results that agree but for [retain]. *)
Definition run_agree (r1 r2 : run GenePool) : Prop :=
  trace r1 = trace r2 ∧ option_Forall2 agree_but_retain (result r1) (result r2).

End Vocabulary.

(* ================================================================== *)
(** * Inputs of the examples *)
(* ================================================================== *)

(** A simulator whose fitness is [0.0f / 0.0f]. *)
Definition nan_simulator (g : Genom.t IntNucl.t TestScorer.t)
  : Genom.t IntNucl.t TestScorer.t :=
  Genom.set_scorer
    (TestScorer.Make
       (SFdiv Float.prec32 Float.emax32 (S754_zero false) (S754_zero false))) g.

(** Three genoms of three nucleotides. *)
Definition genom_a : Genom.t IntNucl.t TestScorer.t :=
  Genom.Make [IntNucl.Make 1; IntNucl.Make 2; IntNucl.Make 3] (TestScorer.Make Simulator.one).
Definition genom_b : Genom.t IntNucl.t TestScorer.t :=
  Genom.Make [IntNucl.Make 5; IntNucl.Make (-4); IntNucl.Make 0] (TestScorer.Make Simulator.ten).
Definition genom_c : Genom.t IntNucl.t TestScorer.t := Genom.default.

(** The elite fraction [0.7f]. *)
Definition f0_7 : spec_float := S754_finite false 11744051 (-24).

(** The simulator of the test, [Simulator sim{{1, 2, 3, 4, 5, 6}}]. *)
Definition test_integers : list Z := [1; 2; 3; 4; 5; 6]%Z.
Definition test_simulator : Simulator.t := Simulator.Make test_integers 6.

(* ================================================================== *)
(** * Genom: crossover, mutation, shift *)
(* ================================================================== *)

Section GenomFacts.
Context {N S : Type} `{!Nucl N} `{!Scorer S}.

Local Abbreviation Genom := (Genom.t N S).

Lemma push_random_length `{RandomEngine R} n (ns : list N) (g : R) :
  length (Genom.push_random n ns g).1 = length ns + n.
Proof.
  revert ns g. induction n as [|n IH]; intros ns g; simpl; [lia|].
  destruct (nucl_random g) as [x g']. rewrite IH, length_app. simpl. lia.
Qed.

Lemma random_size `{RandomEngine R} n (g : R) :
  Genom.size (Genom.random n g).1 = n.
Proof.
  unfold Genom.random, Genom.size.
  pose proof (push_random_length n (Genom.nucleotides Genom.default) g) as Hlen.
  destruct (Genom.push_random n _ g) as [ns g']. simpl in *. lia.
Qed.

Lemma for_each_cons {St} (body : nat → St → option St) i ixs s :
  for_each body (i :: ixs) s = body i s ≫= for_each body ixs.
Proof. done. Qed.

Lemma option_bind_Some {A B} (f : A → option B) (x : A) : Some x ≫= f = f x.
Proof. done. Qed.

Lemma cross_at_Some (a b : list N) i c x y z :
  a !! i = Some x → b !! i = Some y → c !! i = Some z →
  Genom.cross_at a b i c = Some (<[i := nucl_crossover_inplace x y z]> c).
Proof. unfold Genom.cross_at. by intros -> -> ->. Qed.

Lemma cross_at_length (a b : list N) i c c' :
  Genom.cross_at a b i c = Some c' → length c' = length c.
Proof.
  unfold Genom.cross_at. intros Hc.
  destruct (a !! i), (b !! i), (c !! i); simplify_eq/=.
  by rewrite length_insert.
Qed.

(** A crossover loop that ran to its end changed no length. *)
Lemma for_each_cross_at_length (a b : list N) ixs c c' :
  for_each (Genom.cross_at a b) ixs c = Some c' → length c' = length c.
Proof.
  revert c. induction ixs as [|i ixs IH]; intros c Hc; simplify_eq/=; [done|].
  destruct (Genom.cross_at a b i c) as [c1|] eqn:E; simplify_eq/=.
  rewrite (IH _ Hc). by eapply cross_at_length.
Qed.

(** A crossover loop over the positions [s, s + k), all of them inside the
    three vectors: it is defined, writes the combined nucleotide at each
    of these positions and touches no other. *)
Lemma for_each_cross_at (a b : list N) s k c :
  s + k ≤ length a → s + k ≤ length b → s + k ≤ length c →
  ∃ c', for_each (Genom.cross_at a b) (seq s k) c = Some c'
    ∧ length c' = length c
    ∧ (∀ i x y z, s ≤ i < s + k →
         a !! i = Some x → b !! i = Some y → c !! i = Some z →
         c' !! i = Some (nucl_crossover_inplace x y z))
    ∧ (∀ i, ¬ (s ≤ i < s + k) → c' !! i = c !! i).
Proof.
  revert s c. induction k as [|k IH]; intros s c Ha Hb Hc.
  { exists c. split_and!; [done|done|intros; lia|done]. }
  destruct (lookup_lt_is_Some_2 a s) as [x Hx]; [lia|].
  destruct (lookup_lt_is_Some_2 b s) as [y Hy]; [lia|].
  destruct (lookup_lt_is_Some_2 c s) as [z Hz]; [lia|].
  change (seq s (Datatypes.S k)) with (s :: seq (Datatypes.S s) k).
  rewrite for_each_cons, (cross_at_Some a b s c x y z) by done.
  rewrite option_bind_Some.
  set (c1 := <[s := nucl_crossover_inplace x y z]> c).
  assert (length c1 = length c) as Hc1 by apply length_insert.
  destruct (IH (Datatypes.S s) c1) as (c' & Hrun & Hlen & Hin & Hout); [lia..|].
  exists c'. split_and!; [done|lia| |].
  - intros i x' y' z' Hi Hx' Hy' Hz'.
    destruct (decide (i = s)) as [->|Hne].
    + rewrite Hout by lia. simplify_eq. unfold c1.
      apply list_lookup_insert_eq. by eapply lookup_lt_Some.
    + apply Hin; [lia|done|done|].
      unfold c1. by rewrite list_lookup_insert_ne.
  - intros i Hi. rewrite Hout by lia.
    unfold c1. apply list_lookup_insert_ne. lia.
Qed.

Lemma mutate_length `{RandomEngine R} n (g : R) (x : Genom) x' g' :
  Genom.mutate n g x = Some (x', g') → Genom.size x' = Genom.size x.
Proof.
  unfold Genom.mutate, Genom.size. intros Hm.
  destruct (Genom.nucleotides x !! n) as [y|]; simplify_eq/=.
  destruct (nucl_mutate y g). simplify_eq/=. apply length_insert.
Qed.

Lemma mutate_in_range `{RandomEngine R} n (g : R) (x : Genom) :
  n < Genom.size x → is_Some (Genom.mutate n g x).
Proof.
  unfold Genom.mutate, Genom.size. intros Hn.
  destruct (lookup_lt_is_Some_2 _ _ Hn) as [y ->]. simpl.
  by destruct (nucl_mutate y g).
Qed.

Lemma mutate_out_of_range `{RandomEngine R} n (g : R) (x : Genom) :
  Genom.size x ≤ n → Genom.mutate n g x = None.
Proof.
  unfold Genom.mutate, Genom.size. intros Hn.
  by rewrite (lookup_ge_None_2 _ _ Hn).
Qed.

(** A left rotation by [n ≤ length l]. *)
Lemma std_rotate_lookup {A} n (l l' : list A) i :
  Genom.std_rotate n l = Some l' → i < length l →
  l' !! i = l !! ((i + n) mod length l).
Proof.
  unfold Genom.std_rotate. intros Hr Hi. case_decide; simplify_eq.
  destruct (decide (i < length l - n)) as [Hlt|Hge].
  - rewrite lookup_app_l by (rewrite length_drop; lia).
    rewrite lookup_drop. f_equal. rewrite Nat.mod_small; lia.
  - rewrite lookup_app_r by (rewrite length_drop; lia).
    rewrite length_drop, lookup_take_lt by lia. f_equal.
    replace (i + n) with ((i + n - length l) + 1 * length l) by lia.
    rewrite Nat.Div0.mod_add, Nat.mod_small; lia.
Qed.

Lemma rotate_one_more {A} k (l : list A) :
  Datatypes.S k ≤ length l →
  drop k (drop 1 l ++ take 1 l) ++ take k (drop 1 l ++ take 1 l)
  = drop (Datatypes.S k) l ++ take (Datatypes.S k) l.
Proof.
  destruct l as [|a l]; simpl; [lia|]. intros Hk.
  rewrite drop_0, take_0, drop_app_le, take_app_le by lia.
  by rewrite <- app_assoc.
Qed.

Lemma shift_times_one k (x : Genom) :
  k ≤ Genom.size x →
  Genom.shift_times k 1 x
  = Some {| Genom.nucleotides :=
              drop k (Genom.nucleotides x) ++ take k (Genom.nucleotides x);
            Genom.scorer := Genom.scorer x |}.
Proof.
  unfold Genom.size. revert x. induction k as [|k IH]; intros [l s] Hk; simpl in *.
  { by rewrite drop_0, take_0, app_nil_r. }
  unfold Genom.shift, Genom.std_rotate. simpl.
  rewrite decide_True by lia. simpl.
  rewrite IH; simpl.
  - by rewrite rotate_one_more.
  - rewrite length_app, length_drop, length_take. lia.
Qed.

(** With parents of equal length and a point inside them the crossover is
    defined and the child has the parents' length. *)
Lemma crossover_inplace_defined (a b c : Genom) (len n : nat) :
  Genom.size a = len → Genom.size b = len → n ≤ len →
  ∃ out, Genom.crossover_inplace a b c n = Some out ∧ Genom.size out = len.
Proof.
  unfold Genom.size. intros Ha Hb Hn. unfold Genom.crossover_inplace.
  set (c0 := resize _ _ _).
  assert (length c0 = len) as Hc0 by (unfold c0; rewrite length_resize; lia).
  destruct (for_each_cross_at (Genom.nucleotides a) (Genom.nucleotides b) 0 n c0)
    as (c1 & -> & Hc1 & _); [lia..|].
  rewrite option_bind_Some.
  destruct (for_each_cross_at (Genom.nucleotides b) (Genom.nucleotides a)
              n (length (Genom.nucleotides a) - n) c1)
    as (c2 & -> & Hc2 & _); [lia..|].
  rewrite option_bind_Some. eexists. split; [done|]. simpl. lia.
Qed.

(** A crossover that is defined leaves the child with the length of the
    first parent. *)
Lemma crossover_inplace_size (a b c out : Genom) (n : nat) :
  Genom.crossover_inplace a b c n = Some out → Genom.size out = Genom.size a.
Proof.
  unfold Genom.crossover_inplace, Genom.size. intros Hx.
  destruct (for_each _ (seq 0 n) _) as [c1|] eqn:E1; simplify_eq/=.
  destruct (for_each _ (seq n _) c1) as [c2|] eqn:E2; simplify_eq/=.
  rewrite (for_each_cross_at_length _ _ _ _ _ E2).
  rewrite (for_each_cross_at_length _ _ _ _ _ E1).
  by rewrite length_resize.
Qed.

(** C5. Length invariant, [L] being the configured length: [random L]
    makes a Genom of [L] nucleotides; every Genom that [crossover_inplace]
    produces from parents of length [L] has [L] nucleotides, and it
    produces one for every crossover point in [[0, L]]; every Genom that
    [mutate] leaves has the length it had, and [mutate] is defined for
    every index below [L]. *)
Theorem genom_length_invariant `{RandomEngine R} (L : nat) (g : R)
    (a b c x : Genom) (n m : nat) :
  Genom.size a = L → Genom.size b = L → Genom.size x = L →
  Genom.size (Genom.random L g).1 = L
  ∧ (∀ out, Genom.crossover_inplace a b c n = Some out → Genom.size out = L)
  ∧ (n ≤ L → is_Some (Genom.crossover_inplace a b c n))
  ∧ (∀ x' g', Genom.mutate m g x = Some (x', g') → Genom.size x' = L)
  ∧ (m < L → is_Some (Genom.mutate m g x)).
Proof.
  intros Ha Hb Hx. split_and!.
  - apply random_size.
  - intros out Hout. rewrite <- Ha. by eapply crossover_inplace_size.
  - intros Hn. destruct (crossover_inplace_defined a b c L n) as (out & -> & _); done.
  - intros x' g' Hmut. rewrite <- Hx. by eapply mutate_length.
  - intros Hm. apply mutate_in_range. lia.
Qed.

(** C6. Single-point crossover: for parents [a], [b] of equal length [len]
    and a point [n ≤ len], [crossover_inplace a b out n] is defined, leaves
    [out] with [len] nucleotides, and writes at every [i < n] the
    nucleotide-level crossover of [(a[i], b[i])] into [out[i]] and at every
    [n ≤ i < len] that of [(b[i], a[i])], the arguments swapped. *)
Theorem crossover_inplace_spec (a b out : Genom) (len n : nat) :
  Genom.size a = len → Genom.size b = len → n ≤ len →
  ∃ out',
    Genom.crossover_inplace a b out n = Some out'
    ∧ Genom.size out' = len
    ∧ ∀ i x y z,
        Genom.nucleotides a !! i = Some x →
        Genom.nucleotides b !! i = Some y →
        resize len nucl_default (Genom.nucleotides out) !! i = Some z →
        Genom.nucleotides out' !! i
        = Some (if decide (i < n) then nucl_crossover_inplace x y z
                else nucl_crossover_inplace y x z).
Proof.
  unfold Genom.size. intros Ha Hb Hn.
  unfold Genom.crossover_inplace. rewrite Ha.
  set (c0 := resize _ _ _).
  assert (length c0 = len) as Hc0 by (unfold c0; by rewrite length_resize).
  destruct (for_each_cross_at (Genom.nucleotides a) (Genom.nucleotides b) 0 n c0)
    as (c1 & -> & Hc1 & Hin1 & Hout1); [lia..|].
  rewrite option_bind_Some.
  destruct (for_each_cross_at (Genom.nucleotides b) (Genom.nucleotides a)
              n (len - n) c1)
    as (c2 & -> & Hc2 & Hin2 & Hout2); [lia..|].
  rewrite option_bind_Some. eexists. split; [done|]. simpl. split; [lia|].
  intros i x y z Hx Hy Hz.
  assert (i < len) as Hi by (rewrite <- Ha; by eapply lookup_lt_Some).
  case_decide.
  - rewrite Hout2 by lia. apply Hin1; [lia|done..].
  - apply Hin2; [lia|done|done|]. rewrite Hout1 by lia. done.
Qed.

(** C7. Crossover boundary: for parents of equal length [len], the point
    [0] with parents [(a, b)] and the point [len] with parents [(b, a)]
    produce the same [out]. *)
Theorem crossover_inplace_boundary (a b out : Genom) (len : nat) :
  Genom.size a = len → Genom.size b = len →
  ∃ out',
    Genom.crossover_inplace a b out 0 = Some out'
    ∧ Genom.crossover_inplace b a out len = Some out'.
Proof.
  unfold Genom.size. intros Ha Hb.
  unfold Genom.crossover_inplace. rewrite Ha, Hb, Nat.sub_0_r, Nat.sub_diag.
  set (c0 := resize _ _ _).
  assert (length c0 = len) as Hc0 by (unfold c0; by rewrite length_resize).
  destruct (for_each_cross_at (Genom.nucleotides b) (Genom.nucleotides a) 0 len c0)
    as (c1 & Hrun & _); [lia..|].
  exists {| Genom.nucleotides := c1; Genom.scorer := Genom.scorer out |}.
  simpl. rewrite Hrun. done.
Qed.

(** C8. Shift: on a Genom of length [len ≥ 1], [shift(1)] applied [len]
    times gives back the Genom; and a [shift(n)] with [n ≤ len] is a left
    rotation, position [i] receiving what was at [(i + n) mod len], which
    leaves the scorer as it was. *)
Theorem shift_rotation (x : Genom) (len n : nat) :
  Genom.size x = len → 1 ≤ len → n ≤ len →
  Genom.shift_times len 1 x = Some x
  ∧ ∃ x',
      Genom.shift n x = Some x'
      ∧ Genom.scorer x' = Genom.scorer x
      ∧ Genom.size x' = len
      ∧ ∀ i, i < len →
          Genom.nucleotides x' !! i = Genom.nucleotides x !! ((i + n) mod len).
Proof.
  intros Hlen Hpos Hn. split.
  - rewrite shift_times_one by lia. destruct x as [l s]. unfold Genom.size in *.
    simpl in *. subst len. by rewrite drop_all, take_ge by lia.
  - unfold Genom.shift, Genom.size in *.
    destruct (Genom.std_rotate n (Genom.nucleotides x)) as [l'|] eqn:Hrot.
    + eexists. split; [done|]. simpl. split_and!; [done| |].
      * unfold Genom.std_rotate in Hrot. case_decide; simplify_eq.
        rewrite length_app, length_drop, length_take. lia.
      * intros i Hi. rewrite <- Hlen. apply std_rotate_lookup; [done|lia].
    + unfold Genom.std_rotate in Hrot. case_decide; [done|lia].
Qed.

End GenomFacts.

(* ================================================================== *)
(** * Floating-point comparison *)
(* ================================================================== *)

Section FloatFacts.

Lemma SFcompare_antisym x y : SFcompare y x = CompOpp <$> SFcompare x y.
Proof.
  destruct x as [sx|sx| |sx mx ex], y as [sy|sy| |sy my ey]; simpl;
    try destruct sx; try destruct sy; simpl; try reflexivity.
  all: rewrite (Z.compare_antisym ex ey); destruct (ex ?= ey)%Z; simpl; try reflexivity.
  all: by rewrite !Pos.compare_cont_antisym.
Qed.

Lemma float_lt_asym x y : Float.lt x y = true → Float.lt y x = false.
Proof.
  unfold Float.lt, SFltb. rewrite (SFcompare_antisym x y).
  destruct (SFcompare x y) as [[]|]; simpl; congruence.
Qed.

(** Away from NaN, [!(x < y)] is [x >= y]. *)
Lemma float_not_lt_ge x y :
  Float.is_nan x = false → Float.is_nan y = false →
  Float.lt x y = false → Float.ge x y = true.
Proof.
  unfold Float.lt, Float.ge, SFltb, SFleb. rewrite (SFcompare_antisym x y).
  intros Hx Hy.
  destruct (SFcompare x y) as [[]|] eqn:E; simpl; try congruence.
  destruct x, y; simpl in *; congruence.
Qed.

Lemma float_ge_refl x : Float.is_nan x = false → Float.ge x x = true.
Proof.
  unfold Float.ge, SFleb. destruct x as [s|s| |s m e]; simpl; try destruct s; try done.
  all: rewrite Z.compare_refl; change (Pos.compare_cont Eq m m) with (m ?= m)%positive;
    by rewrite Pos.compare_refl.
Qed.

Lemma SFleb_trans x y z : SFleb x y = true → SFleb y z = true → SFleb x z = true.
Proof.
  unfold SFleb.
  destruct x as [sx|sx| |sx mx ex], y as [sy|sy| |sy my ey], z as [sz|sz| |sz mz ez];
    simpl; try destruct sx; try destruct sy; try destruct sz; simpl; try done.
  all: change (Pos.compare_cont Eq ?a ?b) with (a ?= b)%positive.
  all: destruct (Z.compare_spec ex ey), (Z.compare_spec ey ez), (Z.compare_spec ex ez);
    simpl; try done; try lia.
  all: destruct (Pos.compare_spec mx my), (Pos.compare_spec my mz), (Pos.compare_spec mx mz);
    simpl; try done; try lia.
Qed.

Lemma float_ge_trans x y z :
  Float.ge x y = true → Float.ge y z = true → Float.ge x z = true.
Proof. unfold Float.ge. eauto using SFleb_trans. Qed.

(** A comparison with NaN is false. *)
Lemma float_ge_nan_l x y : Float.is_nan x = true → Float.ge x y = false.
Proof. destruct x, y; simpl; try done; intros _; by destruct s. Qed.

End FloatFacts.

(* ================================================================== *)
(** * Sorting and shuffling *)
(* ================================================================== *)

Section SortFacts.
Context {A : Type} (lt : A → A → bool).
Hypothesis lt_asym : ∀ x y, lt x y = true → lt y x = false.

Lemma insert_sorted_perm x l : Std.insert_sorted lt x l ≡ₚ x :: l.
Proof.
  induction l as [|y l IH]; simpl; [done|].
  destruct (lt x y); [done|]. rewrite IH. apply Permutation_swap.
Qed.

Lemma sort_perm l : Std.sort lt l ≡ₚ l.
Proof.
  unfold Std.sort. induction l as [|x l IH]; simpl; [done|].
  by rewrite insert_sorted_perm, IH.
Qed.

Lemma sort_reversed_perm l : Std.sort_reversed lt l ≡ₚ l.
Proof. unfold Std.sort_reversed. by rewrite reverse_Permutation, sort_perm, reverse_Permutation. Qed.

Lemma insert_sorted_ascending x l :
  ascending lt l → ascending lt (Std.insert_sorted lt x l).
Proof.
  induction 1 as [|y|y z l Hzy Hasc IH]; simpl.
  - constructor.
  - destruct (lt x y) eqn:E; constructor; auto using ascending.
  - destruct (lt x y) eqn:E.
    + constructor; auto using ascending.
    + simpl in IH. destruct (lt x z) eqn:E'; constructor; auto using ascending.
Qed.

Lemma sort_ascending l : ascending lt (Std.sort lt l).
Proof.
  unfold Std.sort. induction l; simpl; auto using ascending, insert_sorted_ascending.
Qed.

Lemma ascending_adjacent l i x y :
  ascending lt l → l !! i = Some x → l !! Datatypes.S i = Some y → lt y x = false.
Proof.
  intros Hasc. revert i. induction Hasc as [| |u v l Hvu Hasc IH]; intros i Hx Hy.
  - done.
  - by destruct i.
  - destruct i as [|i]; simplify_eq/=; [done|]. by eapply IH.
Qed.

(** After [std::sort(rbegin, rend)] no element is smaller than its
    successor. *)
Lemma sort_reversed_adjacent l i x y :
  Std.sort_reversed lt l !! i = Some x →
  Std.sort_reversed lt l !! Datatypes.S i = Some y →
  lt x y = false.
Proof.
  unfold Std.sort_reversed. intros Hx Hy.
  pose proof (lookup_lt_Some _ _ _ Hy) as Hlen. rewrite length_reverse in Hlen.
  rewrite reverse_lookup in Hx by lia. rewrite reverse_lookup in Hy by lia.
  eapply (ascending_adjacent _ _ y x (sort_ascending _)); [done|].
  rewrite <- Hx. f_equal. lia.
Qed.

End SortFacts.

(* ================================================================== *)
(** * GenePool: simulate *)
(* ================================================================== *)

Section SimulateFacts.
Context {N S R : Type} `{!Nucl N} `{!Scorer S} `{!RandomEngine R}.

Local Abbreviation Genom := (Genom.t N S).
Local Abbreviation GenePool := (GenePool.t N S R).

Lemma genom_lt_asym (x y : Genom) : Genom.lt x y = true → Genom.lt y x = false.
Proof. apply float_lt_asym. Qed.

Lemma simulate_genoms_perm (simulator : Genom → Genom) (p : GenePool) :
  GenePool.genoms (GenePool.simulate simulator p) ≡ₚ simulator <$> GenePool.genoms p.
Proof. apply sort_reversed_perm. Qed.

(** In a list in descending order without NaN scores the first element
    has the highest score. *)
Lemma descending_first (gs : list Genom) b :
  sorted_descending gs →
  (∀ g, g ∈ gs → Float.is_nan (Genom.score g) = false) →
  gs !! 0 = Some b →
  ∀ g, g ∈ gs → Float.ge (Genom.score b) (Genom.score g) = true.
Proof.
  intros Hdesc Hnan Hb g [i Hg]%list_elem_of_lookup.
  revert g Hg. induction i as [|i IH]; intros g Hg.
  - simplify_eq. apply float_ge_refl, Hnan. by eapply list_elem_of_lookup_2.
  - destruct (lookup_lt_is_Some_2 gs i) as [g' Hg'].
    { apply lookup_lt_Some in Hg. lia. }
    eapply float_ge_trans; [by apply IH|]. by eapply Hdesc.
Qed.

(** No order of a population is descending once a NaN score stands at one
    of its first two positions: [NaN >= x] and [x >= NaN] are false. *)
Lemma nan_not_descending (gs : list Genom) x y :
  gs !! 0 = Some x → gs !! 1 = Some y →
  Float.is_nan (Genom.score x) = true → ¬ sorted_descending gs.
Proof.
  intros Hx Hy Hnan Hdesc. specialize (Hdesc 0 x y Hx Hy).
  by rewrite float_ge_nan_l in Hdesc.
Qed.

(** C1, amended. For every population and every simulator that assigns no
    NaN score: after [simulate] the population is a reordering of the
    simulated genoms in descending order of score, and [best()] is its
    first element, whose score is the highest of the population. *)
Theorem simulate_sorted_descending (simulator : Genom → Genom) (p : GenePool) :
  (∀ g, g ∈ GenePool.genoms p → Float.is_nan (Genom.score (simulator g)) = false) →
  let p' := GenePool.simulate simulator p in
  sorted_descending (GenePool.genoms p')
  ∧ GenePool.genoms p' ≡ₚ simulator <$> GenePool.genoms p
  ∧ ∀ g, g ∈ GenePool.genoms p' →
      ∃ b, GenePool.best p' = Some b
         ∧ GenePool.genoms p' !! 0 = Some b
         ∧ Float.ge (Genom.score b) (Genom.score g) = true.
Proof.
  intros Hnan p'.
  assert (∀ g, g ∈ GenePool.genoms p' → Float.is_nan (Genom.score g) = false) as Hnan'.
  { intros g Hg. unfold p' in Hg. rewrite simulate_genoms_perm in Hg.
    apply list_elem_of_fmap in Hg as (g0 & -> & Hg0). by apply Hnan. }
  assert (sorted_descending (GenePool.genoms p')) as Hdesc.
  { intros i x y Hx Hy.
    apply float_not_lt_ge.
    - apply Hnan'. by eapply list_elem_of_lookup_2.
    - apply Hnan'. by eapply list_elem_of_lookup_2.
    - eapply (sort_reversed_adjacent Genom.lt genom_lt_asym); [exact Hx|exact Hy]. }
  split_and!; [done|apply simulate_genoms_perm|].
  intros g Hg. unfold GenePool.best.
  destruct (GenePool.genoms p') as [|b gs] eqn:E; [by apply not_elem_of_nil in Hg|].
  exists b. split_and!; [done..|].
  eapply descending_first; [done|done|done|done].
Qed.

End SimulateFacts.

(** C1 as stated fails when the simulator assigns NaN: in the pool of the
    test, simulated with fitness [0/0], the first two genoms are not in
    descending order, [NaN >= NaN] being false. *)
Lemma simulate_nan_not_descending :
  ∃ p : TestPool,
    GenePool.new 10 7 f0_3 = Some p
    ∧ ¬ sorted_descending (GenePool.genoms (GenePool.simulate nan_simulator p)).
Proof.
  eexists. split; [vm_compute; reflexivity|].
  intros Hdesc.
  specialize (Hdesc 0 _ _ eq_refl eq_refl). vm_compute in Hdesc. discriminate.
Qed.

(** The witness of [simulate_sorted_descending]: the pool and the simulator
    of the test. *)
Lemma simulate_sorted_descending_witness :
  ∃ (p : TestPool) sim,
    GenePool.new 10 7 f0_3 = Some p
    ∧ Simulator.new [1; 2; 3; 4; 5; 6]%Z = Some sim
    ∧ sorted_descending (GenePool.genoms (GenePool.simulate (Simulator.simulate sim) p))
    ∧ ∃ b, GenePool.best (GenePool.simulate (Simulator.simulate sim) p) = Some b
         ∧ Genom.score b = Simulator.ten.
Proof.
  eexists. eexists. split; [vm_compute; reflexivity|].
  split; [vm_compute; reflexivity|].
  match goal with |- sorted_descending (GenePool.genoms (GenePool.simulate ?s ?p)) ∧ _ =>
    destruct (simulate_sorted_descending s p) as (Hdesc & _ & _)
  end.
  { intros g Hg. repeat (apply elem_of_cons in Hg as [->|Hg]; [by vm_compute|]).
    by apply not_elem_of_nil in Hg. }
  split; [exact Hdesc|].
  eexists. split; vm_compute; reflexivity.
Defined.

(* ================================================================== *)
(** * std::shuffle permutes *)
(* ================================================================== *)

Section ShuffleFacts.
Context {A : Type} `{RandomEngine R}.

Lemma draw_range (d : uniform_int_distribution) (g : R) :
  dist_a d ≤ dist_b d → dist_a d ≤ (draw d g).1 ≤ dist_b d.
Proof.
  intros Hab. unfold draw.
  pose proof (uniform_int_range (Z.of_nat (dist_a d)) (Z.of_nat (dist_b d)) g) as Hr.
  destruct (uniform_int _ _ g) as [z g']. simpl in *. lia.
Qed.

Lemma swap_perm i j (l : list A) : Std.swap i j l ≡ₚ l.
Proof.
  unfold Std.swap.
  destruct (l !! i) as [x|] eqn:Hi; [|done].
  destruct (l !! j) as [y|] eqn:Hj; [|done].
  by apply Permutation_insert_swap.
Qed.

Lemma shuffle_perm (l : list A) (g : R) : (Std.shuffle l g).1 ≡ₚ l.
Proof.
  unfold Std.shuffle. destruct (shuffle_swaps (length l) g) as [swaps g'].
  cbn [fst]. revert l. induction swaps as [|[i j] swaps IH]; intros l; simpl; [done|].
  rewrite IH. apply swap_perm.
Qed.

(** [std::shuffle(begin() + k, end(), g)] with [k] inside the vector is
    defined, keeps the first [k] slots and permutes the others. *)
Lemma shuffle_from_spec k (l : list A) (g : R) :
  k ≤ length l →
  ∃ tl g', Std.shuffle_from k l g = Some (take k l ++ tl, g') ∧ tl ≡ₚ drop k l.
Proof.
  intros Hk. unfold Std.shuffle_from. rewrite decide_True by done.
  pose proof (shuffle_perm (drop k l) g) as Hp.
  destruct (Std.shuffle (drop k l) g) as [tl g']. by exists tl, g'.
Qed.

Lemma shuffle_from_inv k (l l' : list A) (g g' : R) :
  Std.shuffle_from k l g = Some (l', g') →
  k ≤ length l ∧ l' ≡ₚ l ∧ length l' = length l ∧ take k l' = take k l.
Proof.
  intros Hs. assert (k ≤ length l) as Hk.
  { unfold Std.shuffle_from in Hs. by case_decide. }
  destruct (shuffle_from_spec k l g Hk) as (tl & g1 & Hs' & Hp).
  rewrite Hs in Hs'. simplify_eq.
  assert (take k l ++ tl ≡ₚ l) as Hperm.
  { rewrite Hp. by rewrite take_drop. }
  split_and!; [done|done|by rewrite Hperm|].
  rewrite take_app_le by (rewrite length_take; lia).
  rewrite take_take. f_equal. lia.
Qed.

End ShuffleFacts.

(* ================================================================== *)
(** * Computations with a trace *)
(* ================================================================== *)

Section RunFacts.
Context {A B : Type}.

Lemma run_bind_result (m : run A) (k : A → run B) a :
  result m = Some a → result (m ≫= k) = result (k a).
Proof. unfold mbind, run_bind. by intros ->. Qed.

Lemma run_bind_trace (m : run A) (k : A → run B) a :
  result m = Some a → trace (m ≫= k) = trace m ++ trace (k a).
Proof. unfold mbind, run_bind. by intros ->. Qed.

Lemma run_bind_trace_l (m : run A) (k : A → run B) e :
  e ∈ trace m → e ∈ trace (m ≫= k).
Proof.
  unfold mbind, run_bind. destruct (result m); simpl; [|done].
  intros He. apply elem_of_app. by left.
Qed.

Lemma run_bind_trace_r (m : run A) (k : A → run B) a e :
  result m = Some a → e ∈ trace (k a) → e ∈ trace (m ≫= k).
Proof.
  intros Hm He. rewrite (run_bind_trace _ _ _ Hm). apply elem_of_app. by right.
Qed.

Lemma run_bind_None (m : run A) (k : A → run B) :
  result m = None → result (m ≫= k) = None.
Proof. unfold mbind, run_bind. by intros ->. Qed.

Lemma run_bind_Some (m : run A) (k : A → run B) b :
  result (m ≫= k) = Some b → ∃ a, result m = Some a ∧ result (k a) = Some b.
Proof.
  unfold mbind, run_bind. destruct (result m) as [a|]; simpl; [|done]. eauto.
Qed.

Lemma lift_bind (o : option A) (k : A → run B) a :
  o = Some a → lift o ≫= k = k a.
Proof. intros ->. unfold mbind, run_bind, lift. simpl. by destruct (k a). Qed.

End RunFacts.

(** A loop over the positions [s, s + k) that keeps an invariant [I],
    indexed by the position reached, never runs into undefined behaviour
    and records, for each position, a call satisfying [P]. *)
Lemma run_each_seq {St : Type} (I : nat → St → Prop) (P : nat → event → Prop)
    (body : nat → St → run St) (s k : nat) (st : St) :
  I s st →
  (∀ i st, s ≤ i < s + k → I i st →
     ∃ st', result (body i st) = Some st' ∧ I (Datatypes.S i) st'
          ∧ ∃ e, e ∈ trace (body i st) ∧ P i e) →
  ∃ st', result (run_each body (seq s k) st) = Some st' ∧ I (s + k) st'
       ∧ ∀ i, s ≤ i < s + k → ∃ e, e ∈ trace (run_each body (seq s k) st) ∧ P i e.
Proof.
  revert s st. induction k as [|k IH]; intros s st Hst Hbody.
  { exists st. rewrite Nat.add_0_r. split_and!; [done|done|intros; lia]. }
  change (seq s (Datatypes.S k)) with (s :: seq (Datatypes.S s) k).
  change (run_each body (s :: ?l) st) with (body s st ≫= run_each body l).
  destruct (Hbody s st) as (st1 & Hres & Hst1 & e & He & HP); [lia|done|].
  destruct (IH (Datatypes.S s) st1) as (st' & Hres' & Hst' & Hev); [done| |].
  { intros i st2 Hi. apply Hbody. lia. }
  exists st'. split_and!.
  - by rewrite (run_bind_result _ _ _ Hres).
  - by replace (s + Datatypes.S k) with (Datatypes.S s + k) by lia.
  - intros i Hi. destruct (decide (i = s)) as [->|Hne].
    + exists e. split; [by apply run_bind_trace_l|done].
    + destruct (Hev i) as (e' & He' & HP'); [lia|].
      exists e'. split; [by eapply run_bind_trace_r|done].
Qed.

(* ================================================================== *)
(** * GenePool: the states the engine can reach, and [select] *)
(* ================================================================== *)

Section SelectFacts.
Context {N S R : Type} `{!Nucl N} `{!Scorer S} `{!RandomEngine R}.

Local Abbreviation Genom := (Genom.t N S).
Local Abbreviation GenePool := (GenePool.t N S R).

Lemma copy_slot_Some half i (idx : list nat) x :
  idx !! i = Some x → i + half < length idx →
  GenePool.copy_slot half i idx = Some (<[i + half := x]> idx).
Proof. unfold GenePool.copy_slot. intros -> Hi. simpl. by rewrite decide_True. Qed.

(** The copy loop over the positions [s, s + k) of the first half. *)
Lemma copy_loop_lookup half s k (idx : list nat) :
  s + k ≤ half → half + s + k ≤ length idx →
  ∃ idx', for_each (GenePool.copy_slot half) (seq s k) idx = Some idx'
    ∧ length idx' = length idx
    ∧ ∀ j, idx' !! j = if decide (half + s ≤ j < half + s + k)
                        then idx !! (j - half) else idx !! j.
Proof.
  revert s idx. induction k as [|k IH]; intros s idx Hs Hlen.
  { exists idx. split_and!; [done|done|]. intros j. case_decide; [lia|done]. }
  change (seq s (Datatypes.S k)) with (s :: seq (Datatypes.S s) k).
  destruct (lookup_lt_is_Some_2 idx s) as [x Hx]; [lia|].
  rewrite for_each_cons, (copy_slot_Some half s idx x), option_bind_Some by (done || lia).
  set (idx1 := <[s + half := x]> idx).
  assert (length idx1 = length idx) as Hlen1 by apply length_insert.
  destruct (IH (Datatypes.S s) idx1) as (idx' & Hrun & Hlen' & Hlook); [lia..|].
  exists idx'. split_and!; [done|lia|].
  intros j. rewrite Hlook. unfold idx1.
  destruct (decide (j = s + half)) as [->|Hne].
  - rewrite decide_False, decide_True by lia.
    rewrite list_lookup_insert_eq by lia. rewrite <- Hx. f_equal. lia.
  - repeat case_decide; try lia; by rewrite list_lookup_insert_ne by lia.
Qed.

(** After the copy loop the second half of the array is a copy of the
    first. *)
Lemma copy_loop_spec half (idx : list nat) :
  2 * half ≤ length idx →
  for_each (GenePool.copy_slot half) (seq 0 half) idx
  = Some (take half idx ++ take half idx ++ drop (2 * half) idx).
Proof.
  intros Hlen.
  destruct (copy_loop_lookup half 0 half idx) as (idx' & -> & Hlen' & Hlook); [lia..|].
  f_equal. apply list_eq. intros j. rewrite Hlook.
  destruct (decide (j < half)).
  - rewrite decide_False by lia.
    rewrite lookup_app_l by (rewrite length_take; lia). by rewrite lookup_take_lt.
  - rewrite lookup_app_r by (rewrite length_take; lia). rewrite length_take.
    replace (half `min` length idx) with half by lia.
    destruct (decide (j < 2 * half)).
    + rewrite decide_True by lia.
      rewrite lookup_app_l by (rewrite length_take; lia). by rewrite lookup_take_lt by lia.
    + rewrite decide_False by lia.
      rewrite lookup_app_r by (rewrite length_take; lia). rewrite length_take.
      replace (half `min` length idx) with half by lia.
      rewrite lookup_drop. f_equal. lia.
Qed.

Lemma take_prefix_eq {A} k h (l l' : list A) :
  k ≤ h → take h l = take h l' → take k l = take k l'.
Proof.
  intros Hk Heq.
  assert (∀ l0 : list A, take k l0 = take k (take h l0)) as Hpre.
  { intros l0. rewrite take_take. f_equal. lia. }
  by rewrite (Hpre l), (Hpre l'), Heq.
Qed.

Lemma even_half n : Nat.Even n → 2 * (n / 2) = n.
Proof. intros [h ->]. f_equal. symmetry. apply Nat.div_unique_exact; lia. Qed.

(** The mating pool of a well-formed pool of even size: the shuffled array
    with its first half written twice. *)
Lemma mating_pool_spec (p : GenePool) :
  wf p → Nat.Even (GenePool.n_genoms p) →
  GenePool.take p ≤ GenePool.n_genoms p / 2 →
  ∃ idx1 g,
    GenePool.mating_pool p
    = Some (take (GenePool.n_genoms p / 2) idx1 ++ take (GenePool.n_genoms p / 2) idx1, g)
    ∧ idx1 ≡ₚ GenePool.shuffle_indices p
    ∧ take (GenePool.take p) idx1 = seq 0 (GenePool.take p).
Proof.
  intros Hwf Hev Htake. destruct Hwf.
  pose proof (even_half _ Hev) as Hh.
  unfold GenePool.mating_pool.
  destruct (shuffle_from_spec (GenePool.take p) (GenePool.shuffle_indices p) (GenePool.rng p))
    as (tl & g & Hs & Hp); [lia|].
  pose proof (shuffle_from_inv _ _ _ _ _ Hs) as (_ & Hperm & Hlen & Htk).
  rewrite Hs, option_bind_Some. cbv beta iota.
  rewrite copy_loop_spec by lia. rewrite option_bind_Some.
  rewrite drop_ge, app_nil_r by lia.
  eexists _, g. split_and!; [done|done|]. by rewrite Htk.
Qed.

Lemma crossover_step_spec (gs : list Genom) idx half off d i next (g g' : R)
    ia ib a b c pt c' :
  idx !! i = Some ia → idx !! (i + half) = Some ib →
  gs !! ia = Some a → gs !! ib = Some b → next !! (i + off) = Some c →
  draw d g = (pt, g') → Genom.crossover_inplace a b c pt = Some c' →
  GenePool.crossover_step gs idx half off d i (next, g)
  = Run [Crossover ia ib (i + off) pt] (Some (<[i + off := c']> next, g')).
Proof.
  intros Hia Hib Ha Hb Hc Hd Hx. unfold GenePool.crossover_step.
  rewrite (lift_bind _ _ _ Hia), (lift_bind _ _ _ Hib).
  rewrite (lift_bind _ _ _ Ha), (lift_bind _ _ _ Hb), (lift_bind _ _ _ Hc).
  rewrite Hd, Hx. reflexivity.
Qed.

(** A crossover loop on genoms of length [L], with an index array whose
    values are population indices: it is defined, fills the slots
    [off, off + half) with genoms of length [L], and calls
    [crossover_inplace] once for each [i < half], with first parent
    [idx[i]], second parent [idx[i + half]] and a point in [[0, L]]. *)
Lemma crossover_round_spec (gs : list Genom) idx half off d next (g : R) n L :
  length gs = n → Forall (λ x, Genom.size x = L) gs →
  dist_a d = 0 → dist_b d = L →
  length idx = n → Forall (λ i, i < n) idx →
  half + half ≤ n → off + half ≤ n → length next = n →
  (∀ j c, j < off → next !! j = Some c → Genom.size c = L) →
  ∃ next' g',
    result (GenePool.crossover_round gs idx half off d (next, g)) = Some (next', g')
    ∧ length next' = n
    ∧ (∀ j c, j < off + half → next' !! j = Some c → Genom.size c = L)
    ∧ ∀ i, i < half →
        ∃ ia ib pt,
          idx !! i = Some ia ∧ idx !! (i + half) = Some ib ∧ pt ≤ L
          ∧ Crossover ia ib (i + off) pt
              ∈ trace (GenePool.crossover_round gs idx half off d (next, g)).
Proof.
  intros Hgs Hsize Hda Hdb Hidx Hrange Hhalf Hoff Hnext Hdone.
  unfold GenePool.crossover_round.
  destruct (run_each_seq
    (λ i (st : list Genom * R),
       length st.1 = n ∧ ∀ j c, j < off + i → st.1 !! j = Some c → Genom.size c = L)
    (λ i e, ∃ ia ib pt,
       idx !! i = Some ia ∧ idx !! (i + half) = Some ib ∧ pt ≤ L
       ∧ e = Crossover ia ib (i + off) pt)
    (GenePool.crossover_step gs idx half off d) 0 half (next, g))
    as ([next' g'] & Hres & [Hlen Hfilled] & Hev).
  - simpl. split; [done|]. intros j c Hj. apply Hdone. lia.
  - intros i [nx gi] Hi [Hnx Hfill]. simpl in Hnx, Hfill.
    destruct (lookup_lt_is_Some_2 idx i) as [ia Hia]; [lia|].
    destruct (lookup_lt_is_Some_2 idx (i + half)) as [ib Hib]; [lia|].
    assert (ia < n) as Hian by (eapply (Forall_lookup_1 _ _ _ _ Hrange); done).
    assert (ib < n) as Hibn by (eapply (Forall_lookup_1 _ _ _ _ Hrange); done).
    destruct (lookup_lt_is_Some_2 gs ia) as [a Ha]; [lia|].
    destruct (lookup_lt_is_Some_2 gs ib) as [b Hb]; [lia|].
    destruct (lookup_lt_is_Some_2 nx (i + off)) as [c Hc]; [lia|].
    destruct (draw d gi) as [pt gi'] eqn:Hd.
    assert (pt ≤ L) as Hpt.
    { pose proof (draw_range d gi) as Hr. rewrite Hd in Hr. simpl in Hr. lia. }
    destruct (crossover_inplace_defined a b c L pt) as (c' & Hx & Hc'); [..|done|].
    { eapply (Forall_lookup_1 _ _ _ _ Hsize); done. }
    { eapply (Forall_lookup_1 _ _ _ _ Hsize); done. }
    rewrite (crossover_step_spec gs idx half off d i nx gi gi' ia ib a b c pt c')
      by done.
    eexists. split; [done|]. simpl. split.
    + split; [by rewrite length_insert|]. intros j c0 Hj Hc0.
      destruct (decide (j = i + off)) as [->|Hne].
      * rewrite list_lookup_insert_eq in Hc0 by lia. by simplify_eq.
      * rewrite list_lookup_insert_ne in Hc0 by done. eapply Hfill; [|done]. lia.
    + eexists. split; [apply list_elem_of_here|]. by exists ia, ib, pt.
  - exists next', g'. simpl in *. split_and!; [done|done| |].
    + intros j c Hj. apply Hfilled. lia.
    + intros i Hi. destruct (Hev i) as (e & He & ia & ib & pt & ? & ? & ? & ->); [lia|].
      by exists ia, ib, pt.
Qed.

(** A mutation loop that ran to its end changed no length. *)
Lemma mutate_each_Some d slot (next next' : list Genom) (g g' : R) :
  result (GenePool.mutate_each d slot next g) = Some (next', g') →
  Forall2 (λ c c', Genom.size c' = Genom.size c) next next'.
Proof.
  revert slot next' g g'. induction next as [|c rest IH]; intros slot next' g g' Hres.
  { simpl in Hres. simplify_eq. constructor. }
  simpl in Hres. destruct (draw d g) as [n g1].
  apply run_bind_Some in Hres as ([] & _ & Hres).
  apply run_bind_Some in Hres as ([c' g2] & Hmut & Hres).
  apply run_bind_Some in Hres as ([rest' g3] & Hrest & Hres).
  simpl in *. simplify_eq. constructor; [by eapply mutate_length|by eapply IH].
Qed.

(** The steps of a [select] that ran to its end. *)
Lemma select_inv (p p' : GenePool) :
  GenePool.select p = Some p' →
  ∃ idx1 g1 idx2 g2 next1 g3 idx3 g4 next2 g5 next3 g6,
    GenePool.mating_pool p = Some (idx1, g1)
    ∧ Std.shuffle_from (GenePool.n_genoms p / 2) idx1 g1 = Some (idx2, g2)
    ∧ result (GenePool.crossover_round (GenePool.genoms p) idx2
                (GenePool.n_genoms p / 2) 0 (GenePool.distr p)
                (resize (GenePool.n_genoms p) Genom.default (GenePool.next_generation p), g2))
      = Some (next1, g3)
    ∧ Std.shuffle_from (GenePool.n_genoms p / 2) idx2 g3 = Some (idx3, g4)
    ∧ result (GenePool.crossover_round (GenePool.genoms p) idx3
                (GenePool.n_genoms p / 2) (GenePool.n_genoms p / 2) (GenePool.distr p)
                (next1, g4))
      = Some (next2, g5)
    ∧ result (GenePool.mutate_each (GenePool.distr p) 0 next2 g5) = Some (next3, g6)
    ∧ p' = {| GenePool.n_genoms := GenePool.n_genoms p;
              GenePool.take := GenePool.take p;
              GenePool.retain := GenePool.retain p;
              GenePool.genoms := next3;
              GenePool.rng := g6;
              GenePool.distr := GenePool.distr p;
              GenePool.generation := GenePool.generation p;
              GenePool.shuffle_indices := idx3;
              GenePool.next_generation := GenePool.genoms p |}.
Proof.
  unfold GenePool.select, GenePool.select_run. intros Hsel.
  apply run_bind_Some in Hsel as ([idx1 g1] & H1 & Hsel).
  apply run_bind_Some in Hsel as ([idx2 g2] & H2 & Hsel).
  apply run_bind_Some in Hsel as ([next1 g3] & H3 & Hsel).
  apply run_bind_Some in Hsel as ([idx3 g4] & H4 & Hsel).
  apply run_bind_Some in Hsel as ([next2 g5] & H5 & Hsel).
  apply run_bind_Some in Hsel as ([next3 g6] & H6 & Hsel).
  simpl in H1, H2, H4, Hsel. simplify_eq.
  by exists idx1, g1, idx2, g2, next1, g3, idx3, g4, next2, g5, next3, g6.
Qed.

Lemma select_fields (p p' : GenePool) :
  GenePool.select p = Some p' →
  GenePool.n_genoms p' = GenePool.n_genoms p
  ∧ GenePool.take p' = GenePool.take p
  ∧ GenePool.distr p' = GenePool.distr p.
Proof.
  intros (?&?&?&?&?&?&?&?&?&?&?&?&_&_&_&_&_&_&->)%select_inv. done.
Qed.

Lemma shift_size n (x y : Genom) :
  Genom.shift n x = Some y → Genom.size y = Genom.size x.
Proof.
  unfold Genom.shift, Genom.std_rotate, Genom.size. intros Hs.
  case_decide; simplify_eq/=.
  rewrite length_app, length_drop, length_take. lia.
Qed.

Lemma push_genoms_spec n len (gs : list Genom) (g : R) :
  Forall (λ x, Genom.size x = len) gs →
  length (GenePool.push_genoms n len gs g).1 = length gs + n
  ∧ Forall (λ x, Genom.size x = len) (GenePool.push_genoms n len gs g).1.
Proof.
  revert gs g. induction n as [|n IH]; intros gs g Hgs; simpl.
  { split; [lia|done]. }
  pose proof (random_size len g) as Hsz.
  destruct (Genom.random len g) as [x g']. simpl in Hsz.
  destruct (IH (gs ++ [x]) g') as [Hlen Hall].
  { apply Forall_app. split; [done|]. by constructor. }
  split; [|done]. rewrite Hlen, length_app. simpl. lia.
Qed.

(** The constructor establishes the invariant. *)
Lemma new_wf n len f (p : GenePool) :
  GenePool.new n len f = Some p →
  GenePool.take p ≤ GenePool.n_genoms p →
  wf p ∧ GenePool.shuffle_indices p = seq 0 (GenePool.n_genoms p).
Proof.
  unfold GenePool.new. intros Hnew Htake.
  destruct (GenePool.take_of n f) as [tk|]; simplify_eq/=.
  destruct (GenePool.retain_of n f) as [rt|]; simplify_eq/=.
  pose proof (push_genoms_spec n len [] (rng_seed Std.default_random_engine_first_output))
    as Hpush.
  destruct (GenePool.push_genoms n len [] _) as [gs g]. simplify_eq/=.
  destruct Hpush as [Hlen Hall]; [constructor|].
  split; [|done]. constructor; simpl; try done.
  - by rewrite length_seq.
  - apply Forall_forall. intros i Hi%elem_of_seq. lia.
  - rewrite take_seq. f_equal. lia.
Qed.

Lemma simulate_wf (simulator : Genom → Genom) (p : GenePool) :
  (∀ g, Genom.size (simulator g) = Genom.size g) →
  wf p → wf (GenePool.simulate simulator p).
Proof.
  intros Hsim [Hlen Hsize Hd Hil Hir He]. constructor; simpl; try done.
  - by rewrite sort_reversed_perm, length_fmap.
  - rewrite sort_reversed_perm. apply Forall_fmap.
    eapply Forall_impl; [done|]. intros g Hg. simpl. by rewrite Hsim.
Qed.

Lemma shift_wf n (p p' : GenePool) :
  GenePool.shift n p = Some p' →
  (wf p → wf p')
  ∧ GenePool.n_genoms p' = GenePool.n_genoms p
  ∧ GenePool.take p' = GenePool.take p
  ∧ GenePool.shuffle_indices p' = GenePool.shuffle_indices p.
Proof.
  unfold GenePool.shift. intros Hs.
  destruct (mapM (Genom.shift n) (GenePool.genoms p)) as [gs|] eqn:Hm; simplify_eq/=.
  split; [|done]. apply mapM_Some_1 in Hm.
  intros [Hlen Hsize Hd Hil Hir He]. constructor; simpl; try done.
  - by rewrite <- (Forall2_length _ _ _ Hm).
  - clear Hlen. induction Hm as [|x y l k Hxy Hm IH]; [done|].
    apply Forall_cons in Hsize as [Hx Hl]. constructor; [|by apply IH].
    by rewrite (shift_size _ _ _ Hxy).
Qed.

(** [select] keeps the invariant. *)
Lemma select_wf (p p' : GenePool) :
  wf p → Nat.Even (GenePool.n_genoms p) →
  GenePool.take p ≤ GenePool.n_genoms p / 2 →
  GenePool.select p = Some p' → wf p'.
Proof.
  intros Hwf Hev Htake Hsel.
  pose proof (even_half _ Hev) as Hn.
  destruct (mating_pool_spec p Hwf Hev Htake) as (i1 & gm & Hmp & Hperm1 & Helite1).
  apply select_inv in Hsel
    as (idx1 & g1 & idx2 & g2 & next1 & g3 & idx3 & g4 & next2 & g5 & next3 & g6
        & Hmp' & Hs2 & Hr1 & Hs3 & Hr2 & Hmut & ->).
  rewrite Hmp in Hmp'. simplify_eq.
  destruct Hwf as [Hlen Hsize Hd Hil Hir He].
  set (half := GenePool.n_genoms p / 2) in *.
  set (idx1 := take half i1 ++ take half i1) in *.
  assert (length i1 = GenePool.n_genoms p) as Hi1 by (by rewrite Hperm1).
  assert (Forall (λ i, i < GenePool.n_genoms p) i1) as Hi1r by (by rewrite Hperm1).
  assert (length idx1 = GenePool.n_genoms p) as Hidx1.
  { unfold idx1. rewrite length_app, length_take. lia. }
  assert (Forall (λ i, i < GenePool.n_genoms p) idx1) as Hidx1r.
  { unfold idx1. apply Forall_app. split; by apply Forall_take. }
  assert (take (GenePool.take p) idx1 = seq 0 (GenePool.take p)) as Hidx1e.
  { unfold idx1. rewrite take_app_le by (rewrite length_take; lia).
    rewrite <- Helite1. apply (take_prefix_eq _ half); [lia|]. by rewrite take_take, Nat.min_id. }
  apply shuffle_from_inv in Hs2 as (_ & Hp2 & Hl2 & Ht2).
  apply shuffle_from_inv in Hs3 as (_ & Hp3 & Hl3 & Ht3).
  destruct (crossover_round_spec (GenePool.genoms p) idx2 half 0 (GenePool.distr p)
              (resize (GenePool.n_genoms p) Genom.default (GenePool.next_generation p))
              g2 (GenePool.n_genoms p) (dist_b (GenePool.distr p)))
    as (n1 & g3' & Hr1' & Hn1 & Hf1 & _);
    [done|done|done|done|lia|by rewrite Hp2|lia|lia|by rewrite length_resize|intros; lia|].
  rewrite Hr1 in Hr1'. injection Hr1' as <- <-.
  destruct (crossover_round_spec (GenePool.genoms p) idx3 half half (GenePool.distr p)
              next1 g4 (GenePool.n_genoms p) (dist_b (GenePool.distr p)))
    as (n2 & g5' & Hr2' & Hn2 & Hf2 & _);
    [done|done|done|done|lia|by rewrite Hp3, Hp2|lia|lia|done|done|].
  rewrite Hr2 in Hr2'. injection Hr2' as <- <-.
  apply mutate_each_Some in Hmut.
  constructor; simpl; try done.
  - rewrite <- (Forall2_length _ _ _ Hmut). done.
  - apply Forall_lookup. intros j c' Hc'.
    destruct (Forall2_lookup_r _ _ _ _ _ Hmut Hc') as (c & Hc & Hcc').
    rewrite Hcc'. apply (Hf2 j); [|done]. apply lookup_lt_Some in Hc. lia.
  - lia.
  - by rewrite Hp3, Hp2.
  - rewrite <- Hidx1e. apply (take_prefix_eq _ half); [lia|]. by rewrite Ht3, Ht2.
Qed.

(** Every reachable pool of even size whose elite slice fits in the first
    half is well formed; before the first [select] its index array is the
    identity. *)
Lemma reachable_wf k (p : GenePool) :
  reachable k p → Nat.Even (GenePool.n_genoms p) →
  GenePool.take p ≤ GenePool.n_genoms p / 2 →
  wf p ∧ (k = 0 → GenePool.shuffle_indices p = seq 0 (GenePool.n_genoms p)).
Proof.
  induction 1 as [n len f p Hnew|k sim p Hr IH Hsim|k n p p' Hr IH Hs|k p Hr IH
                 |k p p' Hr IH Hsel]; intros Hev Htake.
  - destruct (new_wf n len f p Hnew) as [Hwf Hidx]; [|done].
    pose proof (even_half _ Hev). lia.
  - destruct IH as [Hwf Hidx]; [done..|]. split; [by apply simulate_wf|done].
  - destruct (shift_wf _ _ _ Hs) as (Hwf' & Hn & Ht & Hi).
    rewrite Hn, Ht in *. destruct IH as [Hwf Hidx]; [done..|].
    split; [by apply Hwf'|]. intros Hk. rewrite Hi. by apply Hidx.
  - destruct IH as [Hwf Hidx]; [done..|]. split; [|done].
    destruct Hwf. by constructor.
  - destruct (select_fields _ _ Hsel) as (Hn & Ht & _).
    rewrite Hn, Ht in *. destruct IH as [Hwf _]; [done..|].
    split; [by eapply select_wf|]. intros Hk. lia.
Qed.

(** A mutation call whose index is not below the length of its Genom is
    where the loop stops: it is the last call recorded, and the loop has no
    result. *)
Lemma mutate_each_past_end d slot (c : Genom) rest (g : R) :
  Genom.size c ≤ (draw d g).1 →
  result (GenePool.mutate_each d slot (c :: rest) g) = None
  ∧ trace (GenePool.mutate_each d slot (c :: rest) g) = [Mutate slot (draw d g).1].
Proof.
  intros Hn. simpl. destruct (draw d g) as [n g1]. simpl in Hn.
  by rewrite (mutate_out_of_range n g1 c Hn).
Qed.

(** On a well-formed pool of even size [select] reaches its mutation loop
    with [N] children of the configured length. *)
Lemma select_reaches_mutation (p : GenePool) :
  wf p → Nat.Even (GenePool.n_genoms p) →
  GenePool.take p ≤ GenePool.n_genoms p / 2 →
  ∃ (next : list Genom) (g : R),
    length next = GenePool.n_genoms p
    ∧ Forall (λ c, Genom.size c = dist_b (GenePool.distr p)) next
    ∧ (result (GenePool.mutate_each (GenePool.distr p) 0 next g) = None →
       GenePool.select p = None).
Proof.
  intros Hwf Hev Htake.
  pose proof (even_half _ Hev) as Hn.
  destruct (mating_pool_spec p Hwf Hev Htake) as (i1 & g1 & Hmp & Hperm & _).
  destruct Hwf as [Hlen Hsize Hd Hil Hir _].
  set (half := GenePool.n_genoms p / 2) in *.
  set (idx1 := take half i1 ++ take half i1) in *.
  assert (length i1 = GenePool.n_genoms p) as Hi1 by (by rewrite Hperm).
  assert (length idx1 = GenePool.n_genoms p) as Hidx1.
  { unfold idx1. rewrite length_app, length_take. lia. }
  assert (Forall (λ i, i < GenePool.n_genoms p) idx1) as Hidx1r.
  { rewrite <- Hperm in Hir. unfold idx1. apply Forall_app. split; by apply Forall_take. }
  destruct (shuffle_from_spec half idx1 g1) as (tl2 & g2 & Hs2 & _); [lia|].
  pose proof (shuffle_from_inv _ _ _ _ _ Hs2) as (_ & Hp2 & Hl2 & _).
  set (idx2 := take half idx1 ++ tl2) in *.
  destruct (crossover_round_spec (GenePool.genoms p) idx2 half 0 (GenePool.distr p)
              (resize (GenePool.n_genoms p) Genom.default (GenePool.next_generation p))
              g2 (GenePool.n_genoms p) (dist_b (GenePool.distr p)))
    as (next1 & g3 & Hr1 & Hn1 & Hf1 & _);
    [done|done|done|done|lia|by rewrite Hp2|lia|lia|by rewrite length_resize|intros; lia|].
  destruct (shuffle_from_spec half idx2 g3) as (tl3 & g4 & Hs3 & _); [lia|].
  pose proof (shuffle_from_inv _ _ _ _ _ Hs3) as (_ & Hp3 & Hl3 & _).
  set (idx3 := take half idx2 ++ tl3) in *.
  destruct (crossover_round_spec (GenePool.genoms p) idx3 half half (GenePool.distr p)
              next1 g4 (GenePool.n_genoms p) (dist_b (GenePool.distr p)))
    as (next2 & g5 & Hr2 & Hn2 & Hf2 & _);
    [done|done|done|done|lia|by rewrite Hp3, Hp2|lia|lia|done|done|].
  exists next2, g5. split_and!; [done| |].
  - apply Forall_lookup. intros j c Hc. apply (Hf2 j); [|done].
    apply lookup_lt_Some in Hc. lia.
  - intros Hmut. unfold GenePool.select, GenePool.select_run.
    rewrite (lift_bind _ _ _ Hmp). cbv beta iota.
    rewrite (lift_bind _ _ _ Hs2). cbv beta iota.
    rewrite (run_bind_result _ _ _ Hr1). cbv beta iota.
    rewrite (lift_bind _ _ _ Hs3). cbv beta iota.
    rewrite (run_bind_result _ _ _ Hr2). cbv beta iota.
    by apply run_bind_None.
Qed.

(** Whatever the engine: with [genom_len = 0] the distribution returns 0,
    no Genom has a nucleotide 0, and the first mutation call of [select]
    is out of range. *)
Lemma select_without_nucleotides k (p : GenePool) :
  reachable k p → Nat.Even (GenePool.n_genoms p) →
  GenePool.take p ≤ GenePool.n_genoms p / 2 →
  0 < GenePool.n_genoms p → dist_b (GenePool.distr p) = 0 →
  GenePool.select p = None.
Proof.
  intros Hreach Hev Htake Hpos Hzero.
  destruct (reachable_wf k p Hreach Hev Htake) as [Hwf _].
  destruct (select_reaches_mutation p Hwf Hev Htake) as (next & g & Hlen & Hsize & Hsel).
  apply Hsel. destruct next as [|c rest]; [simpl in Hlen; lia|].
  apply mutate_each_past_end. apply Forall_cons in Hsize as [Hc _]. lia.
Qed.

(** The calls of the first crossover loop are calls of [select]. *)
Lemma select_first_round (p : GenePool) idx1 g1 idx2 g2 e :
  GenePool.mating_pool p = Some (idx1, g1) →
  Std.shuffle_from (GenePool.n_genoms p / 2) idx1 g1 = Some (idx2, g2) →
  e ∈ trace (GenePool.crossover_round (GenePool.genoms p) idx2
               (GenePool.n_genoms p / 2) 0 (GenePool.distr p)
               (resize (GenePool.n_genoms p) Genom.default (GenePool.next_generation p), g2)) →
  e ∈ trace (GenePool.select_run p).
Proof.
  intros Hmp Hs He. unfold GenePool.select_run.
  rewrite (lift_bind _ _ _ Hmp). cbv beta iota.
  rewrite (lift_bind _ _ _ Hs). cbv beta iota.
  by apply run_bind_trace_l.
Qed.

Lemma distinct_count_le (idx pool : list nat) :
  (∀ x, x ∈ idx → x ∈ pool) → distinct_count idx ≤ length pool.
Proof.
  intros Hsub. unfold distinct_count. apply submseteq_length, NoDup_submseteq.
  - apply NoDup_remove_dups.
  - intros x Hx. rewrite elem_of_remove_dups in Hx. by apply Hsub.
Qed.

Lemma distinct_count_eq (idx pool : list nat) :
  NoDup pool → (∀ x, x ∈ idx ↔ x ∈ pool) → distinct_count idx = length pool.
Proof.
  intros Hnd Heq. unfold distinct_count. apply Permutation_length, NoDup_Permutation.
  - apply NoDup_remove_dups.
  - done.
  - intros x. by rewrite elem_of_remove_dups.
Qed.

(** The index array of the mating pool.  For a reachable pool of even size
    [N] whose elite count is at most [N / 2]: in every call of [select],
    once the second half of the index array is a copy of the first, the
    array holds population indices, at most [N / 2] of them distinct,
    among them every elite index [0 .. take - 1]; in the first call after
    construction exactly [N / 2] are distinct, as the array is then
    [0 .. N - 1]. *)
Theorem mating_pool_distinct k (p : GenePool) :
  reachable k p → Nat.Even (GenePool.n_genoms p) →
  GenePool.take p ≤ GenePool.n_genoms p / 2 →
  ∃ idx g,
    GenePool.mating_pool p = Some (idx, g)
    ∧ length idx = GenePool.n_genoms p
    ∧ Forall (λ i, i < GenePool.n_genoms p) idx
    ∧ (∀ e, e < GenePool.take p → idx !! e = Some e)
    ∧ distinct_count idx ≤ GenePool.n_genoms p / 2
    ∧ (k = 0 → distinct_count idx = GenePool.n_genoms p / 2).
Proof.
  intros Hreach Hev Htake.
  destruct (reachable_wf k p Hreach Hev Htake) as [Hwf Hfresh].
  pose proof (even_half _ Hev) as Hn.
  destruct (mating_pool_spec p Hwf Hev Htake) as (idx1 & g & Hmp & Hperm & Helite).
  destruct Hwf as [_ _ _ Hil Hir _].
  set (half := GenePool.n_genoms p / 2) in *.
  assert (length idx1 = GenePool.n_genoms p) as Hlen1 by (by rewrite Hperm).
  assert (length (take half idx1) = half) as Hlenh by (rewrite length_take; lia).
  exists (take half idx1 ++ take half idx1), g. split_and!.
  - done.
  - rewrite length_app. lia.
  - rewrite <- Hperm in Hir. apply Forall_app. split; by apply Forall_take.
  - intros e He. rewrite lookup_app_l by lia. rewrite lookup_take_lt by lia.
    rewrite <- (lookup_take_lt idx1 (GenePool.take p)) by done.
    rewrite Helite. by apply lookup_seq_lt.
  - etrans; [apply (distinct_count_le _ (take half idx1))|lia].
    intros x. rewrite elem_of_app. tauto.
  - intros Hk. rewrite (distinct_count_eq _ (take half idx1)); [done| |].
    + eapply sublist_NoDup; [|apply sublist_take].
      rewrite Hperm, (Hfresh Hk). apply NoDup_seq.
    + intros x. rewrite elem_of_app. tauto.
Qed.

(** C4. For a reachable pool of even size [N] with [0 < take ≤ N / 2]:
    in every call of [select], each index [e < take] is the first parent
    [genoms[shuffle_indices[i]]] of a call of [crossover_inplace], for
    some [i < N / 2]. *)
Theorem elite_participation k (p : GenePool) :
  reachable k p → Nat.Even (GenePool.n_genoms p) →
  0 < GenePool.take p → GenePool.take p ≤ GenePool.n_genoms p / 2 →
  ∀ e, e < GenePool.take p →
    ∃ i ib n,
      i < GenePool.n_genoms p / 2
      ∧ Crossover e ib i n ∈ trace (GenePool.select_run p).
Proof.
  intros Hreach Hev Hpos Htake e He.
  destruct (reachable_wf k p Hreach Hev Htake) as [Hwf _].
  pose proof (even_half _ Hev) as Hn.
  destruct (mating_pool_spec p Hwf Hev Htake) as (i1 & g1 & Hmp & Hperm & Helite).
  destruct Hwf as [Hlen Hsize Hd Hil Hir _].
  set (half := GenePool.n_genoms p / 2) in *.
  set (idx1 := take half i1 ++ take half i1) in *.
  assert (length i1 = GenePool.n_genoms p) as Hi1 by (by rewrite Hperm).
  assert (length idx1 = GenePool.n_genoms p) as Hidx1.
  { unfold idx1. rewrite length_app, length_take. lia. }
  assert (Forall (λ i, i < GenePool.n_genoms p) idx1) as Hidx1r.
  { rewrite <- Hperm in Hir. unfold idx1. apply Forall_app. split; by apply Forall_take. }
  destruct (shuffle_from_spec half idx1 g1) as (tl & g2 & Hs & _); [lia|].
  pose proof (shuffle_from_inv _ _ _ _ _ Hs) as (_ & Hp2 & Hl2 & Ht2).
  set (idx2 := take half idx1 ++ tl) in *.
  destruct (crossover_round_spec (GenePool.genoms p) idx2 half 0 (GenePool.distr p)
              (resize (GenePool.n_genoms p) Genom.default (GenePool.next_generation p))
              g2 (GenePool.n_genoms p) (dist_b (GenePool.distr p)))
    as (next1 & g3 & _ & _ & _ & Hev1);
    [done|done|done|done|lia|by rewrite Hp2|lia|lia|by rewrite length_resize|intros; lia|].
  destruct (Hev1 e) as (ia & ib & pt & Hia & _ & _ & Hin); [lia|].
  assert (ia = e) as ->.
  { assert (idx2 !! e = Some e) as Hee; [|by rewrite Hee in Hia; simplify_eq].
    rewrite <- (lookup_take_lt idx2 half) by lia. rewrite Ht2.
    unfold idx1. rewrite take_app_le by (rewrite length_take; lia).
    rewrite take_take, Nat.min_id, lookup_take_lt by lia.
    rewrite <- (lookup_take_lt i1 (GenePool.take p)) by done.
    rewrite Helite. by apply lookup_seq_lt. }
  exists e, ib, pt. split; [lia|].
  rewrite Nat.add_0_r in Hin. by eapply select_first_round.
Qed.

End SelectFacts.

(* ================================================================== *)
(** * The member [retain] *)
(* ================================================================== *)

Section Retain.
Context {N S R : Type} `{!Nucl N} `{!Scorer S} `{!RandomEngine R}.

Local Abbreviation Genom := (Genom.t N S).
Local Abbreviation GenePool := (GenePool.t N S R).

Lemma run_bind_agree {A} (m : run A) (k1 k2 : A → run GenePool) :
  (∀ a, run_agree (k1 a) (k2 a)) → run_agree (m ≫= k1) (m ≫= k2).
Proof.
  intros Hk. unfold run_agree, mbind, run_bind.
  destruct (result m) as [a|]; simpl.
  - destruct (Hk a) as [Ht Hr]. by rewrite Ht.
  - split; [done|constructor].
Qed.

Lemma select_run_agree (p1 p2 : GenePool) :
  agree_but_retain p1 p2 →
  run_agree (GenePool.select_run p1) (GenePool.select_run p2).
Proof.
  intros (Hn & Ht & Hg & Hr & Hd & Hgen & Hi & Hnx).
  unfold GenePool.select_run, GenePool.mating_pool.
  rewrite Hn, Ht, Hg, Hr, Hd, Hi, Hnx.
  apply run_bind_agree. intros [idx1 g1].
  apply run_bind_agree. intros [idx2 g2].
  apply run_bind_agree. intros [next1 g3].
  apply run_bind_agree. intros [idx3 g4].
  apply run_bind_agree. intros [next2 g5].
  apply run_bind_agree. intros [next3 g6].
  split; [done|]. simpl. constructor. by rewrite Hgen.
Qed.

(** C9. [retain] does not interfere: on two pools that agree on every
    member but [retain], [simulate], [select], [shift] and [reset] lead to
    pools that again agree on every member but [retain] (and are undefined
    together), [select] makes the same calls, and [best] and
    [generations] return the same. *)
Theorem retain_noninterference (p1 p2 : GenePool) (simulator : Genom → Genom) (n : nat) :
  agree_but_retain p1 p2 →
  agree_but_retain (GenePool.simulate simulator p1) (GenePool.simulate simulator p2)
  ∧ option_Forall2 agree_but_retain (GenePool.select p1) (GenePool.select p2)
  ∧ trace (GenePool.select_run p1) = trace (GenePool.select_run p2)
  ∧ option_Forall2 agree_but_retain (GenePool.shift n p1) (GenePool.shift n p2)
  ∧ agree_but_retain (GenePool.reset p1) (GenePool.reset p2)
  ∧ GenePool.best p1 = GenePool.best p2
  ∧ GenePool.generations p1 = GenePool.generations p2.
Proof.
  intros Hagree.
  destruct (select_run_agree p1 p2 Hagree) as [Htrace Hsel].
  destruct Hagree as (Hn & Ht & Hg & Hr & Hd & Hgen & Hi & Hnx).
  split_and!.
  - unfold agree_but_retain, GenePool.simulate. simpl. by rewrite Hg, Hgen.
  - done.
  - done.
  - unfold GenePool.shift. rewrite Hg.
    destruct (mapM _ _); simpl; constructor. unfold agree_but_retain. simpl. done.
  - unfold agree_but_retain, GenePool.reset. simpl. done.
  - unfold GenePool.best. by rewrite Hg.
  - done.
Qed.


End Retain.

(* ================================================================== *)
(** * The engine of the test, step by step *)
(* ================================================================== *)

Lemma genom_length_invariant_witness :
  Genom.size (Genom.random 3 (Std.minstd_rand0.seed 1)).1 = 3
  ∧ (∀ out, Genom.crossover_inplace genom_a genom_b genom_c 1 = Some out
          → Genom.size out = 3)
  ∧ (1 ≤ 3 → is_Some (Genom.crossover_inplace genom_a genom_b genom_c 1))
  ∧ (∀ x' g', Genom.mutate 2 (Std.minstd_rand0.seed 1) genom_a = Some (x', g')
            → Genom.size x' = 3)
  ∧ (2 < 3 → is_Some (Genom.mutate 2 (Std.minstd_rand0.seed 1) genom_a)).
Proof.
  apply (genom_length_invariant 3 (Std.minstd_rand0.seed 1) genom_a genom_b genom_c genom_a 1 2);
    reflexivity.
Defined.

Lemma crossover_inplace_spec_witness :
  ∃ out',
    Genom.crossover_inplace genom_a genom_b genom_c 1 = Some out'
    ∧ Genom.size out' = 3
    ∧ ∀ i x y z,
        Genom.nucleotides genom_a !! i = Some x →
        Genom.nucleotides genom_b !! i = Some y →
        resize 3 nucl_default (Genom.nucleotides genom_c) !! i = Some z →
        Genom.nucleotides out' !! i
        = Some (if decide (i < 1) then nucl_crossover_inplace x y z
                else nucl_crossover_inplace y x z).
Proof.
  apply (crossover_inplace_spec genom_a genom_b genom_c 3 1); [reflexivity|reflexivity|lia].
Defined.

Lemma crossover_inplace_boundary_witness :
  ∃ out',
    Genom.crossover_inplace genom_a genom_b genom_c 0 = Some out'
    ∧ Genom.crossover_inplace genom_b genom_a genom_c 3 = Some out'.
Proof.
  apply (crossover_inplace_boundary genom_a genom_b genom_c 3); reflexivity.
Defined.

Lemma shift_rotation_witness :
  Genom.shift_times 3 1 genom_a = Some genom_a
  ∧ ∃ x',
      Genom.shift 2 genom_a = Some x'
      ∧ Genom.scorer x' = Genom.scorer genom_a
      ∧ Genom.size x' = 3
      ∧ ∀ i, i < 3 →
          Genom.nucleotides x' !! i = Genom.nucleotides genom_a !! ((i + 2) mod 3).
Proof.
  apply (shift_rotation genom_a 3 2); [reflexivity|lia|lia].
Defined.

(** The rotation of [genom_a] by two places, computed. *)
Example shift_two :
  Genom.nucleotides <$> Genom.shift 2 genom_a
  = Some [IntNucl.Make 3; IntNucl.Make 1; IntNucl.Make 2].
Proof. reflexivity. Qed.

(** A rotation by more places than the Genom has is undefined. *)
Example shift_past_the_end : Genom.shift 4 genom_a = None.
Proof. reflexivity. Qed.

(** The crossover of the integer nucleotide is the truncated mean, which
    does not depend on the order of its arguments. *)
Example crossover_point_one :
  Genom.nucleotides <$> Genom.crossover_inplace genom_a genom_b genom_c 1
  = Some [IntNucl.Make 3; IntNucl.Make (-1); IntNucl.Make 1].
Proof. reflexivity. Qed.

(** C2 fails on the pool of the test, [GenePool{10, 7, 0.3}]: in the first
    [select] the first mutation call is [next_generation[0].mutate(7, rng)]
    on genoms of 7 nucleotides, and [nucleotides[7]] is past the end. *)
Lemma select_mutate_index_past_end :
  ∃ p : TestPool,
    GenePool.new 10 7 f0_3 = Some p
    ∧ GenePool.distr p = Distribution 0 7
    ∧ Forall (λ g, Genom.size g = 7) (GenePool.genoms p)
    ∧ last (trace (GenePool.select_run p)) = Some (Mutate 0 7)
    ∧ GenePool.select p = None.
Proof.
  eexists. split; [vm_compute; reflexivity|].
  split; [reflexivity|]. split; [by repeat constructor|].
  split; vm_compute; reflexivity.
Qed.

(** C3 fails in the second call of [select] on the pool
    [GenePool{4, 8, 0.25}] (N = 4, take = 1).  The first call runs to its
    end and leaves the index array [0, 3, 0, 3]: it is filled with
    [0 .. N - 1] in the constructor only.  The second call shuffles the
    slots from [take] on of this array, which brings the second copy of 0
    into the first half, and the copy loop makes it [0, 0, 0, 0]: one
    distinct index, where the mating pool has N / 2 = 2 members. *)
Lemma mating_pool_second_call :
  ∃ (p p1 : TestPool) g,
    GenePool.new 4 8 f0_25 = Some p
    ∧ GenePool.shuffle_indices p = [0; 1; 2; 3]
    ∧ GenePool.select p = Some p1
    ∧ GenePool.n_genoms p1 = 4 ∧ GenePool.take p1 = 1
    ∧ GenePool.shuffle_indices p1 = [0; 3; 0; 3]
    ∧ GenePool.mating_pool p1 = Some ([0; 0; 0; 0], g)
    ∧ distinct_count [0; 0; 0; 0] = 1
    ∧ GenePool.n_genoms p1 / 2 = 2.
Proof.
  eexists. eexists. eexists. split; [vm_compute; reflexivity|].
  split; [reflexivity|].
  split; [vm_compute; reflexivity|].
  split; [reflexivity|]. split; [reflexivity|]. split; [reflexivity|].
  split; [vm_compute; reflexivity|]. split; reflexivity.
Qed.

(** The same on [GenePool{10, 9, 0.25}] (N = 10, take = 2): the first call
    leaves [0, 1, 5, 9, 6, 6, 5, 0, 1, 9], and the mating pool of the
    second call has 4 distinct members, not 5. *)
Example mating_pool_second_call_ten :
  ∃ (p p1 : TestPool) g,
    GenePool.new 10 9 f0_25 = Some p
    ∧ GenePool.select p = Some p1
    ∧ GenePool.shuffle_indices p1 = [0; 1; 5; 9; 6; 6; 5; 0; 1; 9]
    ∧ GenePool.mating_pool p1 = Some ([0; 1; 9; 1; 6; 0; 1; 9; 1; 6], g)
    ∧ distinct_count [0; 1; 9; 1; 6; 0; 1; 9; 1; 6] = 4.
Proof.
  eexists. eexists. eexists. split; [vm_compute; reflexivity|].
  split; [vm_compute; reflexivity|]. split; [reflexivity|].
  split; vm_compute; reflexivity.
Qed.

(** With an odd size the last slot is not overwritten: in the first call on
    [GenePool{3, 7, 0.25}] the array holds two distinct indices, and
    N / 2 = 1. *)
Example mating_pool_odd_size :
  ∃ (p : TestPool) g,
    GenePool.new 3 7 f0_25 = Some p
    ∧ GenePool.mating_pool p = Some ([2; 2; 0], g)
    ∧ distinct_count [2; 2; 0] = 2.
Proof.
  eexists. eexists. split; [vm_compute; reflexivity|].
  split; vm_compute; reflexivity.
Qed.

(** With more elite members than N / 2 the copy overwrites elite slots: in
    the first call on [GenePool{3, 7, 0.7}] (take = 2) the elite index 1 is
    no longer in the array. *)
Example mating_pool_large_elite :
  ∃ (p : TestPool) g,
    GenePool.new 3 7 f0_7 = Some p
    ∧ GenePool.take p = 2
    ∧ GenePool.mating_pool p = Some ([0; 0; 2], g).
Proof.
  eexists. eexists. split; [vm_compute; reflexivity|].
  split; vm_compute; reflexivity.
Qed.

Lemma mating_pool_distinct_witness :
  ∃ p : TestPool,
    GenePool.new 10 7 f0_3 = Some p
    ∧ ∃ idx g,
        GenePool.mating_pool p = Some (idx, g)
        ∧ length idx = GenePool.n_genoms p
        ∧ Forall (λ i, i < GenePool.n_genoms p) idx
        ∧ (∀ e, e < GenePool.take p → idx !! e = Some e)
        ∧ distinct_count idx ≤ GenePool.n_genoms p / 2
        ∧ (0 = 0 → distinct_count idx = GenePool.n_genoms p / 2).
Proof.
  eexists. split; [vm_compute; reflexivity|].
  apply (mating_pool_distinct 0).
  - by apply (reach_new 10 7 f0_3).
  - by exists 5.
  - vm_compute. lia.
Defined.

Lemma elite_participation_witness :
  ∃ p : TestPool,
    GenePool.new 10 7 f0_3 = Some p
    ∧ ∀ e, e < GenePool.take p →
        ∃ i ib n,
          i < GenePool.n_genoms p / 2
          ∧ Crossover e ib i n ∈ trace (GenePool.select_run p).
Proof.
  eexists. split; [vm_compute; reflexivity|].
  apply (elite_participation 0).
  - by apply (reach_new 10 7 f0_3).
  - by exists 5.
  - vm_compute. lia.
  - vm_compute. lia.
Defined.

Lemma retain_noninterference_witness :
  ∃ p1 p2 : TestPool,
    GenePool.new 10 7 f0_3 = Some p1
    ∧ GenePool.retain p1 = 1 ∧ GenePool.retain p2 = 4
    ∧ option_Forall2 agree_but_retain (GenePool.select p1) (GenePool.select p2)
    ∧ trace (GenePool.select_run p1) = trace (GenePool.select_run p2)
    ∧ GenePool.best p1 = GenePool.best p2.
Proof.
  eexists.
  eexists (GenePool.Make _ _ 4 _ _ _ _ _ _).
  split; [vm_compute; reflexivity|].
  split; [reflexivity|]. split; [reflexivity|].
  match goal with |- option_Forall2 _ (GenePool.select ?p1) (GenePool.select ?p2) ∧ _ =>
    destruct (retain_noninterference p1 p2 id 1) as (_ & Hsel & Htr & _ & _ & Hbest & _)
  end.
  { repeat split; reflexivity. }
  split; [exact Hsel|]. split; [exact Htr|exact Hbest].
Defined.


(* ================================================================== *)
(** * Genom: when the operators are defined, and what they leave alone *)
(* ================================================================== *)

Section GenomMore.
Context {N S : Type} `{!Nucl N} `{!Scorer S}.

Local Abbreviation Genom := (Genom.t N S).

Lemma std_rotate_compose {A} n m (l : list A) :
  n + m ≤ length l →
  Genom.std_rotate n l ≫= Genom.std_rotate m = Genom.std_rotate (n + m) l.
Proof.
  intros Hnm. unfold Genom.std_rotate.
  destruct (decide (n ≤ length l)); [|lia].
  destruct (decide (n + m ≤ length l)); [|lia].
  rewrite option_bind_Some.
  rewrite decide_True by (rewrite length_app, length_drop, length_take; lia).
  f_equal.
  rewrite drop_app_le, take_app_le by (rewrite length_drop; lia).
  rewrite drop_drop, <- app_assoc. f_equal. apply take_take_drop.
Qed.

Lemma shift_shift (x : Genom) (n m : nat) :
  n + m ≤ Genom.size x →
  Genom.shift n x ≫= Genom.shift m = Genom.shift (n + m) x.
Proof.
  unfold Genom.size. intros Hnm. unfold Genom.shift.
  rewrite <- (std_rotate_compose n m) by done.
  destruct (Genom.std_rotate n (Genom.nucleotides x)) as [l1|]; simpl; [|done].
  by destruct (Genom.std_rotate m l1).
Qed.

(** X1. Shifts add up: [shift(n)] followed by [shift(m)] is [shift(n + m)],
    as long as [n + m] does not exceed the number of nucleotides. *)
Theorem shift_compose (x : Genom) (n m : nat) :
  n + m ≤ Genom.size x →
  Genom.shift n x ≫= Genom.shift m = Genom.shift (n + m) x.
Proof. apply shift_shift. Qed.

(** X2. [shift(n)] is defined exactly for [n] up to the number of
    nucleotides ([begin() + n] must not pass [end()]); [shift(0)] and the
    shift by the full length leave the Genom as it is. *)
Theorem shift_defined (x : Genom) (n : nat) :
  (is_Some (Genom.shift n x) ↔ n ≤ Genom.size x)
  ∧ Genom.shift 0 x = Some x
  ∧ Genom.shift (Genom.size x) x = Some x.
Proof.
  unfold Genom.shift, Genom.std_rotate, Genom.size. destruct x as [l s].
  cbn [Genom.nucleotides Genom.scorer]. split_and!.
  - case_decide; simpl; split; intros Hs; try done; try lia.
  - case_decide; [|lia]. simpl. by rewrite drop_0, app_nil_r.
  - case_decide; [|lia]. simpl. by rewrite drop_all, take_ge.
Qed.

(** A crossover loop that is defined stayed inside both parents. *)
Lemma for_each_cross_at_defined (a b : list N) s k c c' :
  for_each (Genom.cross_at a b) (seq s k) c = Some c' →
  0 < k → s + k ≤ length a ∧ s + k ≤ length b.
Proof.
  revert s c. induction k as [|k IH]; intros s c Hrun Hk; [lia|].
  change (seq s (Datatypes.S k)) with (s :: seq (Datatypes.S s) k) in Hrun.
  rewrite for_each_cons in Hrun.
  destruct (Genom.cross_at a b s c) as [c1|] eqn:Hstep; [|done].
  rewrite option_bind_Some in Hrun.
  unfold Genom.cross_at in Hstep.
  destruct (a !! s) as [x|] eqn:Ha; [|done].
  destruct (b !! s) as [y|] eqn:Hb; [|done].
  apply lookup_lt_Some in Ha, Hb.
  destruct k as [|k]; [lia|].
  destruct (IH (Datatypes.S s) c1 Hrun) as [Ha' Hb']; lia.
Qed.

Lemma crossover_inplace_when (a b out : Genom) (n : nat) :
  (is_Some (Genom.crossover_inplace a b out n)
   ↔ n ≤ Genom.size a ∧ Genom.size a ≤ Genom.size b)
  ∧ ∀ out', Genom.crossover_inplace a b out n = Some out' →
      Genom.size out' = Genom.size a ∧ Genom.scorer out' = Genom.scorer out.
Proof.
  split.
  - unfold Genom.size, Genom.crossover_inplace. split.
    + intros [out' Hx].
      destruct (for_each _ (seq 0 n) _) as [c1|] eqn:E1; [|done].
      rewrite option_bind_Some in Hx.
      destruct (for_each _ (seq n _) c1) as [c2|] eqn:E2; [|done].
      destruct (decide (n = 0)) as [->|Hn0].
      * destruct (decide (length (Genom.nucleotides a) = 0)) as [Hz|Hnz]; [lia|].
        destruct (for_each_cross_at_defined _ _ _ _ _ _ E2); lia.
      * destruct (for_each_cross_at_defined _ _ _ _ _ _ E1) as [Ha Hb]; [lia|].
        destruct (decide (n = length (Genom.nucleotides a))) as [->|Hne]; [lia|].
        destruct (for_each_cross_at_defined _ _ _ _ _ _ E2); lia.
    + intros [Hn Hab].
      set (c0 := resize _ _ _).
      assert (length c0 = length (Genom.nucleotides a)) as Hc0
        by (unfold c0; by rewrite length_resize).
      destruct (for_each_cross_at (Genom.nucleotides a) (Genom.nucleotides b) 0 n c0)
        as (c1 & -> & Hc1 & _); [lia..|].
      rewrite option_bind_Some.
      destruct (for_each_cross_at (Genom.nucleotides b) (Genom.nucleotides a)
                  n (length (Genom.nucleotides a) - n) c1)
        as (c2 & -> & _); [lia..|].
      by rewrite option_bind_Some.
  - intros out' Hx. split; [by eapply crossover_inplace_size|].
    unfold Genom.crossover_inplace in Hx.
    destruct (for_each _ (seq 0 n) _) as [c1|]; [|done].
    rewrite option_bind_Some in Hx.
    destruct (for_each _ (seq n _) c1) as [c2|]; [|done].
    by simplify_eq/=.
Qed.

(** X3. [crossover_inplace(a, b, out, n)] with an [out] that is neither
    parent is defined exactly when the point lies in [a] and [b] is at
    least as long as [a]; the child then has the length of [a] and keeps
    the scorer the slot [out] held before, not a parent's.  With [out]
    the second parent itself the resize lengthens [b] first, and the call
    is defined exactly when the point lies in [a]. *)
Theorem crossover_inplace_defined_iff (a b out : Genom) (n : nat) :
  (is_Some (Genom.crossover_inplace a b out n)
   ↔ n ≤ Genom.size a ∧ Genom.size a ≤ Genom.size b)
  ∧ (∀ out', Genom.crossover_inplace a b out n = Some out' →
       Genom.size out' = Genom.size a ∧ Genom.scorer out' = Genom.scorer out)
  ∧ (is_Some (Genom.crossover_inplace_onto_b a b n) ↔ n ≤ Genom.size a)
  ∧ (∀ b', Genom.crossover_inplace_onto_b a b n = Some b' →
       Genom.size b' = Genom.size a ∧ Genom.scorer b' = Genom.scorer b).
Proof.
  destruct (crossover_inplace_when a b out n) as [Hdef Hres].
  split; [exact Hdef|]. split; [exact Hres|].
  unfold Genom.crossover_inplace_onto_b.
  set (b' := {| Genom.nucleotides := _; Genom.scorer := Genom.scorer b |}).
  destruct (crossover_inplace_when a b' b' n) as [Hdef' Hres'].
  assert (Genom.size b' = Genom.size a) as Hsize
    by (unfold Genom.size, b'; cbn; apply length_resize).
  split.
  - rewrite Hdef', Hsize. split; [by intros [? _]|done].
  - intros b'' [Hlen Hsc]%Hres'. by split.
Qed.

(** X4. [mutate(n, rng)] is defined exactly for [n] below the number of
    nucleotides; it then replaces nucleotide [n] by its mutation, advances
    the engine as that mutation does, and leaves every other nucleotide
    and the scorer as they were. *)
Theorem mutate_spec `{RandomEngine R} (x : Genom) (n : nat) (g : R) :
  (is_Some (Genom.mutate n g x) ↔ n < Genom.size x)
  ∧ ∀ x' g', Genom.mutate n g x = Some (x', g') →
      Genom.scorer x' = Genom.scorer x
      ∧ Genom.size x' = Genom.size x
      ∧ (∃ y, Genom.nucleotides x !! n = Some y
            ∧ Genom.nucleotides x' !! n = Some (nucl_mutate y g).1
            ∧ g' = (nucl_mutate y g).2)
      ∧ ∀ i, i ≠ n → Genom.nucleotides x' !! i = Genom.nucleotides x !! i.
Proof.
  split.
  - split; [|apply mutate_in_range].
    intros [xg Hm]. destruct (decide (n < Genom.size x)) as [|Hge]; [done|].
    rewrite mutate_out_of_range in Hm by lia. done.
  - intros x' g' Hm. pose proof (mutate_length _ _ _ _ _ Hm) as Hlen.
    unfold Genom.mutate in Hm.
    destruct (Genom.nucleotides x !! n) as [y|] eqn:Hy; [|done].
    rewrite option_bind_Some in Hm.
    destruct (nucl_mutate y g) as [y' g1] eqn:Hmut. simplify_eq/=.
    split_and!; [done|done| |].
    + exists y. rewrite Hmut. split_and!; [done| |done].
      apply list_lookup_insert_eq. by eapply lookup_lt_Some.
    + intros i Hi. by apply list_lookup_insert_ne.
Qed.

Lemma SFltb_trans x y z : SFltb x y = true → SFltb y z = true → SFltb x z = true.
Proof.
  unfold SFltb.
  destruct x as [sx|sx| |sx mx ex], y as [sy|sy| |sy my ey], z as [sz|sz| |sz mz ez];
    simpl; try destruct sx; try destruct sy; try destruct sz; simpl; try done.
  all: change (Pos.compare_cont Eq ?a ?b) with (a ?= b)%positive.
  all: destruct (Z.compare_spec ex ey), (Z.compare_spec ey ez), (Z.compare_spec ex ez);
    simpl; try done; try lia.
  all: destruct (Pos.compare_spec mx my), (Pos.compare_spec my mz), (Pos.compare_spec mx mz);
    simpl; try done; try lia.
Qed.

(** X5. [operator<] on Genoms is a strict order whatever the scores, NaN
    included: no Genom is below itself, two Genoms are never below each
    other, and it is transitive. *)
Theorem genom_lt_strict_order (x y z : Genom) :
  Genom.lt x x = false
  ∧ (Genom.lt x y = true → Genom.lt y x = false)
  ∧ (Genom.lt x y = true → Genom.lt y z = true → Genom.lt x z = true).
Proof.
  split_and!.
  - destruct (Genom.lt x x) eqn:E; [|done].
    pose proof (float_lt_asym _ _ E). unfold Genom.lt in *. congruence.
  - apply float_lt_asym.
  - apply SFltb_trans.
Qed.

End GenomMore.

(* ================================================================== *)
(** * GenePool: construction, the generation counter, shift *)
(* ================================================================== *)

Section PoolMore.
Context {N S R : Type} `{!Nucl N} `{!Scorer S} `{!RandomEngine R}.

Local Abbreviation Genom := (Genom.t N S).
Local Abbreviation GenePool := (GenePool.t N S R).

Lemma random_scorer n (g : R) :
  Genom.scorer (Genom.random n g).1 = (scorer_default : S).
Proof. unfold Genom.random. by destruct (Genom.push_random n _ g). Qed.

Lemma push_genoms_Forall (P : Genom → Prop) n len (gs : list Genom) (g : R) :
  (∀ g0 : R, P (Genom.random len g0).1) →
  Forall P gs → Forall P (GenePool.push_genoms n len gs g).1.
Proof.
  intros Hrandom. revert gs g. induction n as [|n IH]; intros gs g Hgs; simpl; [done|].
  pose proof (Hrandom g) as Hx. destruct (Genom.random len g) as [x g'].
  apply IH. apply Forall_app. split; [done|]. by constructor.
Qed.

Lemma new_inv n len f (p : GenePool) :
  GenePool.new n len f = Some p →
  ∃ tk rt,
    GenePool.take_of n f = Some tk ∧ GenePool.retain_of n f = Some rt
    ∧ p = {| GenePool.n_genoms := n; GenePool.take := tk; GenePool.retain := rt;
             GenePool.genoms :=
               (GenePool.push_genoms n len []
                  (rng_seed Std.default_random_engine_first_output)).1;
             GenePool.rng :=
               (GenePool.push_genoms n len []
                  (rng_seed Std.default_random_engine_first_output)).2;
             GenePool.distr := Distribution 0 len;
             GenePool.generation := 0;
             GenePool.shuffle_indices := seq 0 n;
             GenePool.next_generation := [] |}.
Proof.
  unfold GenePool.new. intros Hnew.
  destruct (GenePool.take_of n f) as [tk|]; [|done].
  destruct (GenePool.retain_of n f) as [rt|]; [|done].
  rewrite !option_bind_Some in Hnew.
  destruct (GenePool.push_genoms n len [] _) as [gs g]. simplify_eq/=.
  by exists tk, rt.
Qed.

(** X6. A pool that the constructor builds holds [genoms_count] Genoms, each
    of [genom_len] nucleotides with a default scorer; its index array is
    the identity [0 .. genoms_count - 1], its generation counter 0, its
    staging array empty and its distribution the closed range
    [[0, genom_len]]. *)
Theorem new_spec (n len : nat) (f : spec_float) (p : GenePool) :
  GenePool.new n len f = Some p →
  GenePool.n_genoms p = n
  ∧ length (GenePool.genoms p) = n
  ∧ Forall (λ g, Genom.size g = len ∧ Genom.scorer g = scorer_default)
           (GenePool.genoms p)
  ∧ GenePool.distr p = Distribution 0 len
  ∧ GenePool.generations p = 0%Z
  ∧ GenePool.shuffle_indices p = seq 0 n
  ∧ GenePool.next_generation p = [].
Proof.
  intros (tk & rt & _ & _ & ->)%new_inv. unfold GenePool.generations.
  cbn [GenePool.n_genoms GenePool.genoms GenePool.distr GenePool.generation
       GenePool.shuffle_indices GenePool.next_generation].
  split_and!; try done.
  - by destruct (push_genoms_spec n len []
                   (rng_seed Std.default_random_engine_first_output)) as [-> _].
  - apply push_genoms_Forall; [|done]. intros g0. split.
    + apply random_size.
    + apply random_scorer.
Qed.

(** X7. An elite fraction that is NaN or infinite makes the construction
    undefined, whatever the sizes: the product [genoms_count * take_value]
    has no [size_t] value. *)
Theorem new_undefined (n len : nat) (f : spec_float) :
  Float.is_nan f = true ∨ (∃ s, f = S754_infinity s) →
  GenePool.new (N:=N) (S:=S) (R:=R) n len f = None.
Proof.
  intros Hf. unfold GenePool.new.
  assert (GenePool.take_of n f = None) as ->; [|done].
  unfold GenePool.take_of.
  destruct (Float.of_Z Float.prec32 Float.emax32 (Z.of_nat n)) as [s0|s0| |s0 m0 e0];
    destruct Hf as [Hnan|[s ->]]; try (destruct f; try done); done.
Qed.

Lemma iter_simulate_generation (simulator : Genom → Genom) (p : GenePool) k :
  GenePool.generation p = 0%Z →
  GenePool.generations (Nat.iter k (GenePool.simulate simulator) p)
  = (Z.of_nat k mod 2 ^ 64)%Z.
Proof.
  intros Hzero. unfold GenePool.generations. induction k as [|k IH].
  - simpl. by rewrite Hzero.
  - rewrite Nat.iter_succ.
    change (GenePool.generation (GenePool.simulate simulator ?q))
      with (Std.size_t_wrap (GenePool.generation q + 1)).
    rewrite IH. unfold Std.size_t_wrap. rewrite Zplus_mod_idemp_l. f_equal. lia.
Qed.

(** X8. The generation counter counts the calls of [simulate] since the
    last [reset], modulo [2^64]: after [reset()] and [k] calls of
    [simulate], [generations()] is [k mod 2^64]. *)
Theorem generations_after_reset (simulator : Genom → Genom) (p : GenePool) (k : nat) :
  GenePool.generations (Nat.iter k (GenePool.simulate simulator) (GenePool.reset p))
  = (Z.of_nat k mod 2 ^ 64)%Z.
Proof. by apply iter_simulate_generation. Qed.

Lemma mapM_shift_defined n (gs : list Genom) :
  is_Some (mapM (Genom.shift n) gs) ↔ Forall (λ g, n ≤ Genom.size g) gs.
Proof.
  rewrite mapM_is_Some. apply Forall_iff. intros g.
  unfold compose, Genom.shift, Genom.std_rotate, Genom.size.
  destruct (decide (n ≤ length (Genom.nucleotides g))); simpl;
    split; intros Hs; try done; try lia.
Qed.

(** X9. [GenePool::shift(n)] is defined exactly when every Genom has at
    least [n] nucleotides; it then shifts each Genom by [n] and changes
    nothing else: the scorers, the generation counter, the engine and the
    index array stay as they were. *)
Theorem pool_shift_spec (p : GenePool) (n : nat) :
  (is_Some (GenePool.shift n p) ↔ Forall (λ g, n ≤ Genom.size g) (GenePool.genoms p))
  ∧ ∀ p', GenePool.shift n p = Some p' →
      Forall2 (λ g g', Genom.shift n g = Some g' ∧ Genom.scorer g' = Genom.scorer g)
              (GenePool.genoms p) (GenePool.genoms p')
      ∧ GenePool.generations p' = GenePool.generations p
      ∧ GenePool.rng p' = GenePool.rng p
      ∧ GenePool.shuffle_indices p' = GenePool.shuffle_indices p
      ∧ GenePool.next_generation p' = GenePool.next_generation p.
Proof.
  split.
  - rewrite <- mapM_shift_defined. unfold GenePool.shift.
    destruct (mapM _ _); simpl; split; intros Hs; try done; by destruct Hs.
  - intros p' Hs. unfold GenePool.shift in Hs.
    destruct (mapM (Genom.shift n) (GenePool.genoms p)) as [gs|] eqn:Hm; [|done].
    simplify_eq/=. split_and!; try done.
    apply mapM_Some_1 in Hm. eapply Forall2_impl; [done|].
    intros g g' Hg. split; [done|].
    unfold Genom.shift in Hg. destruct (Genom.std_rotate _ _); by simplify_eq/=.
Qed.

Lemma mapM_shift_compose n m (gs : list Genom) :
  Forall (λ g, n + m ≤ Genom.size g) gs →
  mapM (Genom.shift n) gs ≫= mapM (Genom.shift m) = mapM (Genom.shift (n + m)) gs.
Proof.
  induction 1 as [|g gs Hg Hgs IH]; [done|].
  pose proof (shift_shift g n m Hg) as Hc.
  cbn [mapM] in *.
  destruct (Genom.shift n g) as [g1|] eqn:E1; simpl in Hc.
  - destruct (mapM (Genom.shift n) gs) as [gs1|] eqn:E2; simpl in IH |- *.
    + rewrite <- Hc, <- IH. cbn. done.
    + rewrite <- IH. simpl. by destruct (Genom.shift (n + m) g).
  - rewrite <- Hc. done.
Qed.

(** X10. Pool shifts add up: [shift(n)] followed by [shift(m)] is
    [shift(n + m)] when no Genom has fewer than [n + m] nucleotides. *)
Theorem pool_shift_compose (p : GenePool) (n m : nat) :
  Forall (λ g, n + m ≤ Genom.size g) (GenePool.genoms p) →
  GenePool.shift n p ≫= GenePool.shift m = GenePool.shift (n + m) p.
Proof.
  intros Hall. pose proof (mapM_shift_compose n m _ Hall) as Hc.
  unfold GenePool.shift.
  destruct (mapM (Genom.shift n) (GenePool.genoms p)) as [gs1|]; simpl in *.
  - rewrite <- Hc. by destruct (mapM (Genom.shift m) gs1).
  - by rewrite <- Hc.
Qed.

End PoolMore.

(* ================================================================== *)
(** * GenePool: the calls of [select], in order *)
(* ================================================================== *)

(** A loop whose body records exactly one call at each position records,
    in order, one call per position. *)
Lemma run_each_seq_trace {St : Type} (I : nat → St → Prop) (P : nat → event → Prop)
    (body : nat → St → run St) (s k : nat) (st : St) :
  I s st →
  (∀ i st, s ≤ i < s + k → I i st →
     ∃ st' e, body i st = Run [e] (Some st') ∧ I (Datatypes.S i) st' ∧ P i e) →
  ∃ st', result (run_each body (seq s k) st) = Some st' ∧ I (s + k) st'
       ∧ Forall2 P (seq s k) (trace (run_each body (seq s k) st)).
Proof.
  revert s st. induction k as [|k IH]; intros s st Hst Hbody.
  { exists st. rewrite Nat.add_0_r. split_and!; [done|done|constructor]. }
  change (seq s (Datatypes.S k)) with (s :: seq (Datatypes.S s) k).
  change (run_each body (s :: ?l) st) with (body s st ≫= run_each body l).
  destruct (Hbody s st) as (st1 & e & Hrun & Hst1 & HP); [lia|done|].
  destruct (IH (Datatypes.S s) st1) as (st' & Hres' & Hst' & Hev); [done| |].
  { intros i st2 Hi. apply Hbody. lia. }
  rewrite Hrun. unfold mbind, run_bind. cbn [result trace].
  exists st'. split_and!; [done| |].
  - by replace (s + Datatypes.S k) with (Datatypes.S s + k) by lia.
  - by constructor.
Qed.

Lemma run_bind_trace_silent {A B} (m : run A) (k : A → run B) :
  (∀ a, trace (k a) = []) → trace (m ≫= k) = trace m.
Proof.
  intros Hk. unfold mbind, run_bind. destruct (result m) as [a|]; simpl; [|done].
  by rewrite Hk, app_nil_r.
Qed.

Lemma run_bind_is_Some {A B} (m : run A) (k : A → run B) :
  (∀ a, is_Some (result (k a))) → is_Some (result (m ≫= k)) ↔ is_Some (result m).
Proof.
  intros Hk. unfold mbind, run_bind. destruct (result m) as [a|]; simpl.
  - split; [by eauto|]. intros _. apply Hk.
  - done.
Qed.

(** The first and the second parents of the crossover calls of a trace. *)
Lemma parents_of_round (idx : list nat) half off s k (tr : list event) :
  Forall2 (λ i e, ∃ ia ib pt,
             idx !! i = Some ia ∧ idx !! (i + half) = Some ib
             ∧ e = Crossover ia ib (i + off) pt) (seq s k) tr →
  first_parents tr = take k (drop s idx)
  ∧ second_parents tr = take k (drop (s + half) idx).
Proof.
  revert s tr. induction k as [|k IH]; intros s tr Htr.
  { apply Forall2_nil_inv_l in Htr as ->. by rewrite !take_0. }
  change (seq s (Datatypes.S k)) with (s :: seq (Datatypes.S s) k) in Htr.
  apply Forall2_cons_inv_l in Htr as (e & tr' & (ia & ib & pt & Hia & Hib & ->) & Htr & ->).
  destruct (IH _ _ Htr) as [Hf Hs].
  unfold first_parents, second_parents in *. cbn [omap list_omap].
  rewrite Hf, Hs.
  rewrite (drop_S idx ia s Hia), (drop_S idx ib (s + half) Hib). done.
Qed.

Section SelectCalls.
Context {N S R : Type} `{!Nucl N} `{!Scorer S} `{!RandomEngine R}.

Local Abbreviation Genom := (Genom.t N S).
Local Abbreviation GenePool := (GenePool.t N S R).

(** A crossover loop, call by call. *)
Lemma crossover_round_trace (gs : list Genom) idx half off d next (g : R) n L :
  length gs = n → Forall (λ x, Genom.size x = L) gs →
  dist_a d = 0 → dist_b d = L →
  length idx = n → Forall (λ i, i < n) idx →
  half + half ≤ n → off + half ≤ n → length next = n →
  (∀ j c, j < off → next !! j = Some c → Genom.size c = L) →
  ∃ next' g',
    result (GenePool.crossover_round gs idx half off d (next, g)) = Some (next', g')
    ∧ length next' = n
    ∧ (∀ j c, j < off + half → next' !! j = Some c → Genom.size c = L)
    ∧ Forall2 (λ i e, ∃ ia ib pt,
                 idx !! i = Some ia ∧ idx !! (i + half) = Some ib
                 ∧ e = Crossover ia ib (i + off) pt ∧ pt ≤ L)
              (seq 0 half)
              (trace (GenePool.crossover_round gs idx half off d (next, g))).
Proof.
  intros Hgs Hsize Hda Hdb Hidx Hrange Hhalf Hoff Hnext Hdone.
  unfold GenePool.crossover_round.
  destruct (run_each_seq_trace
    (λ i (st : list Genom * R),
       length st.1 = n ∧ ∀ j c, j < off + i → st.1 !! j = Some c → Genom.size c = L)
    (λ i e, ∃ ia ib pt,
       idx !! i = Some ia ∧ idx !! (i + half) = Some ib
       ∧ e = Crossover ia ib (i + off) pt ∧ pt ≤ L)
    (GenePool.crossover_step gs idx half off d) 0 half (next, g))
    as ([next' g'] & Hres & [Hlen Hfilled] & Hev).
  - simpl. split; [done|]. intros j c Hj. apply Hdone. lia.
  - intros i [nx gi] Hi [Hnx Hfill]. simpl in Hnx, Hfill.
    destruct (lookup_lt_is_Some_2 idx i) as [ia Hia]; [lia|].
    destruct (lookup_lt_is_Some_2 idx (i + half)) as [ib Hib]; [lia|].
    assert (ia < n) as Hian by (eapply (Forall_lookup_1 _ _ _ _ Hrange); done).
    assert (ib < n) as Hibn by (eapply (Forall_lookup_1 _ _ _ _ Hrange); done).
    destruct (lookup_lt_is_Some_2 gs ia) as [a Ha]; [lia|].
    destruct (lookup_lt_is_Some_2 gs ib) as [b Hb]; [lia|].
    destruct (lookup_lt_is_Some_2 nx (i + off)) as [c Hc]; [lia|].
    destruct (draw d gi) as [pt gi'] eqn:Hd.
    assert (pt ≤ L) as Hpt.
    { pose proof (draw_range d gi) as Hr. rewrite Hd in Hr. simpl in Hr. lia. }
    destruct (crossover_inplace_defined a b c L pt) as (c' & Hx & Hc'); [..|done|].
    { eapply (Forall_lookup_1 _ _ _ _ Hsize); done. }
    { eapply (Forall_lookup_1 _ _ _ _ Hsize); done. }
    rewrite (crossover_step_spec gs idx half off d i nx gi gi' ia ib a b c pt c')
      by done.
    eexists _, _. split; [done|]. simpl. split.
    + split; [by rewrite length_insert|]. intros j c0 Hj Hc0.
      destruct (decide (j = i + off)) as [->|Hne].
      * rewrite list_lookup_insert_eq in Hc0 by lia. by simplify_eq.
      * rewrite list_lookup_insert_ne in Hc0 by done. eapply Hfill; [|done]. lia.
    + by exists ia, ib, pt.
  - exists next', g'. simpl in *. split_and!; [done|done| |done].
    intros j c Hj. apply Hfilled. lia.
Qed.

Lemma mutate_each_cons d slot (c : Genom) rest (g g1 g2 : R) m c' :
  draw d g = (m, g1) → Genom.mutate m g1 c = Some (c', g2) →
  trace (GenePool.mutate_each d slot (c :: rest) g)
  = Mutate slot m :: trace (GenePool.mutate_each d (Datatypes.S slot) rest g2)
  ∧ (is_Some (result (GenePool.mutate_each d slot (c :: rest) g))
     ↔ is_Some (result (GenePool.mutate_each d (Datatypes.S slot) rest g2))).
Proof.
  intros Hd Hmut. cbn [GenePool.mutate_each]. rewrite Hd, Hmut.
  unfold mbind, run_bind, emit, lift. cbn [result trace].
  destruct (GenePool.mutate_each d (Datatypes.S slot) rest g2) as [tr [[rest' g3]|]];
    cbn [result trace]; rewrite ?app_nil_r; split; try done.
Qed.

(** The mutation loop, call by call: it mutates the slots in order, every
    index is in [[0, L]], and it runs to its end exactly when it made one
    call per slot and no index was [L]. *)
Lemma mutate_each_trace d slot (next : list Genom) (g : R) L :
  dist_a d = 0 → dist_b d = L → Forall (λ c, Genom.size c = L) next →
  Forall2 (λ j e, ∃ m, e = Mutate j m ∧ m ≤ L)
          (seq slot (length (trace (GenePool.mutate_each d slot next g))))
          (trace (GenePool.mutate_each d slot next g))
  ∧ length (trace (GenePool.mutate_each d slot next g)) ≤ length next
  ∧ (is_Some (result (GenePool.mutate_each d slot next g))
     ↔ length (trace (GenePool.mutate_each d slot next g)) = length next
       ∧ Forall (λ e, ∀ j m, e = Mutate j m → m < L)
                (trace (GenePool.mutate_each d slot next g))).
Proof.
  intros Hda Hdb Hsize. revert slot g.
  induction Hsize as [|c rest Hc Hrest IH]; intros slot g.
  { simpl. split_and!; [constructor|done|]. split; [done|]. intros _. by eexists. }
  pose proof (draw_range d g) as Hr.
  destruct (draw d g) as [m g1] eqn:Hd. simpl in Hr.
  destruct (decide (m < L)) as [Hlt|Hge].
  - destruct (mutate_in_range m g1 c) as [[c' g2] Hmut]; [lia|].
    destruct (mutate_each_cons d slot c rest g g1 g2 m c' Hd Hmut) as [Htrace Hres].
    specialize (IH (Datatypes.S slot) g2).
    destruct IH as (Htr & Hlen & Hsome).
    rewrite Htrace, Hres. cbn [length seq]. split_and!.
    + constructor; [|done]. exists m. split; [done|lia].
    + lia.
    + rewrite Hsome, Forall_cons. split.
      * intros [Hl Hall]. split; [lia|]. split; [|done].
        intros j m0 Heq. by simplify_eq.
      * intros [Hl [_ Hall]]. split; [lia|done].
  - destruct (mutate_each_past_end d slot c rest g) as [Hres Htrace].
    { rewrite Hd. simpl. lia. }
    rewrite Hres, Htrace, Hd. cbn [length seq fst].
    split_and!.
    + constructor; [|constructor]. exists m. split; [done|lia].
    + lia.
    + split; [intros Hs; by destruct Hs|].
      intros [_ Hall]. apply Forall_cons in Hall as [Hm _].
      specialize (Hm slot m eq_refl). lia.
Qed.

(** [select] on a well-formed pool of even size, step by step: the mating
    pool [pool ++ pool], the two crossover loops on [pool ++ tl2] and
    [pool ++ tl3], and the mutation loop on the [N] children. *)
Lemma select_run_decompose (p : GenePool) :
  wf p → Nat.Even (GenePool.n_genoms p) →
  GenePool.take p ≤ GenePool.n_genoms p / 2 →
  ∃ pool g1 tl2 tl3 tr1 tr2 (next2 : list Genom) (g5 : R),
    GenePool.mating_pool p = Some (pool ++ pool, g1)
    ∧ length pool = GenePool.n_genoms p / 2
    ∧ Forall (λ i, i < GenePool.n_genoms p) pool
    ∧ take (GenePool.take p) pool = seq 0 (GenePool.take p)
    ∧ tl2 ≡ₚ pool ∧ tl3 ≡ₚ pool
    ∧ Forall2 (λ i e, ∃ ia ib pt,
                 (pool ++ tl2) !! i = Some ia
                 ∧ (pool ++ tl2) !! (i + GenePool.n_genoms p / 2) = Some ib
                 ∧ e = Crossover ia ib (i + 0) pt
                 ∧ pt ≤ dist_b (GenePool.distr p))
              (seq 0 (GenePool.n_genoms p / 2)) tr1
    ∧ Forall2 (λ i e, ∃ ia ib pt,
                 (pool ++ tl3) !! i = Some ia
                 ∧ (pool ++ tl3) !! (i + GenePool.n_genoms p / 2) = Some ib
                 ∧ e = Crossover ia ib (i + GenePool.n_genoms p / 2) pt
                 ∧ pt ≤ dist_b (GenePool.distr p))
              (seq 0 (GenePool.n_genoms p / 2)) tr2
    ∧ length next2 = GenePool.n_genoms p
    ∧ Forall (λ c, Genom.size c = dist_b (GenePool.distr p)) next2
    ∧ trace (GenePool.select_run p)
      = tr1 ++ tr2 ++ trace (GenePool.mutate_each (GenePool.distr p) 0 next2 g5)
    ∧ (is_Some (GenePool.select p)
       ↔ is_Some (result (GenePool.mutate_each (GenePool.distr p) 0 next2 g5))).
Proof.
  intros Hwf Hev Htake.
  pose proof (even_half _ Hev) as Hn.
  destruct (mating_pool_spec p Hwf Hev Htake) as (i1 & g1 & Hmp & Hperm & Helite).
  destruct Hwf as [Hlen Hsize Hd Hil Hir _].
  set (half := GenePool.n_genoms p / 2) in *.
  set (pool := take half i1) in *.
  assert (length i1 = GenePool.n_genoms p) as Hi1 by (by rewrite Hperm).
  assert (length pool = half) as Hpool by (unfold pool; rewrite length_take; lia).
  assert (Forall (λ i, i < GenePool.n_genoms p) pool) as Hpoolr.
  { rewrite <- Hperm in Hir. by apply Forall_take. }
  assert (take half (pool ++ pool) = pool) as Htk1 by (by apply take_app_length').
  assert (drop half (pool ++ pool) = pool) as Hdr1 by (by apply drop_app_length').
  destruct (shuffle_from_spec half (pool ++ pool) g1) as (tl2 & g2 & Hs2 & Hp2);
    [rewrite length_app; lia|].
  rewrite Htk1 in Hs2. rewrite Hdr1 in Hp2.
  assert (length tl2 = half) as Htl2 by (by rewrite Hp2).
  assert (Forall (λ i, i < GenePool.n_genoms p) tl2) as Htl2r by (by rewrite Hp2).
  destruct (crossover_round_trace (GenePool.genoms p) (pool ++ tl2) half 0 (GenePool.distr p)
              (resize (GenePool.n_genoms p) Genom.default (GenePool.next_generation p))
              g2 (GenePool.n_genoms p) (dist_b (GenePool.distr p)))
    as (next1 & g3 & Hr1 & Hn1 & Hf1 & Htr1);
    [done|done|done|done|rewrite length_app; lia|by apply Forall_app|lia|lia
    |by rewrite length_resize|intros; lia|].
  assert (take half (pool ++ tl2) = pool) as Htk2 by (by apply take_app_length').
  assert (drop half (pool ++ tl2) = tl2) as Hdr2 by (by apply drop_app_length').
  destruct (shuffle_from_spec half (pool ++ tl2) g3) as (tl3 & g4 & Hs3 & Hp3);
    [rewrite length_app; lia|].
  rewrite Htk2 in Hs3. rewrite Hdr2 in Hp3.
  assert (length tl3 = half) as Htl3 by (by rewrite Hp3).
  assert (Forall (λ i, i < GenePool.n_genoms p) tl3) as Htl3r by (by rewrite Hp3).
  destruct (crossover_round_trace (GenePool.genoms p) (pool ++ tl3) half half (GenePool.distr p)
              next1 g4 (GenePool.n_genoms p) (dist_b (GenePool.distr p)))
    as (next2 & g5 & Hr2 & Hn2 & Hf2 & Htr2);
    [done|done|done|done|rewrite length_app; lia|by apply Forall_app|lia|lia|done|done|].
  eexists pool, g1, tl2, tl3, _, _, next2, g5.
  split_and!; [done|done|done| |done|by rewrite Hp3|exact Htr1|exact Htr2|done| | |].
  - rewrite <- Helite. symmetry. apply (take_prefix_eq _ half); [lia|].
    unfold pool. by rewrite take_take, Nat.min_id.
  - apply Forall_lookup. intros j c Hc. apply (Hf2 j); [|done].
    apply lookup_lt_Some in Hc. lia.
  - unfold GenePool.select_run.
    rewrite (lift_bind _ _ _ Hmp). cbv beta iota.
    rewrite (lift_bind _ _ _ Hs2). cbv beta iota.
    rewrite (run_bind_trace _ _ _ Hr1). cbv beta iota.
    rewrite (lift_bind _ _ _ Hs3). cbv beta iota.
    rewrite (run_bind_trace _ _ _ Hr2). cbv beta iota.
    rewrite run_bind_trace_silent; [done|]. by intros [? ?].
  - unfold GenePool.select, GenePool.select_run.
    rewrite (lift_bind _ _ _ Hmp). cbv beta iota.
    rewrite (lift_bind _ _ _ Hs2). cbv beta iota.
    rewrite (run_bind_result _ _ _ Hr1). cbv beta iota.
    rewrite (lift_bind _ _ _ Hs3). cbv beta iota.
    rewrite (run_bind_result _ _ _ Hr2). cbv beta iota.
    apply run_bind_is_Some. by intros [? ?].
Qed.

End SelectCalls.

Section SelectTheorems.
Context {N S R : Type} `{!Nucl N} `{!Scorer S} `{!RandomEngine R}.

Local Abbreviation Genom := (Genom.t N S).
Local Abbreviation GenePool := (GenePool.t N S R).

Lemma round_calls_in_order (idx : list nat) half off n L (tr : list event) :
  Forall (λ i, i < n) idx →
  Forall2 (λ i e, ∃ ia ib pt,
             idx !! i = Some ia ∧ idx !! (i + half) = Some ib
             ∧ e = Crossover ia ib (i + off) pt ∧ pt ≤ L) (seq 0 half) tr →
  Forall2 (λ j e, ∃ ia ib pt, e = Crossover ia ib j pt ∧ ia < n ∧ ib < n ∧ pt ≤ L)
          (seq off half) tr.
Proof.
  intros Hidx Htr.
  replace (seq off half) with (Nat.add off <$> seq 0 half)
    by (rewrite fmap_add_seq; f_equal; lia).
  apply Forall2_fmap_l. eapply Forall2_impl; [done|].
  intros i e (ia & ib & pt & Hia & Hib & -> & Hpt). simpl.
  exists ia, ib, pt. split_and!; [f_equal; lia| | |done].
  - by eapply (Forall_lookup_1 _ _ _ _ Hidx).
  - by eapply (Forall_lookup_1 _ _ _ _ Hidx).
Qed.

Lemma mutate_calls_no_parents (tr : list event) (js : list nat) L :
  Forall2 (λ j e, ∃ m, e = Mutate j m ∧ m ≤ L) js tr →
  first_parents tr = [] ∧ second_parents tr = []
  ∧ Forall (λ e, ∃ j m, e = Mutate j m) tr.
Proof.
  induction 1 as [|j e js tr (m & -> & _) _ (IH1 & IH2 & IH3)]; [done|].
  unfold first_parents, second_parents in *. cbn [omap list_omap].
  rewrite IH1, IH2. split_and!; [done|done|]. constructor; [by eexists _, _|done].
Qed.

(** X11. In every call of [select] (reachable pool of even size [N], elite
    count at most [N / 2]) the calls of [crossover_inplace] come first:
    exactly [N] of them, writing the staging slots [0, 1, .., N - 1] in this
    order, each with two population indices as parents and a crossover
    point in [[0, L]]; all later calls are mutations. *)
Theorem select_crossover_calls k (p : GenePool) :
  reachable k p → Nat.Even (GenePool.n_genoms p) →
  GenePool.take p ≤ GenePool.n_genoms p / 2 →
  ∃ trc trm,
    trace (GenePool.select_run p) = trc ++ trm
    ∧ Forall2 (λ j e, ∃ ia ib pt,
                 e = Crossover ia ib j pt
                 ∧ ia < GenePool.n_genoms p ∧ ib < GenePool.n_genoms p
                 ∧ pt ≤ dist_b (GenePool.distr p))
              (seq 0 (GenePool.n_genoms p)) trc
    ∧ Forall (λ e, ∃ j m, e = Mutate j m) trm.
Proof.
  intros Hreach Hev Htake.
  destruct (reachable_wf k p Hreach Hev Htake) as [Hwf _].
  pose proof (even_half _ Hev) as Hn.
  destruct (select_run_decompose p Hwf Hev Htake)
    as (pool & g1 & tl2 & tl3 & tr1 & tr2 & next2 & g5 & _ & Hpool & Hpoolr & _
        & Hp2 & Hp3 & Htr1 & Htr2 & Hn2 & Hsz2 & Htrace & _).
  destruct (mutate_each_trace (GenePool.distr p) 0 next2 g5 (dist_b (GenePool.distr p)))
    as (Hmut & _ & _); [by destruct Hwf|done|done|].
  exists (tr1 ++ tr2), (trace (GenePool.mutate_each (GenePool.distr p) 0 next2 g5)).
  split_and!.
  - by rewrite Htrace, app_assoc.
  - replace (GenePool.n_genoms p)
      with (GenePool.n_genoms p / 2 + GenePool.n_genoms p / 2) at 1 by lia.
    rewrite seq_app. apply Forall2_app.
    + eapply round_calls_in_order; [|exact Htr1]. apply Forall_app.
      split; [done|by rewrite Hp2].
    + eapply round_calls_in_order; [|exact Htr2]. apply Forall_app.
      split; [done|by rewrite Hp3].
  - by eapply mutate_calls_no_parents.
Qed.

(** X12. In every such call the mutation calls follow the [N] crossover
    calls and mutate the staging slots [0, 1, ..] in this order, each at an
    index in [[0, L]]; and [select] runs to its end exactly when it made
    [N] mutation calls, none of them at the index [L]. *)
Theorem select_mutation_calls k (p : GenePool) :
  reachable k p → Nat.Even (GenePool.n_genoms p) →
  GenePool.take p ≤ GenePool.n_genoms p / 2 →
  ∃ trc trm,
    trace (GenePool.select_run p) = trc ++ trm
    ∧ length trc = GenePool.n_genoms p
    ∧ Forall2 (λ j e, ∃ m, e = Mutate j m ∧ m ≤ dist_b (GenePool.distr p))
              (seq 0 (length trm)) trm
    ∧ length trm ≤ GenePool.n_genoms p
    ∧ (is_Some (GenePool.select p)
       ↔ length trm = GenePool.n_genoms p
         ∧ Forall (λ e, ∀ j m, e = Mutate j m → m < dist_b (GenePool.distr p)) trm).
Proof.
  intros Hreach Hev Htake.
  destruct (reachable_wf k p Hreach Hev Htake) as [Hwf _].
  pose proof (even_half _ Hev) as Hn.
  destruct (select_run_decompose p Hwf Hev Htake)
    as (pool & g1 & tl2 & tl3 & tr1 & tr2 & next2 & g5 & _ & _ & _ & _
        & _ & _ & Htr1 & Htr2 & Hn2 & Hsz2 & Htrace & Hsome).
  destruct (mutate_each_trace (GenePool.distr p) 0 next2 g5 (dist_b (GenePool.distr p)))
    as (Hmut & Hlen & Hiff); [by destruct Hwf|done|done|].
  exists (tr1 ++ tr2), (trace (GenePool.mutate_each (GenePool.distr p) 0 next2 g5)).
  split_and!.
  - by rewrite Htrace, app_assoc.
  - rewrite length_app.
    rewrite <- (Forall2_length _ _ _ Htr1), <- (Forall2_length _ _ _ Htr2).
    rewrite !length_seq. lia.
  - done.
  - lia.
  - by rewrite Hsome, Hiff, Hn2.
Qed.

(** X13. In every such call the first parents of the [N] crossover calls
    are, in order, the mating pool written twice (the index array after the
    copy), and the second parents are a reordering of the same indices:
    every parent comes from the mating pool, and each member of the pool is
    second parent as often as it is first parent. *)
Theorem select_parents k (p : GenePool) :
  reachable k p → Nat.Even (GenePool.n_genoms p) →
  GenePool.take p ≤ GenePool.n_genoms p / 2 →
  ∃ pool g,
    GenePool.mating_pool p = Some (pool ++ pool, g)
    ∧ length pool = GenePool.n_genoms p / 2
    ∧ first_parents (trace (GenePool.select_run p)) = pool ++ pool
    ∧ second_parents (trace (GenePool.select_run p)) ≡ₚ pool ++ pool.
Proof.
  intros Hreach Hev Htake.
  destruct (reachable_wf k p Hreach Hev Htake) as [Hwf _].
  destruct (select_run_decompose p Hwf Hev Htake)
    as (pool & g1 & tl2 & tl3 & tr1 & tr2 & next2 & g5 & Hmp & Hpool & _ & _
        & Hp2 & Hp3 & Htr1 & Htr2 & Hn2 & Hsz2 & Htrace & _).
  destruct (mutate_each_trace (GenePool.distr p) 0 next2 g5 (dist_b (GenePool.distr p)))
    as (Hmut & _ & _); [by destruct Hwf|done|done|].
  apply mutate_calls_no_parents in Hmut as (Hf3 & Hs3 & _).
  destruct (parents_of_round (pool ++ tl2) (GenePool.n_genoms p / 2) 0 0
              (GenePool.n_genoms p / 2) tr1) as [Hf1 Hs1].
  { eapply Forall2_impl; [exact Htr1|]. intros i e (ia & ib & pt & ? & ? & ? & _).
    by exists ia, ib, pt. }
  destruct (parents_of_round (pool ++ tl3) (GenePool.n_genoms p / 2)
              (GenePool.n_genoms p / 2) 0 (GenePool.n_genoms p / 2) tr2) as [Hf2 Hs2].
  { eapply Forall2_impl; [exact Htr2|]. intros i e (ia & ib & pt & ? & ? & ? & _).
    by exists ia, ib, pt. }
  assert (length tl2 = GenePool.n_genoms p / 2) as Htl2 by (by rewrite Hp2).
  assert (length tl3 = GenePool.n_genoms p / 2) as Htl3 by (by rewrite Hp3).
  rewrite drop_0, take_app_length' in Hf1, Hf2 by done.
  rewrite Nat.add_0_l, drop_app_length', take_ge in Hs1, Hs2 by lia.
  exists pool, g1. split_and!; [done|done| |].
  - rewrite Htrace. unfold first_parents in *.
    by rewrite !omap_app, Hf1, Hf2, Hf3, app_nil_r.
  - rewrite Htrace. unfold second_parents in *.
    by rewrite !omap_app, Hs1, Hs2, Hs3, app_nil_r, Hp2, Hp3.
Qed.

(** X14. A [select] that runs to its end (reachable pool of even size [N],
    elite count at most [N / 2]) leaves [N] children of the configured
    length as the population and the previous population in the staging
    array; the sizes, the distribution and the generation counter are
    unchanged; the index array is left holding the mating pool followed by
    a reordering of it, its first [take] slots still [0 .. take - 1]. *)
Theorem select_postconditions k (p p' : GenePool) :
  reachable k p → Nat.Even (GenePool.n_genoms p) →
  GenePool.take p ≤ GenePool.n_genoms p / 2 →
  GenePool.select p = Some p' →
  GenePool.n_genoms p' = GenePool.n_genoms p
  ∧ GenePool.take p' = GenePool.take p
  ∧ GenePool.retain p' = GenePool.retain p
  ∧ GenePool.distr p' = GenePool.distr p
  ∧ GenePool.generations p' = GenePool.generations p
  ∧ GenePool.next_generation p' = GenePool.genoms p
  ∧ length (GenePool.genoms p') = GenePool.n_genoms p
  ∧ Forall (λ c, Genom.size c = dist_b (GenePool.distr p)) (GenePool.genoms p')
  ∧ ∃ pool tl g,
      GenePool.mating_pool p = Some (pool ++ pool, g)
      ∧ GenePool.shuffle_indices p' = pool ++ tl
      ∧ tl ≡ₚ pool
      ∧ take (GenePool.take p) pool = seq 0 (GenePool.take p).
Proof.
  intros Hreach Hev Htake Hsel.
  destruct (reachable_wf k p Hreach Hev Htake) as [Hwf _].
  pose proof (select_wf p p' Hwf Hev Htake Hsel) as Hwf'.
  destruct (select_run_decompose p Hwf Hev Htake)
    as (pool & g1 & tl2 & tl3 & tr1 & tr2 & next2 & g5 & Hmp & Hpool & _ & Helite
        & Hp2 & Hp3 & _).
  pose proof Hsel as (idx1 & g1' & idx2 & g2 & next1 & g3 & idx3 & g4 & nx2 & g5'
        & next3 & g6 & Hmp' & Hs2 & _ & Hs3 & _ & _ & Hp')%select_inv.
  rewrite Hmp in Hmp'. simplify_eq.
  destruct Hwf' as [Hlen' Hsize' _ _ _ _]. cbn in Hlen', Hsize' |- *.
  split_and!; try done.
  apply shuffle_from_inv in Hs2 as (_ & Hq2 & Hl2 & Ht2).
  apply shuffle_from_inv in Hs3 as (_ & Hq3 & Hl3 & Ht3).
  eexists pool, (drop (GenePool.n_genoms p / 2) idx3), _.
  assert (take (GenePool.n_genoms p / 2) idx3 = pool) as Htk.
  { rewrite Ht3, Ht2. by apply take_app_length'. }
  split_and!; [exact Hmp| | |done].
  - by rewrite <- Htk, take_drop.
  - apply (Permutation_app_inv_l pool).
    rewrite <- Htk at 1. by rewrite take_drop, Hq3, Hq2.
Qed.

End SelectTheorems.

(* ================================================================== *)
(** * GenePool: an odd population size *)
(* ================================================================== *)

Section OddSize.
Context {N S R : Type} `{!Nucl N} `{!Scorer S} `{!RandomEngine R}.

Local Abbreviation Genom := (Genom.t N S).
Local Abbreviation GenePool := (GenePool.t N S R).

(** One iteration of a crossover loop writes its own slot only. *)
Lemma crossover_step_frame (gs : list Genom) idx half off d i next (g : R) next' g' :
  result (GenePool.crossover_step gs idx half off d i (next, g)) = Some (next', g') →
  length next' = length next ∧ ∀ j, j ≠ i + off → next' !! j = next !! j.
Proof.
  unfold GenePool.crossover_step. intros Hres.
  apply run_bind_Some in Hres as (ia & _ & Hres).
  apply run_bind_Some in Hres as (ib & _ & Hres).
  apply run_bind_Some in Hres as (a & _ & Hres).
  apply run_bind_Some in Hres as (b & _ & Hres).
  apply run_bind_Some in Hres as (c & _ & Hres).
  destruct (draw d g) as [pt g1].
  apply run_bind_Some in Hres as ([] & _ & Hres).
  apply run_bind_Some in Hres as (c' & _ & Hres).
  simpl in Hres. simplify_eq. split; [apply length_insert|].
  intros j Hj. by apply list_lookup_insert_ne.
Qed.

Lemma crossover_round_frame (gs : list Genom) idx half off d s k next (g : R) next' g' :
  result (run_each (GenePool.crossover_step gs idx half off d) (seq s k) (next, g))
  = Some (next', g') →
  length next' = length next
  ∧ ∀ j, ¬ (s + off ≤ j < s + k + off) → next' !! j = next !! j.
Proof.
  revert s next g. induction k as [|k IH]; intros s next g Hres.
  { simpl in Hres. by simplify_eq. }
  change (seq s (Datatypes.S k)) with (s :: seq (Datatypes.S s) k) in Hres.
  change (run_each ?body (s :: ?l) ?st) with (body s st ≫= run_each body l) in Hres.
  apply run_bind_Some in Hres as ([next1 g1] & Hstep & Hres).
  apply crossover_step_frame in Hstep as [Hlen1 Hframe1].
  apply IH in Hres as [Hlen Hframe].
  split; [lia|]. intros j Hj. rewrite Hframe, Hframe1 by lia. done.
Qed.

(** A mutation loop that ran to its end found a nucleotide in every
    Genom. *)
Lemma mutate_each_nonempty d slot (next next' : list Genom) (g g' : R) :
  result (GenePool.mutate_each d slot next g) = Some (next', g') →
  Forall (λ c, 0 < Genom.size c) next.
Proof.
  revert slot next' g g'. induction next as [|c rest IH]; intros slot next' g g' Hres.
  { constructor. }
  simpl in Hres. destruct (draw d g) as [n g1].
  apply run_bind_Some in Hres as ([] & _ & Hres).
  apply run_bind_Some in Hres as ([c' g2] & Hmut & Hres).
  apply run_bind_Some in Hres as ([rest' g3] & Hrest & Hres).
  simpl in Hmut. constructor; [|by eapply IH].
  destruct (decide (0 < Genom.size c)) as [|Hz]; [done|].
  rewrite mutate_out_of_range in Hmut by lia. done.
Qed.

(** With an odd size and an empty staging array the crossover loops leave
    the last staging slot a Genom without nucleotides, which the mutation
    loop cannot mutate. *)
Lemma select_odd_fresh (p : GenePool) :
  Nat.Odd (GenePool.n_genoms p) → GenePool.next_generation p = [] →
  GenePool.select p = None.
Proof.
  intros [h Hodd] Hfresh.
  destruct (GenePool.select p) as [p'|] eqn:Hsel; [|done]. exfalso.
  apply select_inv in Hsel
    as (idx1 & g1 & idx2 & g2 & next1 & g3 & idx3 & g4 & next2 & g5 & next3 & g6
        & _ & _ & Hr1 & _ & Hr2 & Hmut & _).
  assert (GenePool.n_genoms p / 2 = h) as Hhalf.
  { rewrite Hodd. symmetry. apply (Nat.div_unique _ 2 h 1); lia. }
  rewrite Hhalf, Hfresh in *.
  apply crossover_round_frame in Hr1 as [Hl1 Hf1].
  apply crossover_round_frame in Hr2 as [Hl2 Hf2].
  rewrite length_resize in Hl1.
  assert (next2 !! (2 * h) = Some Genom.default) as Hlast.
  { rewrite Hf2, Hf1 by lia. apply lookup_resize_new; simpl; lia. }
  apply mutate_each_nonempty in Hmut.
  pose proof (Forall_lookup_1 _ _ _ _ Hmut Hlast) as Hpos.
  unfold Genom.size, Genom.default in Hpos. simpl in Hpos. lia.
Qed.

Lemma reachable_odd k (p : GenePool) :
  reachable k p → Nat.Odd (GenePool.n_genoms p) →
  GenePool.next_generation p = [] ∧ GenePool.select p = None.
Proof.
  induction 1 as [n len f p Hnew|k sim p Hr IH Hsim|k n p p' Hr IH Hs|k p Hr IH
                 |k p p' Hr IH Hsel]; intros Hodd.
  - apply new_inv in Hnew as (tk & rt & _ & _ & ->).
    split; [done|]. by apply select_odd_fresh.
  - destruct (IH Hodd) as [Hfresh _]. split; [done|]. by apply select_odd_fresh.
  - unfold GenePool.shift in Hs.
    destruct (mapM _ _) as [gs|]; [|done]. simplify_eq/=.
    destruct (IH Hodd) as [Hfresh _]. split; [done|]. by apply select_odd_fresh.
  - destruct (IH Hodd) as [Hfresh _]. split; [done|]. by apply select_odd_fresh.
  - destruct (select_fields _ _ Hsel) as (Hn & _ & _). rewrite Hn in Hodd.
    destruct (IH Hodd) as [_ Hnone]. congruence.
Qed.

(** X15. With an odd population size [select] is never defined: in every
    reachable state the crossover loops fill the staging slots
    [0 .. N - 2] only, and the mutation loop then meets a Genom without
    nucleotides in the last slot, whatever the engine draws. *)
Theorem select_odd_size k (p : GenePool) :
  reachable k p → Nat.Odd (GenePool.n_genoms p) → GenePool.select p = None.
Proof. intros Hreach Hodd. by destruct (reachable_odd k p Hreach Hodd). Qed.

End OddSize.

(* ================================================================== *)
(** * The nucleotide and the simulator of the test *)
(* ================================================================== *)

Section RoundingFacts.

Lemma iter_pos_inv {A} (P : A → Prop) (f : A → A) :
  (∀ x, P x → P (f x)) → ∀ p x, P x → P (SpecFloat.iter_pos f p x).
Proof. intros Hf. induction p as [p IH|p IH|]; simpl; auto. Qed.

Lemma shr_1_nonneg mrs : (0 ≤ shr_m mrs)%Z → (0 ≤ shr_m (shr_1 mrs))%Z.
Proof. destruct mrs as [m r s]. destruct m as [|[p|p|]|[p|p|]]; simpl; lia. Qed.

Lemma shr_fexp_nonneg prec emax m e l :
  (0 ≤ m)%Z → (0 ≤ shr_m (shr_fexp prec emax m e l).1)%Z.
Proof.
  intros Hm. unfold shr_fexp, shr.
  assert (0 ≤ shr_m (shr_record_of_loc m l))%Z as Hrec
    by (destruct l as [|[]]; simpl; lia).
  destruct (fexp prec emax (Zdigits2 m + e) - e)%Z; simpl; try done.
  apply (iter_pos_inv (λ mrs, 0 ≤ shr_m mrs)%Z); [apply shr_1_nonneg|done].
Qed.

Lemma round_nearest_even_nonneg m l : (0 ≤ m)%Z → (0 ≤ round_nearest_even m l)%Z.
Proof. intros Hm. destruct l as [|[]]; simpl; try lia. destruct (Z.even m); lia. Qed.

(** Rounding a non-negative mantissa never gives NaN. *)
Lemma binary_round_aux_not_nan prec emax s m e l :
  (0 ≤ m)%Z → Float.is_nan (binary_round_aux prec emax s m e l) = false.
Proof.
  intros Hm. unfold binary_round_aux.
  pose proof (shr_fexp_nonneg prec emax m e l Hm) as H1.
  destruct (shr_fexp prec emax m e l) as [mrs' e']. simpl in H1.
  pose proof (shr_fexp_nonneg prec emax
                (round_nearest_even (shr_m mrs') (loc_of_shr_record mrs')) e' loc_Exact
                (round_nearest_even_nonneg _ _ H1)) as H2.
  destruct (shr_fexp prec emax _ e' loc_Exact) as [mrs'' e'']. simpl in H2.
  destruct (shr_m mrs''); [done| |lia].
  by destruct (e'' <=? emax - prec)%Z.
Qed.

Lemma of_Z_not_nan prec emax z : Float.is_nan (Float.of_Z prec emax z) = false.
Proof.
  unfold Float.of_Z, binary_normalize, binary_round. destruct z as [|p|p]; [done|..].
  - destruct (shl_align _ _ _). by apply binary_round_aux_not_nan.
  - destruct (shl_align _ _ _). by apply binary_round_aux_not_nan.
Qed.

(** [1.0f / y] is not NaN when [y] is not. *)
Lemma one_div_not_nan y :
  Float.is_nan y = false →
  Float.is_nan (SFdiv Float.prec32 Float.emax32 Simulator.one y) = false.
Proof.
  intros Hy. destruct y as [s|s| |s m e]; [done|done|done|].
  unfold SFdiv, Simulator.one.
  destruct (SFdiv_core_binary _ _ _ _ _ _) as [[mz ez] lz] eqn:Hcore.
  apply binary_round_aux_not_nan.
  unfold SFdiv_core_binary in Hcore.
  match type of Hcore with
  | (let '(q, r) := Z.div_eucl ?a ?b in _) = _ =>
      pose proof (Z_div_mod a b ltac:(done)) as Hdiv;
      assert (0 ≤ a)%Z as Ha; [|destruct (Z.div_eucl a b) as [q r]]
  end.
  { match goal with |- (0 ≤ match ?x with _ => _ end)%Z => destruct x end;
      [done|apply Z.shiftl_nonneg; lia|done]. }
  simplify_eq. nia.
Qed.

End RoundingFacts.

(* ================================================================== *)
(** * The score [1.0f / k] of the test's simulator *)
(* ================================================================== *)

Section DivisionFacts.

Local Open Scope Z_scope.

Lemma digits2_pos_bounds p :
  2 ^ (Z.pos (digits2_pos p) - 1) ≤ Z.pos p < 2 ^ Z.pos (digits2_pos p).
Proof.
  induction p as [p IH|p IH|]; simpl digits2_pos; [| |simpl; lia].
  - rewrite Pos2Z.inj_succ. change (Z.pos p~1) with (2 * Z.pos p + 1).
    replace (Z.succ (Z.pos (digits2_pos p)) - 1) with (Z.succ (Z.pos (digits2_pos p) - 1)) by lia.
    rewrite !Z.pow_succ_r by lia. lia.
  - rewrite Pos2Z.inj_succ. change (Z.pos p~0) with (2 * Z.pos p).
    replace (Z.succ (Z.pos (digits2_pos p)) - 1) with (Z.succ (Z.pos (digits2_pos p) - 1)) by lia.
    rewrite !Z.pow_succ_r by lia. lia.
Qed.

(** A non-negative mantissa below [2^c] has at most [c] digits. *)
Lemma Zdigits2_le m c : 0 ≤ m → 0 ≤ c → m ≤ 2 ^ c → Zdigits2 m ≤ c + 1.
Proof.
  intros Hm Hc Hle. destruct m as [|p|p]; simpl; [lia| |lia].
  pose proof (digits2_pos_bounds p) as [Hlo _].
  destruct (Z_lt_le_dec (c + 1) (Z.pos (digits2_pos p))) as [Hlt|]; [|done].
  assert (2 ^ (c + 1) ≤ 2 ^ (Z.pos (digits2_pos p) - 1)) by (apply Z.pow_le_mono_r; lia).
  rewrite Z.pow_add_r in * by lia. lia.
Qed.

Lemma shr_1_half mrs : 0 ≤ shr_m mrs → shr_m (shr_1 mrs) = shr_m mrs / 2.
Proof.
  destruct mrs as [m r s]. destruct m as [|[p|p|]|p]; simpl; intros Hm; try done.
  - change (Z.pos p~1) with (2 * Z.pos p + 1). apply (Z.div_unique _ _ _ 1); lia.
  - change (Z.pos p~0) with (2 * Z.pos p). apply (Z.div_unique _ _ _ 0); lia.
Qed.

Lemma iter_shr_1 p mrs :
  0 ≤ shr_m mrs →
  shr_m (SpecFloat.iter_pos shr_1 p mrs) = shr_m mrs / 2 ^ Z.pos p.
Proof.
  revert mrs. induction p as [p IH|p IH|]; intros mrs Hm; simpl SpecFloat.iter_pos.
  - assert (0 ≤ shr_m (shr_1 mrs)) as H1 by (rewrite shr_1_half by done; apply Z.div_pos; lia).
    assert (0 ≤ shr_m (SpecFloat.iter_pos shr_1 p (shr_1 mrs))) as H2.
    { rewrite IH by done. apply Z.div_pos; [done|]. apply Z.pow_pos_nonneg; lia. }
    rewrite IH, IH, shr_1_half by done.
    rewrite !Z.div_div by (try apply Z.pow_pos_nonneg; lia).
    f_equal. rewrite Pos2Z.inj_xI, <- Z.pow_add_r, <- (Z.pow_1_r 2) at 1 by lia.
    rewrite <- Z.pow_add_r by lia. f_equal. lia.
  - assert (0 ≤ shr_m (SpecFloat.iter_pos shr_1 p mrs)) as H2.
    { rewrite IH by done. apply Z.div_pos; [done|]. apply Z.pow_pos_nonneg; lia. }
    rewrite IH, IH by done.
    rewrite !Z.div_div by (try apply Z.pow_pos_nonneg; lia).
    f_equal. rewrite Pos2Z.inj_xO, <- Z.pow_add_r by lia. f_equal. lia.
  - rewrite shr_1_half by done. by rewrite Z.pow_1_r.
Qed.

Lemma shr_fexp_spec prec emax m e l :
  0 ≤ m →
  (shr_fexp prec emax m e l).2 = Z.max e (fexp prec emax (Zdigits2 m + e))
  ∧ shr_m (shr_fexp prec emax m e l).1
    = m / 2 ^ (Z.max e (fexp prec emax (Zdigits2 m + e)) - e).
Proof.
  intros Hm. unfold shr_fexp, shr.
  assert (shr_m (shr_record_of_loc m l) = m) as Hrec by (by destruct l as [|[]]).
  destruct (fexp prec emax (Zdigits2 m + e) - e) as [|p|p] eqn:E; cbn [fst snd].
  - rewrite Hrec. replace (Z.max _ _) with e by lia.
    by rewrite Z.sub_diag, Z.pow_0_r, Z.div_1_r.
  - rewrite iter_shr_1 by (rewrite Hrec; done). rewrite Hrec.
    replace (Z.max _ _) with (e + Z.pos p) by lia.
    split; [done|]. f_equal. f_equal. lia.
  - rewrite Hrec. replace (Z.max _ _) with e by lia.
    by rewrite Z.sub_diag, Z.pow_0_r, Z.div_1_r.
Qed.

Lemma round_nearest_even_bounds m l :
  m ≤ round_nearest_even m l ≤ m + 1.
Proof. destruct l as [|[]]; simpl; try lia. destruct (Z.even m); lia. Qed.

Lemma pow2_div_lower m b n : 0 ≤ n ≤ b → 2 ^ b ≤ m → 2 ^ (b - n) ≤ m / 2 ^ n.
Proof.
  intros Hn Hm. apply Z.div_le_lower_bound; [apply Z.pow_pos_nonneg; lia|].
  rewrite <- Z.pow_add_r by lia. by replace (n + (b - n)) with b by lia.
Qed.

Lemma pow2_div_upper m b n : 0 ≤ n ≤ b → m ≤ 2 ^ b → m / 2 ^ n ≤ 2 ^ (b - n).
Proof.
  intros Hn Hm. apply Z.div_le_upper_bound; [apply Z.pow_pos_nonneg; lia|].
  rewrite <- Z.pow_add_r by lia. by replace (n + (b - n)) with b by lia.
Qed.

(** The rounding, written out: the mantissa is shifted to the exponent
    [E1], rounded to [m1], and shifted once more to the exponent [E2]. *)
Lemma binary_round_aux_spec prec emax s m e l :
  0 ≤ m →
  ∃ m1 E1 E2 m2,
    E1 = Z.max e (fexp prec emax (Zdigits2 m + e))
    ∧ m / 2 ^ (E1 - e) ≤ m1 ≤ m / 2 ^ (E1 - e) + 1
    ∧ E2 = Z.max E1 (fexp prec emax (Zdigits2 m1 + E1))
    ∧ m2 = m1 / 2 ^ (E2 - E1)
    ∧ 0 ≤ m / 2 ^ (E1 - e)
    ∧ binary_round_aux prec emax s m e l
      = match m2 with
        | 0 => S754_zero s
        | Z.pos p => if E2 <=? emax - prec then S754_finite s p E2 else S754_infinity s
        | Z.neg _ => S754_nan
        end.
Proof.
  intros Hm. unfold binary_round_aux.
  destruct (shr_fexp_spec prec emax m e l Hm) as [HE1 Hm'].
  destruct (shr_fexp prec emax m e l) as [mrs' e']. cbn [fst snd] in HE1, Hm'.
  pose proof (round_nearest_even_bounds (shr_m mrs') (loc_of_shr_record mrs')) as Hround.
  set (m1 := round_nearest_even (shr_m mrs') (loc_of_shr_record mrs')) in *.
  assert (0 ≤ shr_m mrs') as Hm'0.
  { rewrite Hm'. apply Z.div_pos; [done|]. apply Z.pow_pos_nonneg; lia. }
  assert (0 ≤ m1) as Hm1 by lia.
  destruct (shr_fexp_spec prec emax m1 e' loc_Exact Hm1) as [HE2 Hm2].
  destruct (shr_fexp prec emax m1 e' loc_Exact) as [mrs2 e2]. cbn [fst snd] in HE2, Hm2.
  rewrite <- HE1 in Hm'. rewrite <- HE2 in Hm2.
  exists m1, e', e2, (shr_m mrs2). rewrite <- Hm'. repeat split; try done; apply Hround.
Qed.

(** Rounding a value of at least 1 gives a value of at least 1, or
    infinity. *)
Lemma binary_round_aux_ge_one prec emax s m e l :
  0 < prec → emin prec emax ≤ 0 →
  0 < m → (e ≤ 0 → 2 ^ (- e) ≤ m) →
  binary_round_aux prec emax s m e l = S754_infinity s
  ∨ ∃ m'' e'',
      binary_round_aux prec emax s m e l = S754_finite s m'' e''
      ∧ (e'' ≤ 0 → 2 ^ (- e'') ≤ Z.pos m'').
Proof.
  intros Hprec Hemin Hm Hlb.
  destruct (binary_round_aux_spec prec emax s m e l) as
    (m1 & E1 & E2 & m2 & HE1 & Hm1 & HE2 & Hm2 & Hm'0 & ->); [lia|].
  assert (∀ x b n : Z, 0 < x → (b ≤ 0 → 2 ^ (- b) ≤ x) →
            n = Z.max b (fexp prec emax (Zdigits2 x + b)) →
            0 < x / 2 ^ (n - b) ∧ (n ≤ 0 → 2 ^ (- n) ≤ x / 2 ^ (n - b))) as Hstep.
  { intros x b n Hx Hb ->. split.
    - destruct (Z_le_gt_dec (Z.max b (fexp prec emax (Zdigits2 x + b))) 0) as [Hn|Hn].
      + assert (2 ^ (- b - (Z.max b (fexp prec emax (Zdigits2 x + b)) - b))
                ≤ x / 2 ^ (Z.max b (fexp prec emax (Zdigits2 x + b)) - b)) as Hle.
        { apply pow2_div_lower; [lia|]. apply Hb. lia. }
        eapply Z.lt_le_trans; [|exact Hle]. apply Z.pow_pos_nonneg; lia.
      + destruct x as [|p|p]; [lia| |lia]. simpl Zdigits2 in *.
        pose proof (digits2_pos_bounds p) as [Hlo _].
        unfold fexp, emin in *.
        destruct (Z_le_gt_dec (Z.max b (Z.max (Z.pos (digits2_pos p) + b - prec)
                                          (3 - emax - prec)) - b)
                              (Z.pos (digits2_pos p) - 1)) as [Hsh|Hsh].
        * eapply Z.lt_le_trans; [|apply Z.div_le_lower_bound;
            [apply Z.pow_pos_nonneg; lia|rewrite Z.mul_1_r]].
          { lia. }
          etrans; [|exact Hlo]. apply Z.pow_le_mono_r; lia.
        * assert (b ≤ 0 ∨ 0 < b) as [Hb0|Hb0] by lia.
          -- specialize (Hb Hb0).
             assert (2 ^ (- b) < 2 ^ Z.pos (digits2_pos p)) as Hlt by
               (pose proof (digits2_pos_bounds p); lia).
             apply Z.pow_lt_mono_r_iff in Hlt; lia.
          -- lia.
    - intros Hn.
      replace (- Z.max b (fexp prec emax (Zdigits2 x + b)))
        with (- b - (Z.max b (fexp prec emax (Zdigits2 x + b)) - b)) by lia.
      apply pow2_div_lower; [lia|]. apply Hb. lia. }
  destruct (Hstep m e E1 Hm Hlb HE1) as [Hpos1 Hlb1].
  assert (0 < m1) as Hm1pos by lia.
  destruct (Hstep m1 E1 E2 Hm1pos ltac:(lia) HE2) as [Hpos2 Hlb2].
  rewrite <- Hm2 in Hpos2, Hlb2.
  destruct m2 as [|p|p]; [lia| |lia].
  destruct (E2 <=? emax - prec); [right|by left]. by exists p, E2.
Qed.

(** Rounding a single-precision value of at most 1 gives zero or a finite
    number with an exponent of at most [-22]. *)
Lemma binary_round_aux_le_one s m e l :
  0 ≤ m → e ≤ -24 → m ≤ 2 ^ (- e) →
  binary_round_aux Float.prec32 Float.emax32 s m e l = S754_zero s
  ∨ ∃ m'' e'',
      binary_round_aux Float.prec32 Float.emax32 s m e l = S754_finite s m'' e''
      ∧ e'' ≤ -22.
Proof.
  intros Hm He Hub.
  destruct (binary_round_aux_spec Float.prec32 Float.emax32 s m e l Hm) as
    (m1 & E1 & E2 & m2 & HE1 & Hm1 & HE2 & Hm2 & Hm'0 & ->).
  pose proof (Zdigits2_le m (- e) Hm ltac:(lia) Hub) as Hd.
  unfold fexp, emin, Float.prec32, Float.emax32 in *.
  assert (e ≤ E1 ≤ -23) as HE1' by lia.
  assert (m / 2 ^ (E1 - e) ≤ 2 ^ (- E1)) as Hm'.
  { replace (- E1) with (- e - (E1 - e)) by lia. apply pow2_div_upper; [lia|done]. }
  assert (m1 ≤ 2 ^ (1 - E1)) as Hm1'.
  { replace (1 - E1) with (Z.succ (- E1)) by lia. rewrite Z.pow_succ_r by lia.
    assert (0 < 2 ^ (- E1)) by (apply Z.pow_pos_nonneg; lia). lia. }
  pose proof (Zdigits2_le m1 (1 - E1) ltac:(lia) ltac:(lia) Hm1') as Hd1.
  assert (E2 ≤ -22) as HE2' by lia.
  destruct m2 as [|p|p].
  - by left.
  - right. exists p, E2. split; [|done].
    by replace (E2 <=? 128 - 24) with true by (symmetry; apply Z.leb_le; lia).
  - assert (0 ≤ m1 / 2 ^ (E2 - E1)) by (apply Z.div_pos; [lia|apply Z.pow_pos_nonneg; lia]).
    lia.
Qed.

(** An integer other than 0 converts to an infinity or to a number of
    absolute value at least 1, of its sign. *)
Lemma of_Z_ge_one k :
  k ≠ 0 →
  Float.of_Z Float.prec32 Float.emax32 k = S754_infinity (k <? 0)
  ∨ ∃ m e,
      Float.of_Z Float.prec32 Float.emax32 k = S754_finite (k <? 0) m e
      ∧ (e ≤ 0 → 2 ^ (- e) ≤ Z.pos m).
Proof.
  intros Hk.
  assert (∀ s p, binary_round Float.prec32 Float.emax32 s p 0 = S754_infinity s
            ∨ ∃ m e, binary_round Float.prec32 Float.emax32 s p 0 = S754_finite s m e
                   ∧ (e ≤ 0 → 2 ^ (- e) ≤ Z.pos m)) as Hround.
  { intros s p. unfold binary_round, shl_align.
    destruct (fexp _ _ _ - 0) as [|d|d] eqn:E.
    - apply binary_round_aux_ge_one; [done|done|lia|]. intros _. simpl. lia.
    - apply binary_round_aux_ge_one; [done|done|lia|]. intros _. simpl. lia.
    - apply binary_round_aux_ge_one; [done|done|lia|]. intros _.
      change (Pos.iter xO p d) with (shift_pos d p).
      rewrite shift_pos_correct, Z.pow_pos_fold.
      replace (- fexp Float.prec32 Float.emax32 (Z.pos (digits2_pos p) + 0))
        with (Z.pos d) by lia.
      assert (0 < 2 ^ Z.pos d) by (apply Z.pow_pos_nonneg; lia). nia. }
  destruct k as [|p|p]; [done|apply Hround|apply Hround].
Qed.

(** [1.0f / y] for a finite [y] of value at least 1 is zero or has an
    exponent of at most [-22]; [10.0f] has the exponent [-20]. *)
Lemma one_div_exponent sy my ey :
  (ey ≤ 0 → 2 ^ (- ey) ≤ Z.pos my) →
  SFdiv Float.prec32 Float.emax32 Simulator.one (S754_finite sy my ey) = S754_zero sy
  ∨ ∃ m e,
      SFdiv Float.prec32 Float.emax32 Simulator.one (S754_finite sy my ey)
      = S754_finite sy m e
      ∧ e ≤ -22.
Proof.
  intros Hlb. unfold SFdiv, Simulator.one.
  destruct (SFdiv_core_binary _ _ _ _ _ _) as [[mz ez] lz] eqn:Hcore.
  unfold SFdiv_core_binary in Hcore.
  change (Zdigits2 8388608) with 24 in Hcore.
  set (d2 := Zdigits2 (Z.pos my)) in *.
  assert (1 ≤ d2 + ey) as Hd2.
  { pose proof (digits2_pos_bounds my) as [_ Hhi]. subst d2. simpl Zdigits2.
    destruct (Z_le_gt_dec ey 0) as [Hey|]; [|lia].
    specialize (Hlb Hey).
    destruct (Z_lt_le_dec (- ey) (Z.pos (digits2_pos my))) as [|Hge]; [lia|].
    assert (2 ^ Z.pos (digits2_pos my) ≤ 2 ^ (- ey)) by (apply Z.pow_le_mono_r; lia). lia. }
  set (ez' := Z.min (fexp Float.prec32 Float.emax32 (24 + -23 - (d2 + ey))) (-23 - ey)) in *.
  assert (ez' ≤ -24 ∧ ez' ≤ -23 - ey) as [Hez1 Hez2].
  { subst ez'. unfold fexp, emin, Float.prec32, Float.emax32. lia. }
  assert (match -23 - ey - ez' with
          | 0 => 8388608
          | Z.pos _ => Z.shiftl 8388608 (-23 - ey - ez')
          | Z.neg _ => 0
          end = 2 ^ (- ey - ez')) as Hm'.
  { destruct (-23 - ey - ez') as [|p|p] eqn:Es; [| |lia].
    - replace (- ey - ez') with 23 by lia. done.
    - rewrite Z.shiftl_mul_pow2 by lia. change 8388608 with (2 ^ 23).
      rewrite <- Z.pow_add_r by lia. f_equal. lia. }
  rewrite Hm' in Hcore.
  pose proof (Z_div_mod (2 ^ (- ey - ez')) (Z.pos my) ltac:(done)) as Hdiv.
  assert (Z.div_eucl (2 ^ (- ey - ez')) (Z.pos my)
          = (2 ^ (- ey - ez') / Z.pos my, 2 ^ (- ey - ez') mod Z.pos my)) as Hde.
  { unfold Z.div, Z.modulo. by destruct (Z.div_eucl _ _). }
  rewrite Hde in Hcore. injection Hcore as <- <- <-.
  change (xorb false sy) with sy.
  apply binary_round_aux_le_one; [|done|].
  - apply Z.div_pos; [|done]. apply Z.lt_le_incl, Z.pow_pos_nonneg; lia.
  - apply Z.div_le_upper_bound; [done|].
    assert (0 < 2 ^ (- ez')) by (apply Z.pow_pos_nonneg; lia).
    destruct (Z_le_gt_dec ey 0) as [Hey|Hey].
    + replace (- ey - ez') with (- ey + - ez') by lia. rewrite Z.pow_add_r by lia.
      specialize (Hlb Hey). nia.
    + assert (2 ^ (- ey - ez') ≤ 2 ^ (- ez')) by (apply Z.pow_le_mono_r; lia). nia.
Qed.

(** [1.0f / k] for an integer [k] other than 0 is below [10.0f]. *)
Lemma one_div_of_Z_below_ten k :
  k ≠ 0 →
  Float.ge (SFdiv Float.prec32 Float.emax32 Simulator.one
              (Float.of_Z Float.prec32 Float.emax32 k))
           Simulator.ten = false.
Proof.
  intros Hk.
  destruct (of_Z_ge_one k Hk) as [->|(my & ey & -> & Hlb)]; [done|].
  destruct (one_div_exponent (k <? 0) my ey Hlb) as [->|(m & e & -> & He)]; [done|].
  unfold Float.ge, SFleb, SFcompare, Simulator.ten.
  destruct (k <? 0); [done|].
  by replace (-20 ?= e) with Gt by (symmetry; apply Z.compare_gt_iff; lia).
Qed.

(** No score [1.0f / k] is [10.0f]. *)
Lemma one_div_of_Z_not_ten k :
  SFdiv Float.prec32 Float.emax32 Simulator.one
    (Float.of_Z Float.prec32 Float.emax32 k) ≠ Simulator.ten.
Proof.
  destruct (Z.eq_dec k 0) as [->|Hk]; [done|].
  intros Hdiv. pose proof (one_div_of_Z_below_ten k Hk) as Hlt.
  rewrite Hdiv in Hlt. done.
Qed.

End DivisionFacts.

Section GenericFacts.
Context {N S : Type} `{!Nucl N} `{!Scorer S}.

Local Abbreviation Genom := (Genom.t N S).

Lemma push_random_Forall `{RandomEngine R} (P : N → Prop) n (ns : list N) (g : R) :
  (∀ g0 : R, P (nucl_random g0).1) →
  Forall P ns → Forall P (Genom.push_random n ns g).1.
Proof.
  intros Hrandom. revert ns g. induction n as [|n IH]; intros ns g Hns; simpl; [done|].
  pose proof (Hrandom g) as Hx. destruct (nucl_random g) as [x g'].
  apply IH. apply Forall_app. split; [done|]. by constructor.
Qed.

Lemma random_Forall `{RandomEngine R} (P : N → Prop) n (g : R) :
  (∀ g0 : R, P (nucl_random g0).1) →
  Forall P (Genom.nucleotides (Genom.random n g).1).
Proof.
  intros Hrandom. unfold Genom.random.
  pose proof (push_random_Forall P n (Genom.nucleotides Genom.default) g Hrandom) as Hall.
  destruct (Genom.push_random n _ g) as [ns g']. apply Hall. constructor.
Qed.

Lemma for_each_ext {St} (f f' : nat → St → option St) ixs s :
  (∀ i s0, f i s0 = f' i s0) → for_each f ixs s = for_each f' ixs s.
Proof.
  intros Hff. revert s. induction ixs as [|i ixs IH]; intros s; [done|].
  rewrite !for_each_cons, Hff. destruct (f' i s); simpl; [apply IH|done].
Qed.

Lemma for_each_app {St} (f : nat → St → option St) ixs1 ixs2 s :
  for_each f (ixs1 ++ ixs2) s = for_each f ixs1 s ≫= for_each f ixs2.
Proof.
  revert s. induction ixs1 as [|i ixs1 IH]; intros s; [done|].
  cbn [app]. rewrite !for_each_cons.
  destruct (f i s) as [s1|]; simpl; [apply IH|done].
Qed.

(** X16. When the nucleotide crossover does not depend on the order of its
    two parents, neither the crossover point nor the order of the parent
    Genoms matters: for parents of equal length, any two points inside
    them give the same child. *)
Theorem crossover_point_irrelevant (a b out : Genom) (n m : nat) :
  (∀ x y z : N, nucl_crossover_inplace x y z = nucl_crossover_inplace y x z) →
  Genom.size a = Genom.size b → n ≤ Genom.size a → m ≤ Genom.size a →
  Genom.crossover_inplace a b out n = Genom.crossover_inplace b a out m.
Proof.
  unfold Genom.size. intros Hcomm Hab Hn Hm.
  assert (∀ i c, Genom.cross_at (Genom.nucleotides b) (Genom.nucleotides a) i c
                 = Genom.cross_at (Genom.nucleotides a) (Genom.nucleotides b) i c)
    as Hswap.
  { intros i c. unfold Genom.cross_at.
    destruct (Genom.nucleotides b !! i), (Genom.nucleotides a !! i), (c !! i);
      simpl; try done. by rewrite Hcomm. }
  assert (∀ (x y : list N) k c0,
            (∀ i c, Genom.cross_at y x i c = Genom.cross_at x y i c) →
            k ≤ length x →
            (for_each (Genom.cross_at x y) (seq 0 k) c0
               ≫= λ c1, for_each (Genom.cross_at y x) (seq k (length x - k)) c1
               ≫= λ c2, Some {| Genom.nucleotides := c2; Genom.scorer := Genom.scorer out |})
            = for_each (Genom.cross_at x y) (seq 0 (length x)) c0
              ≫= λ c, Some {| Genom.nucleotides := c; Genom.scorer := Genom.scorer out |})
    as Hone.
  { intros x y k c0 Hxy Hk.
    assert (seq 0 (length x) = seq 0 k ++ seq k (length x - k)) as ->.
    { replace (length x) with (k + (length x - k)) at 1 by lia. by rewrite seq_app. }
    rewrite for_each_app.
    destruct (for_each _ (seq 0 k) c0) as [c1|]; simpl; [|done].
    by rewrite (for_each_ext _ _ _ _ Hxy). }
  unfold Genom.crossover_inplace. cbv zeta.
  rewrite (Hone _ _ n _ Hswap Hn).
  rewrite (Hone _ _ m _ (λ i c, eq_sym (Hswap i c))) by lia.
  rewrite <- Hab. by rewrite (for_each_ext _ _ _ _ Hswap).
Qed.

(** The descending order that [std::sort(rbegin, rend)] leaves when no
    score is NaN. *)
Lemma sort_reversed_descending (gs : list Genom) :
  (∀ g, g ∈ gs → Float.is_nan (Genom.score g) = false) →
  sorted_descending (Std.sort_reversed Genom.lt gs).
Proof.
  intros Hnan i x y Hx Hy.
  assert (∀ g, g ∈ Std.sort_reversed Genom.lt gs → Float.is_nan (Genom.score g) = false)
    as Hnan'.
  { intros g Hg. rewrite sort_reversed_perm in Hg. by apply Hnan. }
  apply float_not_lt_ge.
  - apply Hnan'. by eapply list_elem_of_lookup_2.
  - apply Hnan'. by eapply list_elem_of_lookup_2.
  - eapply (sort_reversed_adjacent Genom.lt genom_lt_asym); [exact Hx|exact Hy].
Qed.

End GenericFacts.

Section TestFacts.
Context `{RandomEngine R}.

Local Abbreviation TestGenom := (Genom.t IntNucl.t TestScorer.t).

Lemma int_nucl_random_range (g : R) :
  (-5 ≤ IntNucl.value (IntNucl.random g).1 ≤ 5)%Z.
Proof.
  unfold IntNucl.random, IntNucl.dist.
  pose proof (uniform_int_range (-5) 5 g) as Hr.
  destruct (uniform_int (-5) 5 g) as [v g']. simpl in *. lia.
Qed.

Lemma test_pool_initial_bound (n len : nat) (f : spec_float)
    (p : GenePool.t IntNucl.t TestScorer.t R) :
  GenePool.new n len f = Some p →
  Forall (λ g, Forall (λ x, (-5 ≤ IntNucl.value x ≤ 5)%Z) (Genom.nucleotides g))
         (GenePool.genoms p).
Proof.
  intros (tk & rt & _ & _ & ->)%new_inv. cbn [GenePool.genoms].
  apply push_genoms_Forall; [|constructor].
  intros g0. apply (random_Forall (λ x, (-5 ≤ IntNucl.value x ≤ 5)%Z)).
  apply int_nucl_random_range.
Qed.

(** X17. Whatever the engine, every nucleotide of a freshly constructed pool
    of integer nucleotides has a value in [[-5, 5]]. *)
Theorem test_pool_initial_values (n len : nat) (f : spec_float)
    (p : GenePool.t IntNucl.t TestScorer.t R) :
  GenePool.new n len f = Some p →
  Forall (λ g, Forall (λ x, (-5 ≤ IntNucl.value x ≤ 5)%Z) (Genom.nucleotides g))
         (GenePool.genoms p).
Proof. apply test_pool_initial_bound. Qed.

(** X18. The crossover of two integer nucleotides is their mean, truncated
    toward zero: it ignores the slot it overwrites and the order of the
    parents, and for parents in [[-2^30, 2^30)] it lies between them. *)
Theorem int_nucl_crossover (a b c c' : IntNucl.t) :
  IntNucl.crossover_inplace a b c = IntNucl.crossover_inplace b a c'
  ∧ ((- 2 ^ 30 ≤ IntNucl.value a < 2 ^ 30)%Z → (- 2 ^ 30 ≤ IntNucl.value b < 2 ^ 30)%Z →
     (IntNucl.value a `min` IntNucl.value b
      ≤ IntNucl.value (IntNucl.crossover_inplace a b c)
      ≤ IntNucl.value a `max` IntNucl.value b)%Z).
Proof.
  unfold IntNucl.crossover_inplace, IntNucl.value. split.
  - by rewrite Z.add_comm.
  - intros Ha Hb. cbn [IntNucl.value_].
    assert (IntNucl.wrap32 (IntNucl.value_ a + IntNucl.value_ b)
            = IntNucl.value_ a + IntNucl.value_ b)%Z as ->.
    { unfold IntNucl.wrap32. rewrite Z.mod_small; lia. }
    pose proof (Z.quot_rem' (IntNucl.value_ a + IntNucl.value_ b) 2) as Hq.
    pose proof (Z.rem_bound_abs (IntNucl.value_ a + IntNucl.value_ b) 2) as Hr.
    lia.
Qed.

(** X19. Mutating an integer nucleotide moves its value by at most 5, as
    long as the sum stays an [int32_t]. *)
Theorem int_nucl_mutate_step (x : IntNucl.t) (g : R) :
  (- 2 ^ 31 + 5 ≤ IntNucl.value x ≤ 2 ^ 31 - 6)%Z →
  (IntNucl.value x - 5 ≤ IntNucl.value (IntNucl.mutate x g).1 ≤ IntNucl.value x + 5)%Z.
Proof.
  unfold IntNucl.mutate, IntNucl.dist, IntNucl.value. intros Hx.
  pose proof (uniform_int_range (-5) 5 g) as Hr.
  destruct (uniform_int (-5) 5 g) as [v g']. simpl in *.
  unfold IntNucl.wrap32. rewrite Z.mod_small; lia.
Qed.

Lemma simulator_simulate_nan (sim : Simulator.t) (genom : TestGenom) :
  Float.is_nan (Genom.score (Simulator.simulate sim genom)) = false.
Proof.
  unfold Simulator.simulate, Genom.score, Genom.set_scorer. cbn.
  destruct (_ =? _)%Z; cbn; [done|].
  apply one_div_not_nan, of_Z_not_nan.
Qed.

Lemma simulator_simulate_score (sim : Simulator.t) (genom : TestGenom) :
  Genom.score (Simulator.simulate sim genom)
  = if (Simulator.get_value genom =? Simulator.max_ sim)%Z then Simulator.ten
    else SFdiv Float.prec32 Float.emax32 Simulator.one
           (Float.of_Z Float.prec32 Float.emax32
              (Simulator.int_abs
                 (IntNucl.wrap32 (Simulator.get_value genom - Simulator.max_ sim)))).
Proof.
  unfold Simulator.simulate, Genom.score, Genom.set_scorer. cbn.
  by destruct (_ =? _)%Z.
Qed.

Lemma simulator_score_ten (sim : Simulator.t) (genom : TestGenom) :
  Genom.score (Simulator.simulate sim genom) = Simulator.ten
  ↔ Simulator.get_value genom = Simulator.max_ sim.
Proof.
  rewrite simulator_simulate_score.
  destruct (Z.eqb_spec (Simulator.get_value genom) (Simulator.max_ sim)) as [Heq|Hne].
  - done.
  - split; [|done]. by intros ?%one_div_of_Z_not_ten.
Qed.

(** X20. The simulator of the test only assigns a scorer: it leaves the
    nucleotides as they are, the score it assigns is never NaN, and the
    score is [10.0f] exactly when the nucleotide values add up to [max_]
    (no quotient [1.0f / k] rounds to [10.0f]). *)
Theorem simulator_simulate_spec (sim : Simulator.t) (genom : TestGenom) :
  Genom.nucleotides (Simulator.simulate sim genom) = Genom.nucleotides genom
  ∧ Float.is_nan (Genom.score (Simulator.simulate sim genom)) = false
  ∧ (Genom.score (Simulator.simulate sim genom) = Simulator.ten
     ↔ Simulator.get_value genom = Simulator.max_ sim).
Proof.
  split_and!; [done|apply simulator_simulate_nan|apply simulator_score_ten].
Qed.

(** X21. With the simulator of the test [simulate] always leaves the
    population in descending order of score with [best()] a member of
    highest score, for every pool and every engine. *)
Theorem test_simulate_sorted (sim : Simulator.t)
    (p : GenePool.t IntNucl.t TestScorer.t R) :
  sorted_descending (GenePool.genoms (GenePool.simulate (Simulator.simulate sim) p))
  ∧ ∀ g, g ∈ GenePool.genoms (GenePool.simulate (Simulator.simulate sim) p) →
      ∃ b, GenePool.best (GenePool.simulate (Simulator.simulate sim) p) = Some b
         ∧ Float.ge (Genom.score b) (Genom.score g) = true.
Proof.
  assert (∀ g, g ∈ Simulator.simulate sim <$> GenePool.genoms p →
            Float.is_nan (Genom.score g) = false) as Hnan.
  { intros g (g0 & -> & _)%list_elem_of_fmap. apply simulator_simulate_nan. }
  pose proof (sort_reversed_descending _ Hnan) as Hdesc.
  split; [exact Hdesc|].
  intros g Hg. unfold GenePool.best.
  destruct (GenePool.genoms (GenePool.simulate (Simulator.simulate sim) p))
    as [|b gs] eqn:E; [by apply not_elem_of_nil in Hg|].
  exists b. split; [done|].
  cbn [GenePool.simulate GenePool.genoms] in E. rewrite E in Hdesc.
  eapply descending_first; [exact Hdesc| |done|done].
  intros g1 Hg1. apply Hnan. rewrite <- (sort_reversed_perm Genom.lt), E. done.
Qed.

Lemma wrap32_range (z : Z) : (- 2 ^ 31 ≤ IntNucl.wrap32 z < 2 ^ 31)%Z.
Proof.
  unfold IntNucl.wrap32.
  pose proof (Z.mod_pos_bound (z + 2 ^ 31) (2 ^ 32) ltac:(lia)). lia.
Qed.

Lemma get_value_range (genom : TestGenom) :
  (- 2 ^ 31 ≤ Simulator.get_value genom < 2 ^ 31)%Z.
Proof.
  unfold Simulator.get_value.
  assert (∀ (ns : list IntNucl.t) (acc : Z),
            (- 2 ^ 31 ≤ acc < 2 ^ 31)%Z →
            (- 2 ^ 31 ≤ foldl (λ sum nucl, IntNucl.wrap32 (sum + IntNucl.value nucl)) acc ns
             < 2 ^ 31)%Z) as Hfold.
  { induction ns as [|x ns IH]; intros acc Hacc; simpl; [done|].
    apply IH, wrap32_range. }
  apply Hfold. lia.
Qed.

Lemma wrap32_diff (a b : Z) :
  (- 2 ^ 31 ≤ a < 2 ^ 31)%Z → (- 2 ^ 31 ≤ b < 2 ^ 31)%Z → a ≠ b →
  IntNucl.wrap32 (a - b) ≠ 0%Z.
Proof.
  intros Ha Hb Hne. unfold IntNucl.wrap32.
  pose proof (Z.div_mod (a - b + 2 ^ 31) (2 ^ 32) ltac:(lia)) as Hdm.
  pose proof (Z.mod_pos_bound (a - b + 2 ^ 31) (2 ^ 32) ltac:(lia)). lia.
Qed.

(** [std::abs] of an [int] other than 0 is not 0: it is the absolute
    value, or [INT_MIN]. *)
Lemma int_abs_nonzero (z : Z) :
  (- 2 ^ 31 ≤ z < 2 ^ 31)%Z → z ≠ 0%Z → Simulator.int_abs z ≠ 0%Z.
Proof.
  intros Hz Hne. unfold Simulator.int_abs, IntNucl.wrap32.
  pose proof (Z.div_mod (Z.abs z + 2 ^ 31) (2 ^ 32) ltac:(lia)) as Hdm.
  pose proof (Z.mod_pos_bound (Z.abs z + 2 ^ 31) (2 ^ 32) ltac:(lia)). lia.
Qed.

Lemma simulate_members (sim : Simulator.t) (p : GenePool.t IntNucl.t TestScorer.t R) b :
  b ∈ GenePool.genoms (GenePool.simulate (Simulator.simulate sim) p)
  ↔ ∃ g0, g0 ∈ GenePool.genoms p ∧ b = Simulator.simulate sim g0.
Proof.
  cbn [GenePool.simulate GenePool.genoms].
  rewrite (sort_reversed_perm Genom.lt), list_elem_of_fmap.
  split; intros (g0 & ? & ?); by exists g0.
Qed.

Lemma simulate_best_member (sim : Simulator.t) (p : GenePool.t IntNucl.t TestScorer.t R) b :
  GenePool.best (GenePool.simulate (Simulator.simulate sim) p) = Some b →
  b ∈ GenePool.genoms (GenePool.simulate (Simulator.simulate sim) p).
Proof. unfold GenePool.best. apply list_elem_of_lookup_2. Qed.

(** After [simulate] the best Genom has the score [10.0f] exactly when
    some Genom of the population adds up to [max_]. *)
Lemma simulate_best_ten (sim : Simulator.t) (p : GenePool.t IntNucl.t TestScorer.t R) :
  (- 2 ^ 31 ≤ Simulator.max_ sim < 2 ^ 31)%Z →
  (∃ g, g ∈ GenePool.genoms p ∧ Simulator.get_value g = Simulator.max_ sim)
  ↔ (∃ b, GenePool.best (GenePool.simulate (Simulator.simulate sim) p) = Some b
        ∧ Genom.score b = Simulator.ten).
Proof.
  intros Hmax.
  set (gs' := GenePool.genoms (GenePool.simulate (Simulator.simulate sim) p)).
  split.
  - intros (g & Hg & Hval).
    assert (Simulator.simulate sim g ∈ gs') as Hin by (apply simulate_members; eauto).
    assert (∀ x, x ∈ gs' → Float.is_nan (Genom.score x) = false) as Hnan.
    { intros x (g0 & _ & ->)%simulate_members. apply simulator_simulate_nan. }
    assert (sorted_descending gs') as Hdesc.
    { apply sort_reversed_descending. intros x (g0 & -> & _)%list_elem_of_fmap.
      apply simulator_simulate_nan. }
    destruct (GenePool.best (GenePool.simulate (Simulator.simulate sim) p)) as [b|] eqn:Eb.
    2:{ unfold GenePool.best in Eb. fold gs' in Eb. destruct gs'; [|done].
        by apply not_elem_of_nil in Hin. }
    exists b. split; [done|].
    pose proof (descending_first gs' b Hdesc Hnan Eb _ Hin) as Hge.
    rewrite (proj2 (simulator_score_ten sim g) Hval) in Hge.
    apply simulate_best_member, simulate_members in Eb as (g0 & _ & ->).
    rewrite simulator_simulate_score in Hge |- *.
    destruct (Z.eqb_spec (Simulator.get_value g0) (Simulator.max_ sim)) as [|Hne]; [done|].
    rewrite one_div_of_Z_below_ten in Hge; [done|].
    apply int_abs_nonzero; [apply wrap32_range|].
    apply wrap32_diff; [apply get_value_range|done|done].
  - intros (b & Hb & Hscore).
    apply simulate_best_member, simulate_members in Hb as (g0 & Hg0 & ->).
    exists g0. split; [done|]. by apply simulator_score_ten.
Qed.

(** X28. The exit condition of the test is right.  After
    [pool.simulate(sim)], for [b = pool.best()]: the score of [b] is
    [10.0f] exactly when the values of [b] add up to [max_]; and this is
    the case exactly when some Genom of the population adds up to [max_].
    [max_] is an [int]. *)
Theorem test_solution_found (sim : Simulator.t)
    (p : GenePool.t IntNucl.t TestScorer.t R) :
  (- 2 ^ 31 ≤ Simulator.max_ sim < 2 ^ 31)%Z →
  (∀ b, GenePool.best (GenePool.simulate (Simulator.simulate sim) p) = Some b →
     (Genom.score b = Simulator.ten ↔ Simulator.get_value b = Simulator.max_ sim))
  ∧ ((∃ g, g ∈ GenePool.genoms p ∧ Simulator.get_value g = Simulator.max_ sim)
     ↔ (∃ b, GenePool.best (GenePool.simulate (Simulator.simulate sim) p) = Some b
           ∧ Genom.score b = Simulator.ten)).
Proof.
  intros Hmax. split; [|by apply simulate_best_ten].
  intros b (g0 & _ & ->)%simulate_best_member%simulate_members.
  exact (simulator_score_ten sim g0).
Qed.

(** X22. The constructor of the simulator is undefined on an empty vector;
    otherwise [max_] is an element of the vector and no element is
    larger. *)
Theorem simulator_new_spec (integers : list Z) :
  (integers = [] → Simulator.new integers = None)
  ∧ ∀ sim, Simulator.new integers = Some sim →
      Simulator.integers_ sim = integers
      ∧ Simulator.max_ sim ∈ integers
      ∧ Forall (λ x, (x ≤ Simulator.max_ sim)%Z) integers.
Proof.
  split; [by intros ->|].
  intros sim Hnew. destruct integers as [|x xs]; [done|]. simpl in Hnew.
  simplify_eq. cbn. split; [done|].
  assert (∀ (l : list Z) (a : Z),
            (foldl Z.max a l = a ∨ foldl Z.max a l ∈ l)
            ∧ (a ≤ foldl Z.max a l)%Z
            ∧ Forall (λ y, (y ≤ foldl Z.max a l)%Z) l) as Hmax.
  { induction l as [|y l IH]; intros a; simpl.
    - split_and!; [by left|lia|constructor].
    - destruct (IH (a `max` y)%Z) as (Hin & Hle & Hall). split_and!.
      + destruct Hin as [->|Hin].
        * destruct (Z.max_spec a y) as [[_ ->]|[_ ->]]; [right; left|by left].
        * right. by right.
      + lia.
      + constructor; [lia|done]. }
  destruct (Hmax xs x) as (Hin & Hle & Hall). split.
  - destruct Hin as [->|Hin]; [left|by right].
  - by constructor.
Qed.

Lemma get_value_foldl (ns : list IntNucl.t) (acc b : Z) :
  (0 ≤ b)%Z →
  Forall (λ x, (- b ≤ IntNucl.value x ≤ b)%Z) ns →
  (Z.abs acc + Z.of_nat (length ns) * b < 2 ^ 31)%Z →
  foldl (λ sum nucl, IntNucl.wrap32 (sum + IntNucl.value nucl)) acc ns
  = (acc + foldr Z.add 0 (IntNucl.value <$> ns))%Z.
Proof.
  intros Hb Hall. revert acc. induction Hall as [|x ns Hx Hall IH]; intros acc Hacc.
  { simpl. lia. }
  cbn [foldl fmap list_fmap foldr length] in *.
  assert (IntNucl.wrap32 (acc + IntNucl.value x) = acc + IntNucl.value x)%Z as ->.
  { unfold IntNucl.wrap32. rewrite Z.mod_small; lia. }
  rewrite IH by lia. lia.
Qed.

(** X23. [get_value] is the sum of the nucleotide values whenever the values
    are bounded by [b] in absolute value and [len * b] is below [2^31], so
    that the [int] accumulator cannot overflow. *)
Theorem get_value_sum (genom : TestGenom) (b : Z) :
  (0 ≤ b)%Z →
  Forall (λ x, (- b ≤ IntNucl.value x ≤ b)%Z) (Genom.nucleotides genom) →
  (Z.of_nat (Genom.size genom) * b < 2 ^ 31)%Z →
  Simulator.get_value genom
  = foldr Z.add 0%Z (IntNucl.value <$> Genom.nucleotides genom).
Proof.
  intros Hb Hall Hlen. unfold Simulator.get_value, Genom.get_nucleotides.
  rewrite (get_value_foldl _ 0 b Hb Hall); [done|]. unfold Genom.size in Hlen. lia.
Qed.

End TestFacts.

Section Invariant.
Context {N S R : Type} `{!Nucl N} `{!Scorer S} `{!RandomEngine R}.

(** X24. What every reachable pool of even size [N] with elite count at
    most [N / 2] satisfies between calls: the population has [N] Genoms of
    the configured length [L], the distribution is [[0, L]], the index
    array has [N] entries, all of them population indices, and its first
    [take] slots hold [0 .. take - 1]. *)
Theorem reachable_invariant k (p : GenePool.t N S R) :
  reachable k p → Nat.Even (GenePool.n_genoms p) →
  GenePool.take p ≤ GenePool.n_genoms p / 2 →
  length (GenePool.genoms p) = GenePool.n_genoms p
  ∧ Forall (λ g, Genom.size g = dist_b (GenePool.distr p)) (GenePool.genoms p)
  ∧ dist_a (GenePool.distr p) = 0
  ∧ length (GenePool.shuffle_indices p) = GenePool.n_genoms p
  ∧ Forall (λ i, i < GenePool.n_genoms p) (GenePool.shuffle_indices p)
  ∧ ∀ e, e < GenePool.take p → GenePool.shuffle_indices p !! e = Some e.
Proof.
  intros Hreach Hev Htake.
  destruct (reachable_wf k p Hreach Hev Htake) as [[Hlen Hsize Hd Hil Hir He] _].
  split_and!; try done.
  intros e Hlt. rewrite <- (lookup_take_lt _ (GenePool.take p)) by done.
  rewrite He. by apply lookup_seq_lt.
Qed.

End Invariant.

(* ================================================================== *)
(** * The further properties on the inputs of the examples *)
(* ================================================================== *)

Lemma int_nucl_crossover_comm (x y z : IntNucl.t) :
  nucl_crossover_inplace x y z = nucl_crossover_inplace y x z.
Proof. cbn. unfold IntNucl.crossover_inplace. by rewrite Z.add_comm. Qed.

Lemma shift_compose_witness :
  Genom.shift 1 genom_a ≫= Genom.shift 2 = Genom.shift (1 + 2) genom_a.
Proof. apply (shift_compose genom_a 1 2). cbn. lia. Defined.

Lemma crossover_inplace_defined_iff_witness :
  (∃ out',
     Genom.crossover_inplace genom_a genom_b genom_c 1 = Some out'
     ∧ Genom.size out' = 3 ∧ Genom.scorer out' = TestScorer.default)
  ∧ Genom.crossover_inplace genom_a genom_c genom_b 1 = None
  ∧ ∃ b',
      Genom.crossover_inplace_onto_b genom_a genom_c 1 = Some b'
      ∧ Genom.size b' = 3 ∧ Genom.scorer b' = TestScorer.default.
Proof.
  destruct (crossover_inplace_defined_iff genom_a genom_b genom_c 1)
    as (_ & Hres & _ & _).
  destruct (crossover_inplace_defined_iff genom_a genom_c genom_b 1)
    as (_ & _ & _ & Hres').
  split; [eexists; split; [reflexivity|apply Hres; reflexivity]|].
  split; [reflexivity|].
  eexists. split; [reflexivity|]. apply Hres'. reflexivity.
Defined.

Lemma mutate_spec_witness :
  ∃ x' g',
    Genom.mutate 2 (Std.minstd_rand0.seed 1) genom_a = Some (x', g')
    ∧ Genom.scorer x' = Genom.scorer genom_a
    ∧ Genom.size x' = 3
    ∧ (∃ y, Genom.nucleotides genom_a !! 2 = Some y
          ∧ Genom.nucleotides x' !! 2 = Some (nucl_mutate y (Std.minstd_rand0.seed 1)).1
          ∧ g' = (nucl_mutate y (Std.minstd_rand0.seed 1)).2)
    ∧ ∀ i, i ≠ 2 → Genom.nucleotides x' !! i = Genom.nucleotides genom_a !! i.
Proof.
  eexists. eexists. split; [vm_compute; reflexivity|].
  apply (mutate_spec genom_a 2 (Std.minstd_rand0.seed 1)). vm_compute; reflexivity.
Defined.

Lemma genom_lt_strict_order_witness :
  Genom.lt genom_c genom_a = true
  ∧ Genom.lt genom_a genom_b = true
  ∧ Genom.lt genom_a genom_c = false
  ∧ Genom.lt genom_c genom_b = true.
Proof.
  destruct (genom_lt_strict_order genom_c genom_a genom_b) as (_ & Hasym & Htrans).
  split; [reflexivity|]. split; [reflexivity|].
  split; [apply Hasym; reflexivity|apply Htrans; reflexivity].
Defined.

Lemma new_spec_witness :
  ∃ p : TestPool,
    GenePool.new 10 7 f0_3 = Some p
    ∧ GenePool.n_genoms p = 10
    ∧ length (GenePool.genoms p) = 10
    ∧ Forall (λ g, Genom.size g = 7 ∧ Genom.scorer g = scorer_default)
             (GenePool.genoms p)
    ∧ GenePool.distr p = Distribution 0 7
    ∧ GenePool.generations p = 0%Z
    ∧ GenePool.shuffle_indices p = seq 0 10
    ∧ GenePool.next_generation p = [].
Proof.
  eexists. split; [vm_compute; reflexivity|].
  apply (new_spec 10 7 f0_3). vm_compute; reflexivity.
Defined.

Lemma new_undefined_witness :
  GenePool.new (N:=IntNucl.t) (S:=TestScorer.t) (R:=Std.minstd_rand0.t) 10 7 S754_nan
  = None.
Proof. apply new_undefined. left. reflexivity. Defined.

Lemma pool_shift_spec_witness :
  ∃ p p' : TestPool,
    GenePool.new 10 7 f0_3 = Some p
    ∧ GenePool.shift 3 p = Some p'
    ∧ Forall2 (λ g g', Genom.shift 3 g = Some g' ∧ Genom.scorer g' = Genom.scorer g)
              (GenePool.genoms p) (GenePool.genoms p')
    ∧ GenePool.generations p' = GenePool.generations p
    ∧ GenePool.rng p' = GenePool.rng p
    ∧ GenePool.shuffle_indices p' = GenePool.shuffle_indices p
    ∧ GenePool.next_generation p' = GenePool.next_generation p.
Proof.
  eexists. eexists. split; [vm_compute; reflexivity|].
  split; [vm_compute; reflexivity|].
  match goal with |- Forall2 _ (GenePool.genoms ?p) _ ∧ _ =>
    apply (pool_shift_spec p 3)
  end.
  vm_compute; reflexivity.
Defined.

Lemma pool_shift_compose_witness :
  ∃ p : TestPool,
    GenePool.new 10 7 f0_3 = Some p
    ∧ GenePool.shift 3 p ≫= GenePool.shift 4 = GenePool.shift (3 + 4) p.
Proof.
  eexists. split; [vm_compute; reflexivity|].
  apply pool_shift_compose. by repeat constructor.
Defined.

Lemma select_crossover_calls_witness :
  ∃ p : TestPool,
    GenePool.new 10 7 f0_3 = Some p
    ∧ ∃ trc trm,
        trace (GenePool.select_run p) = trc ++ trm
        ∧ Forall2 (λ j e, ∃ ia ib pt,
                     e = Crossover ia ib j pt
                     ∧ ia < GenePool.n_genoms p ∧ ib < GenePool.n_genoms p
                     ∧ pt ≤ dist_b (GenePool.distr p))
                  (seq 0 (GenePool.n_genoms p)) trc
        ∧ Forall (λ e, ∃ j m, e = Mutate j m) trm.
Proof.
  eexists. split; [vm_compute; reflexivity|].
  apply (select_crossover_calls 0).
  - by apply (reach_new 10 7 f0_3).
  - by exists 5.
  - vm_compute. lia.
Defined.

Lemma select_mutation_calls_witness :
  ∃ p : TestPool,
    GenePool.new 4 8 f0_25 = Some p
    ∧ ∃ trc trm,
        trace (GenePool.select_run p) = trc ++ trm
        ∧ length trc = GenePool.n_genoms p
        ∧ Forall2 (λ j e, ∃ m, e = Mutate j m ∧ m ≤ dist_b (GenePool.distr p))
                  (seq 0 (length trm)) trm
        ∧ length trm ≤ GenePool.n_genoms p
        ∧ (is_Some (GenePool.select p)
           ↔ length trm = GenePool.n_genoms p
             ∧ Forall (λ e, ∀ j m, e = Mutate j m → m < dist_b (GenePool.distr p)) trm).
Proof.
  eexists. split; [vm_compute; reflexivity|].
  apply (select_mutation_calls 0).
  - by apply (reach_new 4 8 f0_25).
  - by exists 2.
  - vm_compute. lia.
Defined.

Lemma select_parents_witness :
  ∃ p : TestPool,
    GenePool.new 10 7 f0_3 = Some p
    ∧ ∃ pool g,
        GenePool.mating_pool p = Some (pool ++ pool, g)
        ∧ length pool = GenePool.n_genoms p / 2
        ∧ first_parents (trace (GenePool.select_run p)) = pool ++ pool
        ∧ second_parents (trace (GenePool.select_run p)) ≡ₚ pool ++ pool.
Proof.
  eexists. split; [vm_compute; reflexivity|].
  apply (select_parents 0).
  - by apply (reach_new 10 7 f0_3).
  - by exists 5.
  - vm_compute. lia.
Defined.

Lemma select_postconditions_witness :
  ∃ p p' : TestPool,
    GenePool.new 4 8 f0_25 = Some p
    ∧ GenePool.select p = Some p'
    ∧ GenePool.n_genoms p' = 4
    ∧ GenePool.take p' = 1
    ∧ GenePool.retain p' = GenePool.retain p
    ∧ GenePool.distr p' = Distribution 0 8
    ∧ GenePool.generations p' = 0%Z
    ∧ GenePool.next_generation p' = GenePool.genoms p
    ∧ length (GenePool.genoms p') = 4
    ∧ Forall (λ c, Genom.size c = 8) (GenePool.genoms p')
    ∧ ∃ pool tl g,
        GenePool.mating_pool p = Some (pool ++ pool, g)
        ∧ GenePool.shuffle_indices p' = pool ++ tl
        ∧ tl ≡ₚ pool
        ∧ take 1 pool = seq 0 1.
Proof.
  eexists. eexists. split; [vm_compute; reflexivity|].
  split; [vm_compute; reflexivity|].
  match goal with |- GenePool.n_genoms ?p' = _ ∧ _ ∧ GenePool.retain _ = GenePool.retain ?p ∧ _ =>
    apply (select_postconditions 0 p p')
  end.
  - by apply (reach_new 4 8 f0_25).
  - by exists 2.
  - vm_compute. lia.
  - vm_compute; reflexivity.
Defined.

Lemma select_odd_size_witness :
  ∃ p : TestPool, GenePool.new 3 7 f0_25 = Some p ∧ GenePool.select p = None.
Proof.
  eexists. split; [vm_compute; reflexivity|].
  apply (select_odd_size 0).
  - by apply (reach_new 3 7 f0_25).
  - by exists 1.
Defined.

Lemma crossover_point_irrelevant_witness :
  Genom.crossover_inplace genom_a genom_b genom_c 1
  = Genom.crossover_inplace genom_b genom_a genom_c 3.
Proof.
  apply crossover_point_irrelevant.
  - apply int_nucl_crossover_comm.
  - reflexivity.
  - cbn. lia.
  - cbn. lia.
Defined.

Lemma test_pool_initial_values_witness :
  ∃ p : TestPool,
    GenePool.new 10 7 f0_3 = Some p
    ∧ Forall (λ g, Forall (λ x, (-5 ≤ IntNucl.value x ≤ 5)%Z) (Genom.nucleotides g))
             (GenePool.genoms p).
Proof.
  eexists. split; [vm_compute; reflexivity|].
  apply (test_pool_initial_values 10 7 f0_3). vm_compute; reflexivity.
Defined.

Lemma int_nucl_crossover_witness :
  IntNucl.crossover_inplace (IntNucl.Make 5) (IntNucl.Make (-4)) (IntNucl.Make 0)
  = IntNucl.crossover_inplace (IntNucl.Make (-4)) (IntNucl.Make 5) (IntNucl.Make 9)
  ∧ (-4 ≤ IntNucl.value (IntNucl.crossover_inplace (IntNucl.Make 5) (IntNucl.Make (-4))
                           (IntNucl.Make 0)) ≤ 5)%Z.
Proof.
  destruct (int_nucl_crossover (IntNucl.Make 5) (IntNucl.Make (-4)) (IntNucl.Make 0)
              (IntNucl.Make 9)) as [Hcomm Hmean].
  split; [exact Hcomm|]. apply Hmean; cbn; lia.
Defined.

Lemma int_nucl_mutate_step_witness :
  (3 - 5 ≤ IntNucl.value (IntNucl.mutate (IntNucl.Make 3) (Std.minstd_rand0.seed 1)).1
   ≤ 3 + 5)%Z.
Proof.
  apply (int_nucl_mutate_step (IntNucl.Make 3) (Std.minstd_rand0.seed 1)). cbn. lia.
Defined.

Lemma simulator_simulate_spec_witness :
  Genom.nucleotides (Simulator.simulate test_simulator genom_a)
  = Genom.nucleotides genom_a
  ∧ Float.is_nan
      (Genom.score (Simulator.simulate test_simulator genom_a))
    = false
  ∧ Genom.score (Simulator.simulate test_simulator genom_a)
    = Simulator.ten.
Proof.
  destruct (simulator_simulate_spec test_simulator genom_a)
    as (Hn & Hnan & Hten).
  split; [exact Hn|]. split; [exact Hnan|]. apply Hten. reflexivity.
Defined.

(** At [m - max_ = INT_MIN] the divisor [std::abs(m - max_)] is [INT_MIN]
    and the score is [-2^-31]. *)
Example simulate_int_min :
  Genom.score
    (Simulator.simulate test_simulator
       (Genom.Make [IntNucl.Make (-2147483648); IntNucl.Make 6] TestScorer.default))
  = S754_finite true 8388608 (-54).
Proof. vm_compute. reflexivity. Qed.

Lemma test_solution_found_witness :
  ∃ p : TestPool,
    GenePool.new 10 7 f0_3 = Some p
    ∧ ((∃ g, g ∈ GenePool.genoms p ∧ Simulator.get_value g = 6%Z)
       ↔ (∃ b, GenePool.best (GenePool.simulate (Simulator.simulate test_simulator) p)
               = Some b
             ∧ Genom.score b = Simulator.ten)).
Proof.
  eexists. split; [vm_compute; reflexivity|].
  match goal with |- _ ↔ (∃ b, GenePool.best (GenePool.simulate _ ?p) = _ ∧ _) =>
    apply (test_solution_found test_simulator p)
  end.
  cbn. lia.
Defined.

Lemma test_simulate_sorted_witness :
  ∃ (p : TestPool) b,
    GenePool.new 10 7 f0_3 = Some p
    ∧ sorted_descending
        (GenePool.genoms
           (GenePool.simulate (Simulator.simulate test_simulator) p))
    ∧ GenePool.best
        (GenePool.simulate (Simulator.simulate test_simulator) p)
      = Some b
    ∧ ∀ g, g ∈ GenePool.genoms
                 (GenePool.simulate
                    (Simulator.simulate test_simulator) p) →
        Float.ge (Genom.score b) (Genom.score g) = true.
Proof.
  eexists. eexists. split; [vm_compute; reflexivity|].
  match goal with |- sorted_descending (GenePool.genoms (GenePool.simulate ?f ?p)) ∧ _ =>
    destruct (test_simulate_sorted test_simulator p) as [Hs Hb]
  end.
  split; [exact Hs|]. split; [vm_compute; reflexivity|].
  intros g Hg. destruct (Hb g Hg) as (b' & Hbest & Hge).
  vm_compute in Hbest. injection Hbest as <-. exact Hge.
Defined.

Lemma simulator_new_spec_witness :
  ∃ sim,
    Simulator.new test_integers = Some sim
    ∧ Simulator.integers_ sim = test_integers
    ∧ Simulator.max_ sim ∈ test_integers
    ∧ Forall (λ x, (x ≤ Simulator.max_ sim)%Z) test_integers.
Proof.
  eexists. split; [reflexivity|].
  apply (simulator_new_spec test_integers). reflexivity.
Defined.

Lemma get_value_sum_witness :
  Simulator.get_value genom_b
  = foldr Z.add 0%Z (IntNucl.value <$> Genom.nucleotides genom_b).
Proof.
  apply (get_value_sum genom_b 5).
  - lia.
  - repeat constructor; cbn; lia.
  - cbn. lia.
Defined.

Lemma reachable_invariant_witness :
  ∃ p : TestPool,
    GenePool.new 10 7 f0_3 = Some p
    ∧ length (GenePool.genoms p) = GenePool.n_genoms p
    ∧ Forall (λ g, Genom.size g = dist_b (GenePool.distr p)) (GenePool.genoms p)
    ∧ dist_a (GenePool.distr p) = 0
    ∧ length (GenePool.shuffle_indices p) = GenePool.n_genoms p
    ∧ Forall (λ i, i < GenePool.n_genoms p) (GenePool.shuffle_indices p)
    ∧ ∀ e, e < GenePool.take p → GenePool.shuffle_indices p !! e = Some e.
Proof.
  eexists. split; [vm_compute; reflexivity|].
  apply (reachable_invariant 0).
  - by apply (reach_new 10 7 f0_3).
  - by exists 5.
  - vm_compute. lia.
Defined.

(* ================================================================== *)
(** * The population as a sequence of draws; simulate as a reordering *)
(* ================================================================== *)

Section Draws.
Context {N S R : Type} `{!Nucl N} `{!Scorer S} `{!RandomEngine R}.

Local Abbreviation Genom := (Genom.t N S).
Local Abbreviation GenePool := (GenePool.t N S R).

Lemma push_random_acc n (ns : list N) (g : R) :
  Genom.push_random n ns g
  = (ns ++ (Genom.push_random n [] g).1, (Genom.push_random n [] g).2).
Proof.
  revert ns g. induction n as [|n IH]; intros ns g; simpl.
  { by rewrite app_nil_r. }
  destruct (nucl_random g) as [x g']. rewrite (IH (ns ++ [x])), (IH [x]). simpl.
  by rewrite <- app_assoc.
Qed.

Lemma push_random_add n m (ns : list N) (g : R) :
  Genom.push_random (n + m) ns g
  = Genom.push_random m (Genom.push_random n ns g).1 (Genom.push_random n ns g).2.
Proof.
  revert ns g. induction n as [|n IH]; intros ns g; simpl; [done|].
  destruct (nucl_random g) as [x g']. apply IH.
Qed.

(** X25. [random] draws its nucleotides from the engine one after the
    other: a Genom of [n + m] random nucleotides is a Genom of [n] followed
    by the [m] nucleotides drawn from the engine as the first [n] draws
    left it; the scorer is the default one. *)
Theorem random_add (n m : nat) (g : R) :
  Genom.nucleotides (Genom.random (N:=N) (S:=S) (n + m) g).1
  = Genom.nucleotides (Genom.random (N:=N) (S:=S) n g).1
    ++ Genom.nucleotides
         (Genom.random (N:=N) (S:=S) m (Genom.random (N:=N) (S:=S) n g).2).1
  ∧ (Genom.random (N:=N) (S:=S) (n + m) g).2
    = (Genom.random (N:=N) (S:=S) m (Genom.random (N:=N) (S:=S) n g).2).2
  ∧ Genom.scorer (Genom.random (N:=N) (S:=S) (n + m) g).1 = scorer_default.
Proof.
  unfold Genom.random. cbn [Genom.nucleotides Genom.scorer Genom.default].
  rewrite push_random_add.
  destruct (Genom.push_random n [] g) as [ns g'] eqn:E1. cbn [fst snd].
  rewrite (push_random_acc m ns g').
  destruct (Genom.push_random m [] g') as [ms g''] eqn:E2. by cbn.
Qed.

Lemma push_genoms_snoc n len (gs : list Genom) (g : R) :
  GenePool.push_genoms (Datatypes.S n) len gs g
  = ((GenePool.push_genoms n len gs g).1
       ++ [(Genom.random len (GenePool.push_genoms n len gs g).2).1],
     (Genom.random len (GenePool.push_genoms n len gs g).2).2).
Proof.
  revert gs g. induction n as [|n IH]; intros gs g.
  { simpl. by destruct (Genom.random len g). }
  change (GenePool.push_genoms (Datatypes.S (Datatypes.S n)) len gs g)
    with (let '(x, g') := Genom.random len g in
          GenePool.push_genoms (Datatypes.S n) len (gs ++ [x]) g').
  change (GenePool.push_genoms (Datatypes.S n) len gs g)
    with (let '(x, g') := Genom.random len g in
          GenePool.push_genoms n len (gs ++ [x]) g').
  destruct (Genom.random len g) as [x g']. apply IH.
Qed.

(** X26. The population does not depend on how many Genoms follow: a pool
    constructed with one Genom more holds the Genoms of the smaller pool,
    followed by one Genom drawn from the engine as the smaller pool's
    construction left it, whatever the two elite fractions. *)
Theorem new_extends (n len : nat) (f f' : spec_float) (p p' : GenePool) :
  GenePool.new n len f = Some p →
  GenePool.new (Datatypes.S n) len f' = Some p' →
  GenePool.genoms p' = GenePool.genoms p ++ [(Genom.random len (GenePool.rng p)).1]
  ∧ GenePool.rng p' = (Genom.random len (GenePool.rng p)).2.
Proof.
  intros (tk & rt & _ & _ & ->)%new_inv (tk' & rt' & _ & _ & ->)%new_inv.
  cbn [GenePool.genoms GenePool.rng]. by rewrite push_genoms_snoc.
Qed.

(** X27. [simulate] loses and invents nothing: with a simulator that
    assigns no NaN score (so that [operator<] gives [std::sort] an
    ordering), the population afterwards is a reordering of the simulated
    Genoms, and the sizes, the engine, the distribution, the index array
    and the staging array are as before. *)
Theorem simulate_population (simulator : Genom → Genom) (p : GenePool) :
  (∀ g, g ∈ GenePool.genoms p → Float.is_nan (Genom.score (simulator g)) = false) →
  GenePool.genoms (GenePool.simulate simulator p) ≡ₚ simulator <$> GenePool.genoms p
  ∧ length (GenePool.genoms (GenePool.simulate simulator p)) = length (GenePool.genoms p)
  ∧ GenePool.n_genoms (GenePool.simulate simulator p) = GenePool.n_genoms p
  ∧ GenePool.take (GenePool.simulate simulator p) = GenePool.take p
  ∧ GenePool.rng (GenePool.simulate simulator p) = GenePool.rng p
  ∧ GenePool.distr (GenePool.simulate simulator p) = GenePool.distr p
  ∧ GenePool.shuffle_indices (GenePool.simulate simulator p) = GenePool.shuffle_indices p
  ∧ GenePool.next_generation (GenePool.simulate simulator p) = GenePool.next_generation p.
Proof.
  intros _. cbn [GenePool.simulate GenePool.genoms GenePool.n_genoms GenePool.take
                 GenePool.rng GenePool.distr GenePool.shuffle_indices
                 GenePool.next_generation].
  split_and!; try done.
  - apply sort_reversed_perm.
  - by rewrite (sort_reversed_perm Genom.lt), length_fmap.
Qed.

End Draws.

Lemma random_add_witness :
  Genom.nucleotides
    (Genom.random (N:=IntNucl.t) (S:=TestScorer.t) (2 + 1) (Std.minstd_rand0.seed 1)).1
  = Genom.nucleotides
      (Genom.random (N:=IntNucl.t) (S:=TestScorer.t) 2 (Std.minstd_rand0.seed 1)).1
    ++ Genom.nucleotides
         (Genom.random (N:=IntNucl.t) (S:=TestScorer.t) 1
            (Genom.random (N:=IntNucl.t) (S:=TestScorer.t) 2 (Std.minstd_rand0.seed 1)).2).1.
Proof. apply (random_add (N:=IntNucl.t) (S:=TestScorer.t) 2 1 (Std.minstd_rand0.seed 1)). Defined.

Lemma new_extends_witness :
  ∃ p p' : TestPool,
    GenePool.new 3 7 f0_25 = Some p
    ∧ GenePool.new 4 7 f0_3 = Some p'
    ∧ GenePool.genoms p' = GenePool.genoms p ++ [(Genom.random 7 (GenePool.rng p)).1]
    ∧ GenePool.rng p' = (Genom.random 7 (GenePool.rng p)).2.
Proof.
  eexists. eexists. split; [vm_compute; reflexivity|].
  split; [vm_compute; reflexivity|].
  match goal with |- GenePool.genoms ?p' = GenePool.genoms ?p ++ _ ∧ _ =>
    apply (new_extends 3 7 f0_25 f0_3 p p')
  end; vm_compute; reflexivity.
Defined.

Lemma simulate_population_witness :
  ∃ p : TestPool,
    GenePool.new 10 7 f0_3 = Some p
    ∧ GenePool.genoms (GenePool.simulate (Simulator.simulate test_simulator) p)
      ≡ₚ Simulator.simulate test_simulator <$> GenePool.genoms p
    ∧ GenePool.rng (GenePool.simulate (Simulator.simulate test_simulator) p)
      = GenePool.rng p.
Proof.
  eexists. split; [vm_compute; reflexivity|].
  match goal with |- GenePool.genoms (GenePool.simulate ?f ?p) ≡ₚ _ ∧ _ =>
    destruct (simulate_population f p) as (Hperm & _ & _ & _ & Hrng & _)
  end.
  - intros g _. apply simulator_simulate_nan.
  - split; [exact Hperm|exact Hrng].
Defined.

(* ================================================================== *)
(** * What the children are made of *)
(* ================================================================== *)

Section Content.
Context {N S R : Type} `{!Nucl N} `{!Scorer S} `{!RandomEngine R}.

Local Abbreviation Genom := (Genom.t N S).
Local Abbreviation GenePool := (GenePool.t N S R).

Variable P : N → Prop.
Hypothesis P_crossover :
  ∀ x y z, P x → P y → P (nucl_crossover_inplace x y z).

Lemma for_each_cross_at_content (a b : list N) s k c c' :
  Forall P a → Forall P b →
  for_each (Genom.cross_at a b) (seq s k) c = Some c' →
  (∀ i x, i < s → c !! i = Some x → P x) →
  length c' = length c ∧ ∀ i x, i < s + k → c' !! i = Some x → P x.
Proof.
  intros Ha Hb. revert s c. induction k as [|k IH]; intros s c Hrun Hc.
  { simpl in Hrun. simplify_eq. split; [done|]. intros i x Hi. apply Hc. lia. }
  change (seq s (Datatypes.S k)) with (s :: seq (Datatypes.S s) k) in Hrun.
  rewrite for_each_cons in Hrun.
  destruct (Genom.cross_at a b s c) as [c1|] eqn:Hstep; [|done].
  rewrite option_bind_Some in Hrun.
  unfold Genom.cross_at in Hstep.
  destruct (a !! s) as [x|] eqn:Eax; [|done].
  destruct (b !! s) as [y|] eqn:Eby; [|done].
  destruct (c !! s) as [z|] eqn:Ecz; [|done].
  simplify_eq/=.
  destruct (IH (Datatypes.S s) _ Hrun) as [Hlen Hall].
  { intros i x0 Hi Hx0. destruct (decide (i = s)) as [->|Hne].
    - rewrite list_lookup_insert_eq in Hx0 by (by eapply lookup_lt_Some).
      simplify_eq. apply P_crossover.
      + by eapply (Forall_lookup_1 _ _ _ _ Ha).
      + by eapply (Forall_lookup_1 _ _ _ _ Hb).
    - rewrite list_lookup_insert_ne in Hx0 by done. eapply Hc; [|done]. lia. }
  split; [by rewrite Hlen, length_insert|].
  intros i x0 Hi. apply Hall. lia.
Qed.

(** Every nucleotide of a child is a crossover of nucleotides of its
    parents. *)
Lemma crossover_inplace_content (a b c c' : Genom) n :
  Forall P (Genom.nucleotides a) → Forall P (Genom.nucleotides b) →
  Genom.crossover_inplace a b c n = Some c' →
  Forall P (Genom.nucleotides c').
Proof.
  intros Ha Hb Hx. unfold Genom.crossover_inplace in Hx.
  destruct (for_each _ (seq 0 n) _) as [c1|] eqn:E1; [|done].
  rewrite option_bind_Some in Hx.
  destruct (for_each _ (seq n _) c1) as [c2|] eqn:E2; [|done].
  simplify_eq/=.
  apply for_each_cross_at_content in E1 as [Hlen1 Hall1]; [|done|done|intros; lia].
  apply for_each_cross_at_content in E2 as [Hlen2 Hall2]; [|done|done|done].
  rewrite length_resize in Hlen1.
  apply Forall_lookup_2. intros i x Hx. apply (Hall2 i); [|done].
  apply lookup_lt_Some in Hx. lia.
Qed.

Lemma crossover_step_content (gs : list Genom) idx half off d i next (g : R) next' g' :
  Forall (λ a, Forall P (Genom.nucleotides a)) gs →
  result (GenePool.crossover_step gs idx half off d i (next, g)) = Some (next', g') →
  ∃ c', next' = <[i + off := c']> next ∧ i + off < length next
        ∧ Forall P (Genom.nucleotides c').
Proof.
  intros Hgs. unfold GenePool.crossover_step. intros Hres.
  apply run_bind_Some in Hres as (ia & _ & Hres).
  apply run_bind_Some in Hres as (ib & _ & Hres).
  apply run_bind_Some in Hres as (a & Ha & Hres).
  apply run_bind_Some in Hres as (b & Hb & Hres).
  apply run_bind_Some in Hres as (c & Hc & Hres).
  destruct (draw d g) as [pt g1].
  apply run_bind_Some in Hres as ([] & _ & Hres).
  apply run_bind_Some in Hres as (c' & Hx & Hres).
  simpl in Ha, Hb, Hc, Hx, Hres. simplify_eq.
  exists c'. split; [done|]. split; [by eapply lookup_lt_Some|].
  eapply crossover_inplace_content; [| |done].
  - by eapply (Forall_lookup_1 _ _ _ _ Hgs).
  - by eapply (Forall_lookup_1 _ _ _ _ Hgs).
Qed.

Lemma crossover_round_content (gs : list Genom) idx half off d s k next (g : R) next' g' :
  Forall (λ a, Forall P (Genom.nucleotides a)) gs →
  result (run_each (GenePool.crossover_step gs idx half off d) (seq s k) (next, g))
  = Some (next', g') →
  ∀ j c, s + off ≤ j < s + k + off → next' !! j = Some c →
    Forall P (Genom.nucleotides c).
Proof.
  intros Hgs. revert s next g. induction k as [|k IH]; intros s next g Hres j c Hj Hc; [lia|].
  change (seq s (Datatypes.S k)) with (s :: seq (Datatypes.S s) k) in Hres.
  change (run_each ?body (s :: ?l) ?st) with (body s st ≫= run_each body l) in Hres.
  apply run_bind_Some in Hres as ([next1 g1] & Hstep & Hres).
  destruct (decide (j = s + off)) as [->|Hne].
  - apply crossover_step_content in Hstep as (c' & -> & Hlt & Hc'); [|done].
    apply crossover_round_frame in Hres as [_ Hframe].
    rewrite Hframe in Hc by lia.
    rewrite list_lookup_insert_eq in Hc by done. by simplify_eq.
  - eapply (IH (Datatypes.S s)); [done| |done]. lia.
Qed.

Variable Q : N → Prop.
Hypothesis Q_mutate : ∀ x (g : R), P x → Q (nucl_mutate x g).1.
Hypothesis P_Q : ∀ x, P x → Q x.

Lemma mutate_content n (g g' : R) (c c' : Genom) :
  Forall P (Genom.nucleotides c) →
  Genom.mutate n g c = Some (c', g') →
  Forall Q (Genom.nucleotides c').
Proof.
  intros Hc. unfold Genom.mutate. intros Hmut.
  destruct (Genom.nucleotides c !! n) as [y|] eqn:Ey; [|done].
  rewrite option_bind_Some in Hmut.
  pose proof (Q_mutate y g) as Hq. destruct (nucl_mutate y g) as [y' g1].
  simplify_eq/=. apply Forall_insert.
  - eapply Forall_impl; [done|]. apply P_Q.
  - apply Hq. by eapply (Forall_lookup_1 _ _ _ _ Hc).
Qed.

Lemma mutate_each_content d slot (next next' : list Genom) (g g' : R) :
  Forall (λ c, Forall P (Genom.nucleotides c)) next →
  result (GenePool.mutate_each d slot next g) = Some (next', g') →
  Forall (λ c, Forall Q (Genom.nucleotides c)) next'.
Proof.
  intros Hnext. revert slot next' g g'.
  induction Hnext as [|c rest Hc Hrest IH]; intros slot next' g g' Hres.
  { simpl in Hres. simplify_eq. constructor. }
  simpl in Hres. destruct (draw d g) as [n g1].
  apply run_bind_Some in Hres as ([] & _ & Hres).
  apply run_bind_Some in Hres as ([c' g2] & Hmut & Hres).
  apply run_bind_Some in Hres as ([rest' g3] & Hrest' & Hres).
  simpl in *. simplify_eq. constructor; [by eapply mutate_content|by eapply IH].
Qed.

Lemma select_content_gen (p p' : GenePool) :
  Nat.Even (GenePool.n_genoms p) →
  Forall (λ a, Forall P (Genom.nucleotides a)) (GenePool.genoms p) →
  GenePool.select p = Some p' →
  Forall (λ c, Forall Q (Genom.nucleotides c)) (GenePool.genoms p').
Proof.
  intros Hev Hgs Hsel.
  apply select_inv in Hsel as
    (idx1 & g1 & idx2 & g2 & next1 & g3 & idx3 & g4 & next2 & g5 & next3 & g6
     & _ & _ & Hr1 & _ & Hr2 & Hmut & ->).
  cbn [GenePool.genoms].
  eapply mutate_each_content; [|done].
  unfold GenePool.crossover_round in Hr1, Hr2.
  pose proof (crossover_round_content _ _ _ _ _ _ _ _ _ _ _ Hgs Hr1) as Hc1.
  pose proof (crossover_round_content _ _ _ _ _ _ _ _ _ _ _ Hgs Hr2) as Hc2.
  apply crossover_round_frame in Hr1 as [Hl1 _].
  apply crossover_round_frame in Hr2 as [Hl2 Hf2].
  rewrite length_resize in Hl1.
  pose proof (even_half _ Hev) as Hhalf.
  apply Forall_lookup_2. intros j c Hc.
  pose proof (lookup_lt_Some _ _ _ Hc) as Hj.
  destruct (decide (j < GenePool.n_genoms p / 2)) as [Hlo|Hhi].
  - rewrite Hf2 in Hc by lia. apply (Hc1 j); [lia|done].
  - apply (Hc2 j); [lia|done].
Qed.

End Content.

Section ContentTheorem.
Context {N S R : Type} `{!Nucl N} `{!Scorer S} `{!RandomEngine R}.

(** X29. [select] makes the children from the nucleotides of the
    population and from nothing else.  For a pool of even size: whatever
    property [P] of nucleotides the crossover of two nucleotides keeps, if
    every nucleotide of the population has it, then every nucleotide of
    every child is one with [P], or the mutation of one with [P]; what
    the staging array held before does not show. *)
Theorem select_content (P Q : N → Prop) (p p' : GenePool.t N S R) :
  (∀ x y z, P x → P y → P (nucl_crossover_inplace x y z)) →
  (∀ x (g : R), P x → Q (nucl_mutate x g).1) →
  (∀ x, P x → Q x) →
  Nat.Even (GenePool.n_genoms p) →
  Forall (λ a, Forall P (Genom.nucleotides a)) (GenePool.genoms p) →
  GenePool.select p = Some p' →
  Forall (λ c, Forall Q (Genom.nucleotides c)) (GenePool.genoms p').
Proof. intros HP HQ HPQ. by apply (select_content_gen P HP Q HQ HPQ). Qed.

End ContentTheorem.

Section TestLoop.
Context `{RandomEngine R}.

Local Abbreviation Pool := (GenePool.t IntNucl.t TestScorer.t R).

(** The values of all nucleotides of a population lie in [[-B, B]]. *)
Local Abbreviation bounded B gs :=
  (Forall (λ g : Genom.t IntNucl.t TestScorer.t,
             Forall (λ x, (- B ≤ IntNucl.value x ≤ B)%Z) (Genom.nucleotides g)) gs).

Lemma int_nucl_crossover_bound (B : Z) (x y z : IntNucl.t) :
  (0 ≤ B < 2 ^ 30)%Z →
  (- B ≤ IntNucl.value x ≤ B)%Z → (- B ≤ IntNucl.value y ≤ B)%Z →
  (- B ≤ IntNucl.value (nucl_crossover_inplace x y z) ≤ B)%Z.
Proof.
  cbn. unfold IntNucl.crossover_inplace, IntNucl.value. intros HB Hx Hy.
  cbn [IntNucl.value_].
  assert (IntNucl.wrap32 (IntNucl.value_ x + IntNucl.value_ y)
          = IntNucl.value_ x + IntNucl.value_ y)%Z as ->.
  { unfold IntNucl.wrap32. rewrite Z.mod_small; lia. }
  pose proof (Z.quot_rem' (IntNucl.value_ x + IntNucl.value_ y) 2) as Hq.
  pose proof (Z.rem_bound_abs (IntNucl.value_ x + IntNucl.value_ y) 2) as Hr.
  lia.
Qed.

Lemma int_nucl_mutate_bound (B : Z) (x : IntNucl.t) (g : R) :
  (0 ≤ B < 2 ^ 30)%Z →
  (- B ≤ IntNucl.value x ≤ B)%Z →
  (- (B + 5) ≤ IntNucl.value (nucl_mutate x g).1 ≤ B + 5)%Z.
Proof.
  cbn. unfold IntNucl.mutate, IntNucl.dist, IntNucl.value. intros HB Hx.
  pose proof (uniform_int_range (-5) 5 g) as Hr.
  destruct (uniform_int (-5) 5 g) as [v g']. simpl in *.
  unfold IntNucl.wrap32. rewrite Z.mod_small; lia.
Qed.

Lemma bounded_mono (B B' : Z) (gs : list (Genom.t IntNucl.t TestScorer.t)) :
  (B ≤ B')%Z → bounded B gs → bounded B' gs.
Proof.
  intros HB Hgs. eapply Forall_impl; [exact Hgs|]. intros g Hg.
  eapply Forall_impl; [exact Hg|]. intros x Hx. simpl in Hx |- *. lia.
Qed.

Lemma simulate_bounded (B : Z) (sim : Simulator.t) (p : Pool) :
  bounded B (GenePool.genoms p) →
  bounded B (GenePool.genoms (GenePool.simulate (Simulator.simulate sim) p)).
Proof.
  intros Hp. apply Forall_forall. intros g (g0 & Hg0 & ->)%simulate_members.
  exact (proj1 (Forall_forall _ _) Hp g0 Hg0).
Qed.

Lemma SFeqb_ten (x : spec_float) : SFeqb x Simulator.ten = true ↔ x = Simulator.ten.
Proof.
  split; [|by intros ->].
  unfold SFeqb, SFcompare, Simulator.ten.
  destruct x as [s|s| |s m e]; [by destruct s|by destruct s|done|].
  destruct s; [done|].
  destruct (Z.compare_spec e (-20)) as [->| |]; [|done|done].
  destruct (Pos.compare_cont Eq m 10485760) eqn:E; [|done|done].
  apply Pos.compare_eq in E. by subst.
Qed.

Lemma loop_bounded (sim : Simulator.t) (n : nat) (B : Z) (pool pool' : Pool) :
  Nat.Even (GenePool.n_genoms pool) →
  (0 ≤ B)%Z → (B + 5 * Z.of_nat n < 2 ^ 30)%Z →
  bounded B (GenePool.genoms pool) →
  MaxIntegerTest.loop sim n pool = Some pool' →
  bounded (B + 5 * Z.of_nat n) (GenePool.genoms pool').
Proof.
  revert B pool. induction n as [|n IH]; intros B pool Hev HB Hn Hpool Hloop.
  { simpl in Hloop. simplify_eq. eapply bounded_mono; [|done]. lia. }
  cbn [MaxIntegerTest.loop] in Hloop.
  destruct (GenePool.select pool) as [pool1|] eqn:Hsel; [|done].
  rewrite option_bind_Some in Hloop. cbv zeta in Hloop.
  assert (bounded (B + 5) (GenePool.genoms pool1)) as H1.
  { assert (0 ≤ B < 2 ^ 30)%Z as HB' by lia.
    apply (select_content_gen (λ x, (- B ≤ IntNucl.value x ≤ B)%Z)
             (λ x y z, int_nucl_crossover_bound B x y z HB')
             (λ x, (- (B + 5) ≤ IntNucl.value x ≤ B + 5)%Z)
             (λ x g, int_nucl_mutate_bound B x g HB')
             ltac:(intros; simpl in *; lia) pool pool1 Hev Hpool Hsel). }
  apply (simulate_bounded _ sim) in H1.
  destruct (MaxIntegerTest.found _) as [stop|]; [|done].
  rewrite option_bind_Some in Hloop. destruct stop.
  - simplify_eq. eapply bounded_mono; [|done]. lia.
  - apply (IH (B + 5)%Z) in Hloop; [| |lia|lia|done].
    + eapply bounded_mono; [|done]. lia.
    + cbn [GenePool.simulate GenePool.n_genoms].
      by destruct (select_fields _ _ Hsel) as (-> & _).
Qed.

Lemma loop_exit (sim : Simulator.t) (n : nat) (pool pool' : Pool) :
  (- 2 ^ 31 ≤ Simulator.max_ sim < 2 ^ 31)%Z →
  0 < n →
  MaxIntegerTest.loop sim n pool = Some pool' →
  (∃ b, GenePool.best pool' = Some b
      ∧ Genom.score b = Simulator.ten
      ∧ Simulator.get_value b = Simulator.max_ sim)
  ∨ (∀ g, g ∈ GenePool.genoms pool' → Simulator.get_value g ≠ Simulator.max_ sim).
Proof.
  intros Hmax. revert pool. induction n as [|n IH]; intros pool Hn Hloop; [lia|].
  cbn [MaxIntegerTest.loop] in Hloop.
  destruct (GenePool.select pool) as [pool1|] eqn:Hsel; [|done].
  rewrite option_bind_Some in Hloop. cbv zeta in Hloop.
  destruct (MaxIntegerTest.found _) as [stop|] eqn:Hfound; [|done].
  rewrite option_bind_Some in Hloop.
  unfold MaxIntegerTest.found in Hfound.
  destruct (GenePool.best (GenePool.simulate (Simulator.simulate sim) pool1))
    as [b|] eqn:Hb; [|done].
  rewrite option_bind_Some in Hfound. injection Hfound as Heq.
  destruct stop.
  - simplify_eq. left. exists b. apply SFeqb_ten in Heq.
    split; [done|]. split; [done|].
    apply simulate_best_member, simulate_members in Hb as (g0 & _ & ->).
    by apply (simulator_score_ten sim g0).
  - destruct n as [|n]; [|apply (IH _ ltac:(lia) Hloop)].
    simpl in Hloop. simplify_eq. right.
    intros g (g0 & Hg0 & ->)%simulate_members Hval.
    destruct (proj1 (simulate_best_ten sim pool1 Hmax)) as (b' & Hb' & Hten); [by exists g0|].
    rewrite Hb in Hb'. simplify_eq.
    apply SFeqb_ten in Hten. unfold Genom.score, Genom.get_scorer in *. cbn in *. congruence.
Qed.

(** X30. The loop of the test, on a pool on which it ends.  When it ends
    after at least one iteration, on a pool of even size whose values lie
    in [[-B, B]] at its start, with [B + 5 n < 2^30]: every value of the
    final population lies in [[-(B + 5 n), B + 5 n]]; [get_value] of a
    Genom of the final population is the sum of its values when its
    length times [B + 5 n] is below [2^31]; and either [pool.best()] has
    the score [10.0f] and its values add up to [max_], or no Genom of the
    final population adds up to [max_]. *)
Theorem test_loop_spec (sim : Simulator.t) (n : nat) (B : Z) (pool pool' : Pool) :
  (- 2 ^ 31 ≤ Simulator.max_ sim < 2 ^ 31)%Z →
  Nat.Even (GenePool.n_genoms pool) →
  (0 ≤ B)%Z → (B + 5 * Z.of_nat n < 2 ^ 30)%Z →
  Forall (λ g, Forall (λ x, (- B ≤ IntNucl.value x ≤ B)%Z) (Genom.nucleotides g))
         (GenePool.genoms pool) →
  0 < n →
  MaxIntegerTest.loop sim n pool = Some pool' →
  Forall (λ g, Forall (λ x, (- (B + 5 * Z.of_nat n) ≤ IntNucl.value x
                             ≤ B + 5 * Z.of_nat n)%Z) (Genom.nucleotides g))
         (GenePool.genoms pool')
  ∧ (∀ g, g ∈ GenePool.genoms pool' →
       (Z.of_nat (Genom.size g) * (B + 5 * Z.of_nat n) < 2 ^ 31)%Z →
       Simulator.get_value g
       = foldr Z.add 0%Z (IntNucl.value <$> Genom.nucleotides g))
  ∧ ((∃ b, GenePool.best pool' = Some b
         ∧ Genom.score b = Simulator.ten
         ∧ Simulator.get_value b = Simulator.max_ sim)
     ∨ (∀ g, g ∈ GenePool.genoms pool' → Simulator.get_value g ≠ Simulator.max_ sim)).
Proof.
  intros Hmax Hev HB Hn Hpool Hpos Hloop.
  pose proof (loop_bounded sim n B pool pool' Hev HB Hn Hpool Hloop) as Hbound.
  split; [exact Hbound|]. split; [|by eapply loop_exit].
  intros g Hg Hlen. unfold Simulator.get_value, Genom.get_nucleotides.
  rewrite (get_value_foldl _ 0 (B + 5 * Z.of_nat n)); [done|lia| |].
  - exact (proj1 (Forall_forall _ _) Hbound g Hg).
  - unfold Genom.size in Hlen. lia.
Qed.

End TestLoop.

Lemma select_content_witness :
  ∃ p p' : TestPool,
    GenePool.new 4 8 f0_25 = Some p
    ∧ GenePool.select p = Some p'
    ∧ Forall (λ c, Forall (λ x, (-5 ≤ IntNucl.value x ≤ 5)%Z) (Genom.nucleotides c))
             (GenePool.genoms p)
    ∧ Forall (λ c, Forall (λ x, (-10 ≤ IntNucl.value x ≤ 10)%Z) (Genom.nucleotides c))
             (GenePool.genoms p').
Proof.
  eexists. eexists. split; [vm_compute; reflexivity|].
  split; [vm_compute; reflexivity|].
  match goal with |- Forall _ (GenePool.genoms ?p) ∧ Forall _ (GenePool.genoms ?p') =>
    assert (Forall (λ c, Forall (λ x, (-5 ≤ IntNucl.value x ≤ 5)%Z) (Genom.nucleotides c))
                   (GenePool.genoms p)) as Hp
      by (apply (test_pool_initial_bound 4 8 f0_25); vm_compute; reflexivity);
    split; [exact Hp|];
    apply (select_content (λ x, (-5 ≤ IntNucl.value x ≤ 5)%Z)
             (λ x, (-10 ≤ IntNucl.value x ≤ 10)%Z) p p')
  end.
  - intros x y z. apply (int_nucl_crossover_bound 5). lia.
  - intros x g. apply (int_nucl_mutate_bound 5 x g). lia.
  - intros x. lia.
  - by exists 2.
  - exact Hp.
  - vm_compute; reflexivity.
Defined.

(** The pool of the test itself, [GenePool{10, 7, 0.3}], does not get
    through the first iteration of the loop: its first [select] mutates a
    Genom at the index 7. *)
Example test_loop_on_test_pool :
  ∃ p : TestPool,
    GenePool.new 10 7 f0_3 = Some p
    ∧ ∀ n, 0 < n →
        MaxIntegerTest.loop test_simulator n
          (GenePool.simulate (Simulator.simulate test_simulator) p) = None.
Proof.
  eexists. split; [vm_compute; reflexivity|].
  intros [|n] Hn; [lia|]. cbn [MaxIntegerTest.loop].
  match goal with |- GenePool.select ?p ≫= _ = None =>
    assert (GenePool.select p = None) as -> by (vm_compute; reflexivity)
  end.
  reflexivity.
Qed.

Lemma test_loop_spec_witness :
  ∃ p p' : TestPool,
    GenePool.new 4 8 f0_25 = Some p
    ∧ MaxIntegerTest.loop test_simulator 1 p = Some p'
    ∧ Forall (λ c, Forall (λ x, (-5 ≤ IntNucl.value x ≤ 5)%Z) (Genom.nucleotides c))
             (GenePool.genoms p)
    ∧ Forall (λ c, Forall (λ x, (-10 ≤ IntNucl.value x ≤ 10)%Z) (Genom.nucleotides c))
             (GenePool.genoms p')
    ∧ (∀ g, g ∈ GenePool.genoms p' →
         (Z.of_nat (Genom.size g) * 10 < 2 ^ 31)%Z →
         Simulator.get_value g
         = foldr Z.add 0%Z (IntNucl.value <$> Genom.nucleotides g))
    ∧ ((∃ b, GenePool.best p' = Some b
           ∧ Genom.score b = Simulator.ten
           ∧ Simulator.get_value b = 6%Z)
       ∨ (∀ g, g ∈ GenePool.genoms p' → Simulator.get_value g ≠ 6%Z)).
Proof.
  eexists. eexists. split; [vm_compute; reflexivity|].
  split; [vm_compute; reflexivity|].
  match goal with |- Forall _ (GenePool.genoms ?p) ∧ Forall _ (GenePool.genoms ?p') ∧ _ =>
    assert (Forall (λ c, Forall (λ x, (-5 ≤ IntNucl.value x ≤ 5)%Z) (Genom.nucleotides c))
                   (GenePool.genoms p)) as Hp
      by (apply (test_pool_initial_bound 4 8 f0_25); vm_compute; reflexivity);
    split; [exact Hp|];
    apply (test_loop_spec test_simulator 1 5 p p')
  end.
  - cbn. lia.
  - by exists 2.
  - lia.
  - lia.
  - exact Hp.
  - lia.
  - vm_compute; reflexivity.
Defined.

(* ================================================================== *)
(** * The initial population is a constant *)
(* ================================================================== *)

Section Determinism.
Context {N S R : Type} `{!Nucl N} `{!Scorer S} `{!RandomEngine R}.

Local Abbreviation Genom := (Genom.t N S).
Local Abbreviation GenePool := (GenePool.t N S R).

(** The constructor draws the nucleotides of the whole population one
    after the other: its Genoms, laid end to end, are the first
    [n * len] draws of the engine. *)
Lemma push_genoms_draws n len (gs : list Genom) (g : R) :
  concat (Genom.nucleotides <$> (GenePool.push_genoms n len gs g).1)
  = concat (Genom.nucleotides <$> gs) ++ (Genom.push_random (n * len) [] g).1
  ∧ (GenePool.push_genoms n len gs g).2 = (Genom.push_random (n * len) [] g).2.
Proof.
  revert gs g. induction n as [|n IH]; intros gs g.
  { simpl. by rewrite app_nil_r. }
  cbn [GenePool.push_genoms].
  change (Datatypes.S n * len) with (len + n * len). rewrite push_random_add.
  destruct (Genom.random len g) as [x g1] eqn:Er.
  unfold Genom.random in Er. cbn [Genom.nucleotides Genom.default] in Er.
  destruct (Genom.push_random len [] g) as [ns g0] eqn:E1. cbn [fst snd].
  injection Er as <- <-.
  destruct (IH (gs ++ [Genom.Make ns scorer_default : Genom]) g0) as [Hc Hg].
  rewrite Hc, Hg, fmap_app, concat_app. cbn [fmap list_fmap concat Genom.nucleotides].
  rewrite app_nil_r, (push_random_acc (n * len) ns g0), <- app_assoc. done.
Qed.

(** C10. Construction is deterministic.  The seed of the engine is the
    first output of a default-constructed [std::default_random_engine],
    which is the constant 16807; the population is made of [n] Genoms of
    [len] nucleotides that are, laid end to end, the first [n * len]
    draws of the engine seeded with 16807, and the engine is left as
    these draws leave it.  So two pools built for the same population
    size and genom length hold the same population and the same engine
    state, whatever the elite fractions, and are equal when the fractions
    are. *)
Theorem new_deterministic (n len : nat) (f1 f2 : spec_float) (p1 p2 : GenePool) :
  GenePool.new n len f1 = Some p1 → GenePool.new n len f2 = Some p2 →
  (Std.minstd_rand0.next (Std.minstd_rand0.seed Std.minstd_rand0.default_seed)).1
  = 16807%Z
  ∧ length (GenePool.genoms p1) = n
  ∧ Forall (λ g, Genom.size g = len ∧ Genom.scorer g = scorer_default)
           (GenePool.genoms p1)
  ∧ concat (Genom.nucleotides <$> GenePool.genoms p1)
    = (Genom.push_random (n * len) [] (rng_seed 16807%Z)).1
  ∧ GenePool.rng p1 = (Genom.push_random (n * len) [] (rng_seed 16807%Z)).2
  ∧ GenePool.genoms p1 = GenePool.genoms p2
  ∧ GenePool.rng p1 = GenePool.rng p2
  ∧ (f1 = f2 → p1 = p2).
Proof.
  intros H1 H2. split; [reflexivity|].
  pose proof (new_inv _ _ _ _ H1) as (tk1 & rt1 & Ht1 & Hr1 & Hp1).
  pose proof (new_inv _ _ _ _ H2) as (tk2 & rt2 & Ht2 & Hr2 & Hp2).
  change Std.default_random_engine_first_output with 16807%Z in Hp1, Hp2.
  destruct (push_genoms_spec n len [] (rng_seed 16807%Z)) as [Hlen Hsize]; [constructor|].
  pose proof (push_genoms_Forall (λ g : Genom, Genom.scorer g = scorer_default)
                n len [] (rng_seed 16807%Z) (λ g0, random_scorer len g0)
                ltac:(constructor)) as Hscorer.
  destruct (push_genoms_draws n len [] (rng_seed 16807%Z)) as [Hdraws Hrng].
  subst p1 p2. cbn [GenePool.genoms GenePool.rng].
  split_and!; try done.
  - apply Forall_and. by split.
  - intros ->. by simplify_eq.
Qed.

End Determinism.

(** The population of [GenePool{10, 7, f}] with the nucleotide of the test
    and [std::default_random_engine], and the state of its engine. *)
Lemma new_deterministic_witness :
  ∃ p1 p2 : TestPool,
    GenePool.new 10 7 f0_3 = Some p1
    ∧ GenePool.new 10 7 f0_25 = Some p2
    ∧ GenePool.take p1 = 3 ∧ GenePool.take p2 = 2
    ∧ (IntNucl.value <$> concat (Genom.nucleotides <$> GenePool.genoms p1))
      = [-4; 3; 0; 0; -3; -5; 2;    2; 5; -1; 0; 4; -5; -5;
         0; 2; -5; -1; -5; -1; 2;   1; 5; 4; 0; -4; 2; -1;
         2; 5; 3; -3; -5; 3; -2;    1; 3; 5; -1; -3; 5; 2;
         3; 2; -5; 1; 4; -3; -1;    3; 0; -3; -2; -2; -4; 0;
         4; 5; -5; 4; 0; 0; -2;     5; 0; -3; -5; 5; -5; 0]%Z
    ∧ length (GenePool.genoms p1) = 10
    ∧ Forall (λ g, Genom.size g = 7 ∧ Genom.scorer g = scorer_default)
             (GenePool.genoms p1)
    ∧ GenePool.rng p1 = Std.minstd_rand0.Engine 1075260298
    ∧ GenePool.genoms p1 = GenePool.genoms p2
    ∧ GenePool.rng p1 = GenePool.rng p2.
Proof.
  eexists. eexists.
  split; [vm_compute; reflexivity|]. split; [vm_compute; reflexivity|].
  split; [reflexivity|]. split; [reflexivity|].
  match goal with |- _ ∧ _ ∧ _ ∧ _ ∧ GenePool.genoms ?p1 = GenePool.genoms ?p2 ∧ _ =>
    destruct (new_deterministic 10 7 f0_3 f0_25 p1 p2)
      as (_ & Hlen & Hsize & Hdraws & Hrng & Hg & Hr & _)
  end.
  - vm_compute; reflexivity.
  - vm_compute; reflexivity.
  - split; [rewrite Hdraws; vm_compute; reflexivity|].
    split; [exact Hlen|]. split; [exact Hsize|].
    split; [rewrite Hrng; vm_compute; reflexivity|].
    split; [exact Hg|exact Hr].
Defined.
